(** * A verified model of [vector.h]: [RawMemory<T>] and [Vector<T>]

    The two class templates of [vector.h] are embedded as programs of a
    small state-and-exception monad.  The state holds the objects a member
    function can touch: the vector [*this], a second vector (the argument
    [other] / [rhs] of the binary members), the local [RawMemory<T> new_data]
    of the running member function, the schedule of the next exception and a
    log of the element-lifetime operations performed.

    Conventions.
    - A block of raw storage is a list of slots, each either [Raw]
      (uninitialised) or [Live x] (holding a constructed [T] of value [x]).
      A null [buffer_] is the empty list.
    - A [T*] is a block name and an offset ([ptr]); an iterator argument
      [pos] is its offset from [begin()], so [std::distance(cbegin(), pos)]
      is [pos] itself and [pos >= cbegin()] holds of every iterator.
    - [size_t] is [nat].  The only subtraction of the source that can pass
      below zero, [size_ - 1] in [Insert], is modelled by [size_t_minus],
      which keeps the wrapped result apart from every valid index.  The
      only product that can pass [SIZE_MAX], [n * sizeof(T)] in [Allocate]
      for a count [n] chosen by the caller, is modelled by
      [Allocate_wrapping], for a [T] of [sizeof] bytes on a 64-bit target.
    - When a constructor throws inside an [uninitialized_] algorithm, the
      objects constructed so far are destroyed from the first one upwards,
      as libstdc++ does; the standard does not fix that order.
    - What the language leaves undefined is an explicit outcome
      ([Undefined]): reading, assigning or destroying an object in a [Raw]
      slot, constructing over a [Live] one, leaving the block, a failed
      [assert], and handing a standard algorithm a range [[first, last)]
      whose [last] is not reachable from [first]. *)

From stdpp Require Import base list.

(** ** The element type *)

(** What the container has to know of [T]: the state a moved-from object is
    left in, the value of [T()], and the three type traits queried by
    [vector.h]. *)
Class Element (T : Type) := {
  husk : T -> T;
  value_init : T;
  is_nothrow_move_constructible : bool;
  is_copy_constructible : bool;
  is_nothrow_move_assignable : bool
}.

(** ** Storage, pointers, events *)

Inductive slot (T : Type) : Type :=
| Raw
| Live (x : T).
Arguments Raw {T}.
Arguments Live {T} x.

(** The [RawMemory] objects a member function sees: [data_] of [*this],
    [data_] of the other vector, and the local [new_data]. *)
Inductive block : Set := Here | There | New.

Definition ptr : Set := (block * nat)%type.

(** Where an object taking part in an element operation lives: in a slot,
    or outside the buffers (the parameter [value], the local [new_item]). *)
Inductive place : Set :=
| At (p : ptr)
| Local.

Inductive event : Set :=
| EvAllocate (n : nat)
| EvDeallocate (n : nat)
| EvConstruct (dst : place)
| EvCopyConstruct (src dst : place)
| EvMoveConstruct (src dst : place)
| EvCopyAssign (src dst : place)
| EvMoveAssign (src dst : place)
| EvDestroy (p : place).

Inductive fault : Set :=
| AssertionFailed
| OutOfBounds
| Uninitialized
| AlreadyLive
| InvalidRange.

Record RawMemory (T : Type) : Type := mkRawMemory {
  buffer_ : list (slot T);
  capacity_ : nat
}.
Arguments mkRawMemory {T} _ _.
Arguments buffer_ {T} _.
Arguments capacity_ {T} _.

Record Vector (T : Type) : Type := mkVector {
  data_ : RawMemory T;
  size_ : nat
}.
Arguments mkVector {T} _ _.
Arguments data_ {T} _.
Arguments size_ {T} _.

(** Which object a [Vector&] argument refers to: [*this] itself or the other
    vector of the state. *)
Inductive operand : Set := Self | Other.

Record state (T : Type) : Type := mkState {
  this : Vector T;
  other : Vector T;
  local : RawMemory T;
  countdown : option nat;
  log : list event
}.
Arguments mkState {T} _ _ _ _ _.
Arguments this {T} _.
Arguments other {T} _.
Arguments local {T} _.
Arguments countdown {T} _.
Arguments log {T} _.

(** ** The monad *)

Inductive outcome (S R : Type) : Type :=
| Ret (r : R) (s : S)
| Raise (s : S)
| Undefined (f : fault).
Arguments Ret {S R} r s.
Arguments Raise {S R} s.
Arguments Undefined {S R} f.

Definition M (T R : Type) : Type := state T -> outcome (state T) R.

Global Instance M_ret {T} : MRet (M T) := fun R (r : R) s => Ret r s.

Global Instance M_bind {T} : MBind (M T) :=
  fun A B (k : A -> M T B) (m : M T A) s =>
    match m s with
    | Ret a s' => k a s'
    | Raise s' => Raise s'
    | Undefined f => Undefined f
    end.

Definition ret {T R} (r : R) : M T R := mret r.

Definition fail {T R} (f : fault) : M T R := fun _ => Undefined f.

Definition gets {T R} (f : state T -> R) : M T R := fun s => Ret (f s) s.

Definition modify {T} (f : state T -> state T) : M T unit :=
  fun s => Ret tt (f s).

(** [try { m } catch (...) { h; throw; }] *)
Definition on_raise {T R} (m : M T R) (h : M T unit) : M T R :=
  fun s => match m s with
           | Raise s' =>
               match h s' with
               | Ret _ s'' => Raise s''
               | Raise s'' => Raise s''
               | Undefined f => Undefined f
               end
           | o => o
           end.

(** A scope: [exit] runs when control leaves [m], normally or by an
    exception (the destructor of a local object). *)
Definition scope {T R} (m : M T R) (exit : M T unit) : M T R :=
  r ← on_raise m exit; exit;; ret r.

Definition assert {T} (b : bool) : M T unit :=
  if b then ret tt else fail AssertionFailed.

Definition set_this {T} (v : Vector T) (s : state T) : state T :=
  mkState v (other s) (local s) (countdown s) (log s).
Definition set_other {T} (v : Vector T) (s : state T) : state T :=
  mkState (this s) v (local s) (countdown s) (log s).
Definition set_local {T} (d : RawMemory T) (s : state T) : state T :=
  mkState (this s) (other s) d (countdown s) (log s).
Definition set_countdown {T} (c : option nat) (s : state T) : state T :=
  mkState (this s) (other s) (local s) c (log s).
Definition set_log {T} (l : list event) (s : state T) : state T :=
  mkState (this s) (other s) (local s) (countdown s) l.

Definition emit {T} (e : event) : M T unit :=
  modify (fun s => set_log (log s ++ [e]) s).

(** An operation that may throw consults the schedule: [Some 0] makes it
    throw, [Some (S k)] lets it and [k] more pass, [None] never throws. *)
Definition tick {T} : M T unit :=
  fun s => match countdown s with
           | None => Ret tt s
           | Some 0 => Raise (set_countdown None s)
           | Some (S k) => Ret tt (set_countdown (Some k) s)
           end.

Definition tick_unless {T} (nothrow : bool) : M T unit :=
  if nothrow then ret tt else tick.

(** ** Blocks of the state *)

Definition raw_of {T} (b : block) (s : state T) : RawMemory T :=
  match b with
  | Here => data_ (this s)
  | There => data_ (other s)
  | New => local s
  end.

Definition set_raw {T} (b : block) (d : RawMemory T) (s : state T) : state T :=
  match b with
  | Here => set_this (mkVector d (size_ (this s))) s
  | There => set_other (mkVector d (size_ (other s))) s
  | New => set_local d s
  end.

Definition cells {T} (b : block) (s : state T) : list (slot T) :=
  buffer_ (raw_of b s).

Definition set_cells {T} (b : block) (l : list (slot T)) (s : state T) : state T :=
  set_raw b (mkRawMemory l (capacity_ (raw_of b s))) s.

Definition vec {T} (o : operand) (s : state T) : Vector T :=
  match o with Self => this s | Other => other s end.

Definition set_vec {T} (o : operand) (v : Vector T) (s : state T) : state T :=
  match o with Self => set_this v s | Other => set_other v s end.

Definition data_of (o : operand) : block :=
  match o with Self => Here | Other => There end.

Definition block_eqb (a b : block) : bool :=
  match a, b with
  | Here, Here | There, There | New, New => true
  | _, _ => false
  end.

Definition operand_eqb (a b : operand) : bool :=
  match a, b with
  | Self, Self | Other, Other => true
  | _, _ => false
  end.

Definition padd (p : ptr) (k : nat) : ptr := (p.1, p.2 + k).

(** [p - k]; the result has to stay inside the block. *)
Definition pminus {T} (p : ptr) (k : nat) : M T ptr :=
  if k <=? p.2 then ret (p.1, p.2 - k) else fail OutOfBounds.

(** [a - b] on [size_t].  When [b > a] the result wraps to
    [2^64 - (b - a)], above every capacity: [None]. *)
Definition size_t_minus (a b : nat) : option nat :=
  if b <=? a then Some (a - b) else None.

(** ** Object lifetime in a slot *)

(** Use the object at [p]. *)
Definition peek {T} (p : ptr) : M T T :=
  fun s => match cells p.1 s !! p.2 with
           | Some (Live x) => Ret x s
           | Some Raw => Undefined Uninitialized
           | None => Undefined OutOfBounds
           end.

(** Give the live object at [p] the value [x]. *)
Definition poke {T} (p : ptr) (x : T) : M T unit :=
  fun s => match cells p.1 s !! p.2 with
           | Some (Live _) => Ret tt (set_cells p.1 (<[p.2 := Live x]> (cells p.1 s)) s)
           | Some Raw => Undefined Uninitialized
           | None => Undefined OutOfBounds
           end.

(** Begin the lifetime of an object of value [x] in the raw slot [p]. *)
Definition construct_at {T} (p : ptr) (x : T) : M T unit :=
  fun s => match cells p.1 s !! p.2 with
           | Some Raw => Ret tt (set_cells p.1 (<[p.2 := Live x]> (cells p.1 s)) s)
           | Some (Live _) => Undefined AlreadyLive
           | None => Undefined OutOfBounds
           end.

(** [p->~T()] *)
Definition destroy_at {T} (p : ptr) : M T unit :=
  (fun s => match cells p.1 s !! p.2 with
            | Some (Live _) => Ret tt (set_cells p.1 (<[p.2 := Raw]> (cells p.1 s)) s)
            | Some Raw => Undefined Uninitialized
            | None => Undefined OutOfBounds
            end) ;;
  emit (EvDestroy (At p)).

(** ** Operations of [T] *)

Section Model.
Context {T : Type} `{!Element T}.

(** Placement-new at [dst] of a copy of the object at [src]. *)
Definition T_copy_construct (src dst : ptr) : M T unit :=
  x ← peek src;
  tick;;
  construct_at dst x;;
  emit (EvCopyConstruct (At src) (At dst)).

(** Placement-new at [dst], move-constructing from the object at [src]. *)
Definition T_move_construct (src dst : ptr) : M T unit :=
  x ← peek src;
  tick_unless is_nothrow_move_constructible;;
  construct_at dst x;;
  poke src (husk x);;
  emit (EvMoveConstruct (At src) (At dst)).

(** Copy-assignment of the object at [src] to the object at [dst]. *)
Definition T_copy_assign (src dst : ptr) : M T unit :=
  x ← peek src;
  peek dst;;
  tick;;
  poke dst x;;
  emit (EvCopyAssign (At src) (At dst)).

(** Move-assignment of the object at [src] to the object at [dst]. *)
Definition T_move_assign (src dst : ptr) : M T unit :=
  x ← peek src;
  peek dst;;
  tick_unless is_nothrow_move_assignable;;
  poke dst x;;
  poke src (husk x);;
  emit (EvMoveAssign (At src) (At dst)).

(** [new (dst) T()] *)
Definition T_value_construct (dst : ptr) : M T unit :=
  tick;;
  construct_at dst value_init;;
  emit (EvConstruct (At dst)).

(** [new (dst) T(std::forward<Args>(args)...)], where the constructor builds
    the value [x] from [args]. *)
Definition T_construct_from_args (x : T) (dst : ptr) : M T unit :=
  tick;;
  construct_at dst x;;
  emit (EvConstruct (At dst)).

(** [new (dst) T(value)] for a [const T& value] of value [x] that lives
    outside the buffers. *)
Definition T_copy_construct_from (x : T) (dst : ptr) : M T unit :=
  tick;;
  construct_at dst x;;
  emit (EvCopyConstruct Local (At dst)).

(** [new (dst) T(std::move(value))] for a [T&& value] of value [x]. *)
Definition T_move_construct_from (x : T) (dst : ptr) : M T unit :=
  tick_unless is_nothrow_move_constructible;;
  construct_at dst x;;
  emit (EvMoveConstruct Local (At dst)).

(** Move-assignment of the local [new_item], of value [x], to the object
    at [dst]. *)
Definition T_move_assign_from (x : T) (dst : ptr) : M T unit :=
  peek dst;;
  tick_unless is_nothrow_move_assignable;;
  poke dst x;;
  emit (EvMoveAssign Local (At dst)).

(** The declaration of the local [T new_item(...)] followed by the rest of
    its block: [init] is the constructor call, the destructor runs when the
    block is left. *)
Definition with_new_item {R} (init : M T unit) (body : M T R) : M T R :=
  init;;
  scope body (emit (EvDestroy Local)).

(** ** The algorithms of [<memory>] and [<algorithm>] used by the source *)

(** [std::destroy_n(first, n)] *)
Fixpoint destroy_n (first : ptr) (n : nat) : M T unit :=
  match n with
  | 0 => ret tt
  | S n' => destroy_at first;; destroy_n (padd first 1) n'
  end.

(** The number of steps from [first] to [last]; [last] has to be reachable
    from [first]. *)
Definition distance (first last : ptr) : M T nat :=
  if block_eqb first.1 last.1 && (first.2 <=? last.2)
  then ret (last.2 - first.2)
  else fail InvalidRange.

(** [std::ranges::destroy(first, last)] *)
Definition ranges_destroy (first last : ptr) : M T unit :=
  n ← distance first last;
  destroy_n first n.

(** [std::uninitialized_copy_n(first, n, d_first)].  The library runs its
    loop in a [try] block whose handler destroys the objects constructed so
    far, those of [[d_first, cur)], and rethrows.  The standard leaves the
    order of these destructor calls unspecified; libstdc++ destroys from
    [d_first] upwards, and so does the model.  [done] counts the objects
    constructed so far. *)
Fixpoint uninitialized_copy_from (first d_first : ptr) (done n : nat) : M T unit :=
  match n with
  | 0 => ret tt
  | S n' =>
      on_raise (T_copy_construct (padd first done) (padd d_first done))
               (destroy_n d_first done);;
      uninitialized_copy_from first d_first (S done) n'
  end.

Definition uninitialized_copy_n (first : ptr) (n : nat) (d_first : ptr) : M T unit :=
  uninitialized_copy_from first d_first 0 n.

(** [std::uninitialized_move_n(first, n, d_first)], with the same handler. *)
Fixpoint uninitialized_move_from (first d_first : ptr) (done n : nat) : M T unit :=
  match n with
  | 0 => ret tt
  | S n' =>
      on_raise (T_move_construct (padd first done) (padd d_first done))
               (destroy_n d_first done);;
      uninitialized_move_from first d_first (S done) n'
  end.

Definition uninitialized_move_n (first : ptr) (n : nat) (d_first : ptr) : M T unit :=
  uninitialized_move_from first d_first 0 n.

(** [std::uninitialized_value_construct_n(first, n)], with the same
    handler. *)
Fixpoint uninitialized_value_construct_from (first : ptr) (done n : nat) : M T unit :=
  match n with
  | 0 => ret tt
  | S n' =>
      on_raise (T_value_construct (padd first done)) (destroy_n first done);;
      uninitialized_value_construct_from first (S done) n'
  end.

Definition uninitialized_value_construct_n (first : ptr) (n : nat) : M T unit :=
  uninitialized_value_construct_from first 0 n.

(** [std::copy_n(first, n, d_first)] *)
Fixpoint copy_n (first : ptr) (n : nat) (d_first : ptr) : M T unit :=
  match n with
  | 0 => ret tt
  | S n' => T_copy_assign first d_first;; copy_n (padd first 1) n' (padd d_first 1)
  end.

Fixpoint move_n (first : ptr) (n : nat) (d_first : ptr) : M T unit :=
  match n with
  | 0 => ret tt
  | S n' => T_move_assign first d_first;; move_n (padd first 1) n' (padd d_first 1)
  end.

(** [std::move(first, last, d_first)]: move-assigns the elements of
    [[first, last)] in ascending order to the range that starts at
    [d_first]. *)
Definition std_move (first last d_first : ptr) : M T unit :=
  n ← distance first last;
  move_n first n d_first.

Fixpoint move_backward_n (last : ptr) (n : nat) (d_last : ptr) : M T unit :=
  match n with
  | 0 => ret tt
  | S n' =>
      l ← pminus last 1;
      d ← pminus d_last 1;
      T_move_assign l d;;
      move_backward_n l n' d
  end.

(** [std::move_backward(first, last, d_last)]: move-assigns the elements
    of [[first, last)] in descending order to the range that ends at
    [d_last]. *)
Definition move_backward (first last d_last : ptr) : M T unit :=
  n ← distance first last;
  move_backward_n last n d_last.

(** ** [RawMemory<T>] *)

(** [Allocate(n)] for a count whose byte size [n * sizeof(T)] fits
    [size_t], so that the block obtained holds [n] objects: [operator new]
    may throw.  [Allocate_wrapping], further down, is the request with the
    byte size as the source computes it. *)
Definition Allocate (n : nat) : M T (list (slot T)) :=
  if n =? 0 then ret []
  else tick;; emit (EvAllocate n);; ret (replicate n Raw).

(** [Deallocate(buf)]: [operator delete] of a null pointer does nothing. *)
Definition Deallocate (buf : list (slot T)) : M T unit :=
  match buf with
  | [] => ret tt
  | _ => emit (EvDeallocate (length buf))
  end.

(** [RawMemory(size_t capacity)], constructing the object named [b]. *)
Definition RawMemory_ctor (b : block) (capacity : nat) : M T unit :=
  buf ← Allocate capacity;
  modify (set_raw b (mkRawMemory buf capacity)).

(** [~RawMemory()] *)
Definition RawMemory_dtor (b : block) : M T unit :=
  buf ← gets (cells b);
  Deallocate buf;;
  modify (set_raw b (mkRawMemory [] 0)).

(** [RawMemory(RawMemory&& other)], constructing [b] from [src]. *)
Definition RawMemory_move_ctor (b src : block) : M T unit :=
  d ← gets (raw_of src);
  modify (set_raw src (mkRawMemory [] 0));;
  modify (set_raw b d).

(** [operator=(RawMemory&& rhs)]: the block [buffer_] held before is
    neither released nor handed to [rhs]. *)
Definition RawMemory_move_assign (b rhs : block) : M T unit :=
  if block_eqb b rhs then ret tt
  else
    d ← gets (raw_of rhs);
    modify (set_raw rhs (mkRawMemory [] 0));;
    modify (set_raw b d).

Definition RawMemory_Capacity (b : block) : M T nat :=
  gets (fun s => capacity_ (raw_of b s)).

Definition RawMemory_GetAddress (b : block) : ptr := (b, 0).

(** [operator+(size_t offset)] *)
Definition RawMemory_plus (b : block) (offset : nat) : M T ptr :=
  cap ← RawMemory_Capacity b;
  assert (offset <=? cap);;
  ret (padd (RawMemory_GetAddress b) offset).

(** [operator[](size_t index)]; [None] is an index that wrapped around. *)
Definition RawMemory_at (b : block) (index : option nat) : M T ptr :=
  cap ← RawMemory_Capacity b;
  match index with
  | Some i => assert (i <? cap);; ret (padd (RawMemory_GetAddress b) i)
  | None => fail AssertionFailed
  end.

(** [Swap(RawMemory& other)] *)
Definition RawMemory_Swap (b o : block) : M T unit :=
  d ← gets (raw_of b);
  d' ← gets (raw_of o);
  modify (set_raw b d');;
  modify (set_raw o d).

(** The local [RawMemory<T> new_data(capacity);] followed by the rest of
    its block. *)
Definition with_new_data {R} (capacity : nat) (body : M T R) : M T R :=
  RawMemory_ctor New capacity;;
  scope body (RawMemory_dtor New).

(** ** [Vector<T>] *)

Definition set_size (o : operand) (n : nat) : M T unit :=
  modify (fun s => set_vec o (mkVector (data_ (vec o s)) n) s).

Definition get_size (o : operand) : M T nat := gets (fun s => size_ (vec o s)).

(** [Size()] *)
Definition Size : M T nat := get_size Self.

(** [Capacity()] *)
Definition Capacity : M T nat := RawMemory_Capacity Here.

(** [begin()], [cbegin()] *)
Definition begin : ptr := RawMemory_GetAddress Here.

(** [end()], [cend()] *)
Definition end_ : M T ptr := sz ← Size; ret (padd (RawMemory_GetAddress Here) sz).

(** [Vector()] *)
Definition Vector_default : M T unit :=
  RawMemory_ctor Here 0;;
  set_size Self 0.

(** [Vector(size_t size)].  When the body throws, the member [data_] is
    destroyed and no object comes into being. *)
Definition Vector_sized (size : nat) : M T unit :=
  RawMemory_ctor Here size;;
  set_size Self size;;
  on_raise (uninitialized_value_construct_n (RawMemory_GetAddress Here) size)
           (RawMemory_dtor Here).

(** [Vector(const Vector& other)] *)
Definition Vector_copy : M T unit :=
  n ← get_size Other;
  RawMemory_ctor Here n;;
  set_size Self n;;
  sz ← Size;
  on_raise (uninitialized_copy_n (RawMemory_GetAddress There) sz (RawMemory_GetAddress Here))
           (RawMemory_dtor Here).

(** [Vector(Vector&& other)] *)
Definition Vector_move : M T unit :=
  RawMemory_move_ctor Here There;;
  n ← get_size Other;
  set_size Other 0;;
  set_size Self n.

(** [~Vector()] *)
Definition Vector_dtor : M T unit :=
  sz ← Size;
  destroy_n (RawMemory_GetAddress Here) sz;;
  RawMemory_dtor Here.

(** [Swap(Vector& other)] *)
Definition Swap (o : operand) : M T unit :=
  RawMemory_Swap Here (data_of o);;
  a ← Size;
  b ← get_size o;
  set_size Self b;;
  set_size o a.

(** [operator=(const Vector& rhs)] *)
Definition copy_assign (rhs : operand) : M T unit :=
  if operand_eqb Self rhs then ret tt
  else
    rsize ← get_size rhs;
    cap ← RawMemory_Capacity Here;
    (if cap <? rsize then
       with_new_data rsize (
         uninitialized_copy_n (RawMemory_GetAddress (data_of rhs)) rsize
                              (RawMemory_GetAddress New);;
         sz ← Size;
         destroy_n (RawMemory_GetAddress Here) sz;;
         RawMemory_move_assign Here New)
     else
       sz ← Size;
       copy_n (RawMemory_GetAddress (data_of rhs)) (sz `min` rsize)
              (RawMemory_GetAddress Here);;
       if rsize <? sz then
         c ← Capacity;
         ranges_destroy (padd (RawMemory_GetAddress Here) rsize)
                        (padd (RawMemory_GetAddress Here) c)
       else if sz <? rsize then
         uninitialized_copy_n (padd (RawMemory_GetAddress (data_of rhs)) sz)
                              (rsize - sz)
                              (padd (RawMemory_GetAddress Here) sz)
       else ret tt);;
    set_size Self rsize.

(** [operator=(Vector&& rhs)] *)
Definition move_assign (rhs : operand) : M T unit :=
  if operand_eqb Self rhs then ret tt else Swap rhs.

(** [operator[](size_t index)]: the element referred to. *)
Definition Vector_at (index : nat) : M T ptr :=
  sz ← Size;
  assert (index <? sz);;
  RawMemory_at Here (Some index).

(** [MoveOrCopyToMemory(from, n, to)] *)
Definition MoveOrCopyToMemory (from : ptr) (n : nat) (to : ptr) : M T unit :=
  if is_nothrow_move_constructible || negb is_copy_constructible
  then uninitialized_move_n from n to
  else uninitialized_copy_n from n to.

(** [Reserve(size_t new_capacity)] *)
Definition Reserve (new_capacity : nat) : M T unit :=
  cap ← RawMemory_Capacity Here;
  if new_capacity <=? cap then ret tt
  else
    with_new_data new_capacity (
      sz ← Size;
      (if is_nothrow_move_constructible || negb is_copy_constructible
       then uninitialized_move_n (RawMemory_GetAddress Here) sz (RawMemory_GetAddress New)
       else uninitialized_copy_n (RawMemory_GetAddress Here) sz (RawMemory_GetAddress New));;
      destroy_n (RawMemory_GetAddress Here) sz;;
      RawMemory_move_assign Here New).

(** [Resize(size_t new_size)] *)
Definition Resize (new_size : nat) : M T unit :=
  sz ← Size;
  (if new_size <? sz then
     destroy_n (padd (RawMemory_GetAddress Here) new_size) (sz - new_size)
   else
     cap ← Capacity;
     if new_size <? cap then
       uninitialized_value_construct_n (padd (RawMemory_GetAddress Here) sz) (new_size - sz)
     else
       Reserve new_size;;
       uninitialized_value_construct_n (padd (RawMemory_GetAddress Here) sz) (new_size - sz));;
  set_size Self new_size.

(** [PushBack(T&& value)] *)
Definition PushBack_move (value : T) : M T unit :=
  cap ← Capacity;
  sz ← Size;
  (if cap =? sz then
     with_new_data (if sz =? 0 then 1 else sz * 2) (
       p ← RawMemory_plus New sz;
       T_move_construct_from value p;;
       (if is_nothrow_move_constructible || negb is_copy_constructible
        then uninitialized_move_n (RawMemory_GetAddress Here) sz (RawMemory_GetAddress New)
        else uninitialized_copy_n (RawMemory_GetAddress Here) sz (RawMemory_GetAddress New));;
       destroy_n (RawMemory_GetAddress Here) sz;;
       RawMemory_move_assign Here New)
   else
     p ← RawMemory_plus Here sz;
     T_move_construct_from value p);;
  set_size Self (sz + 1).

(** [PushBack(const T& value)] *)
Definition PushBack (value : T) : M T unit :=
  cap ← Capacity;
  sz ← Size;
  (if cap =? sz then
     with_new_data (if sz =? 0 then 1 else sz * 2) (
       p ← RawMemory_plus New sz;
       T_copy_construct_from value p;;
       (if is_nothrow_move_constructible || negb is_copy_constructible
        then uninitialized_move_n (RawMemory_GetAddress Here) sz (RawMemory_GetAddress New)
        else uninitialized_copy_n (RawMemory_GetAddress Here) sz (RawMemory_GetAddress New));;
       destroy_n (RawMemory_GetAddress Here) sz;;
       RawMemory_move_assign Here New)
   else
     p ← RawMemory_plus Here sz;
     T_copy_construct_from value p);;
  set_size Self (sz + 1).

(** [EmplaceBack(Args&&... args)], where [T(args...)] has the value [x];
    the result is the element referred to. *)
Definition EmplaceBack (x : T) : M T ptr :=
  cap ← Capacity;
  sz ← Size;
  (if cap =? sz then
     with_new_data (if sz =? 0 then 1 else sz * 2) (
       p ← RawMemory_plus New sz;
       T_construct_from_args x p;;
       (if is_nothrow_move_constructible || negb is_copy_constructible
        then uninitialized_move_n (RawMemory_GetAddress Here) sz (RawMemory_GetAddress New)
        else uninitialized_copy_n (RawMemory_GetAddress Here) sz (RawMemory_GetAddress New));;
       destroy_n (RawMemory_GetAddress Here) sz;;
       RawMemory_move_assign Here New)
   else
     p ← RawMemory_plus Here sz;
     T_construct_from_args x p);;
  set_size Self (sz + 1);;
  sz' ← Size;
  RawMemory_at Here (size_t_minus sz' 1).

(** [PopBack()] *)
Definition PopBack : M T unit :=
  sz ← Size;
  if sz =? 0 then ret tt
  else
    p ← RawMemory_at Here (size_t_minus sz 1);
    destroy_at p;;
    set_size Self (sz - 1).

(** [Emplace(const_iterator pos, Args&&... args)], where [T(args...)] has
    the value [x]. *)
Definition Emplace (pos : nat) (x : T) : M T ptr :=
  sz ← Size;
  assert (pos <=? sz);;
  let index := pos in
  cap ← Capacity;
  (if cap =? sz then
     with_new_data (if sz =? 0 then 1 else sz * 2) (
       p ← RawMemory_plus New index;
       T_construct_from_args x p;;
       MoveOrCopyToMemory begin index (RawMemory_GetAddress New);;
       MoveOrCopyToMemory (padd begin index) (sz - index)
                          (padd (padd (RawMemory_GetAddress New) index) 1);;
       destroy_n (RawMemory_GetAddress Here) sz;;
       RawMemory_move_assign Here New)
   else if pos =? sz then
     p ← RawMemory_plus Here sz;
     T_construct_from_args x p
   else
     with_new_item (tick;; emit (EvConstruct Local)) (
       p ← RawMemory_plus Here sz;
       last ← RawMemory_at Here (size_t_minus sz 1);
       T_move_construct last p;;
       e ← end_;
       e1 ← pminus e 1;
       move_backward (padd begin index) e1 e;;
       q ← RawMemory_at Here (Some index);
       T_move_assign_from x q));;
  set_size Self (sz + 1);;
  ret (padd begin index).

(** [Erase(const_iterator pos)] *)
Definition Erase (pos : nat) : M T ptr :=
  let index := pos in
  e ← end_;
  std_move (padd (padd begin index) 1) e (padd begin index);;
  PopBack;;
  ret (padd begin index).

(** [Insert(const_iterator pos, const T& value)] *)
Definition Insert (pos : nat) (value : T) : M T ptr :=
  sz ← Size;
  assert (pos <=? sz);;
  let index := pos in
  cap ← Capacity;
  (if cap =? sz then
     with_new_data (if sz =? 0 then 1 else sz * 2) (
       p ← RawMemory_plus New index;
       T_copy_construct_from value p;;
       MoveOrCopyToMemory begin index (RawMemory_GetAddress New);;
       MoveOrCopyToMemory (padd begin index) (sz - index)
                          (padd (padd (RawMemory_GetAddress New) index) 1);;
       destroy_n (RawMemory_GetAddress Here) sz;;
       RawMemory_move_assign Here New)
   else
     with_new_item (tick;; emit (EvCopyConstruct Local Local)) (
       p ← RawMemory_plus Here sz;
       last ← RawMemory_at Here (size_t_minus sz 1);
       T_move_construct last p;;
       e ← end_;
       e1 ← pminus e 1;
       move_backward (padd begin index) e1 e;;
       q ← RawMemory_at Here (Some index);
       T_move_assign_from value q));;
  set_size Self (sz + 1);;
  ret (padd begin index).

(** [Insert(const_iterator pos, T&& value)] *)
Definition Insert_move (pos : nat) (value : T) : M T ptr :=
  sz ← Size;
  assert (pos <=? sz);;
  let index := pos in
  cap ← Capacity;
  (if cap =? sz then
     with_new_data (if sz =? 0 then 1 else sz * 2) (
       p ← RawMemory_plus New index;
       T_move_construct_from value p;;
       MoveOrCopyToMemory begin index (RawMemory_GetAddress New);;
       MoveOrCopyToMemory (padd begin index) (sz - index)
                          (padd (padd (RawMemory_GetAddress New) index) 1);;
       destroy_n (RawMemory_GetAddress Here) sz;;
       RawMemory_move_assign Here New)
   else
     with_new_item (tick_unless is_nothrow_move_constructible;;
                    emit (EvMoveConstruct Local Local)) (
       p ← RawMemory_plus Here sz;
       last ← RawMemory_at Here (size_t_minus sz 1);
       T_move_construct last p;;
       e ← end_;
       e1 ← pminus e 1;
       move_backward (padd begin index) e1 e;;
       q ← RawMemory_at Here (Some index);
       T_move_assign_from value q));;
  set_size Self (sz + 1);;
  ret (padd begin index).

End Model.

(** ** Requests that do not fit [size_t] *)

(** [Allocate(n)] hands [operator new] the product [n * sizeof(T)], which
    the source computes in [size_t] without a check: above
    [SIZE_MAX / sizeof(T)] the product wraps around and the block obtained
    holds fewer than [n] objects, while [capacity_] is still set to [n].
    The members that receive their count from the caller -- [Vector(size_t)],
    [Reserve] and [Resize] -- are therefore given a second time, with the
    request as the source computes it for a [T] of [sizeof] bytes.  The
    definitions of the previous section are these ones for the requests
    that fit ([Reserve_wrapping_fits] and its neighbours); every other
    member requests a capacity derived from the size of a block that
    already exists. *)

(** The largest [size_t] of a 64-bit target. *)
Definition SIZE_MAX : N := 18446744073709551615.

Section Wrapping.
Context {T : Type} {E : Element T}.
Variable sizeof : positive.

(** The value of [n * sizeof(T)] in [size_t]. *)
Definition requested_bytes (n : nat) : N :=
  ((N.of_nat n * Npos sizeof) mod (SIZE_MAX + 1))%N.

(** The number of objects of type [T] that the block requested for [n] of
    them can hold. *)
Definition granted (n : nat) : nat :=
  N.to_nat (requested_bytes n / Npos sizeof)%N.

(** [n * sizeof(T)] does not exceed [SIZE_MAX]. *)
Definition fits (n : nat) : Prop := (N.of_nat n * Npos sizeof <= SIZE_MAX)%N.

(** [Allocate(n)]: [operator new(n * sizeof(T))].  A block of fewer than
    [sizeof(T)] bytes has no slot; the model does not tell it from a null
    [buffer_], so its release is not logged.  No statement below concerns
    such a block. *)
Definition Allocate_wrapping (n : nat) : M T (list (slot T)) :=
  if n =? 0 then ret []
  else tick;; emit (EvAllocate n);; ret (replicate (granted n) Raw).

(** [RawMemory(size_t capacity)] *)
Definition RawMemory_ctor_wrapping (b : block) (capacity : nat) : M T unit :=
  buf ← Allocate_wrapping capacity;
  modify (set_raw b (mkRawMemory buf capacity)).

(** [RawMemory<T> new_data(capacity);] and the rest of its block. *)
Definition with_new_data_wrapping {R} (capacity : nat) (body : M T R) : M T R :=
  RawMemory_ctor_wrapping New capacity;;
  scope body (RawMemory_dtor New).

(** [Vector(size_t size)] *)
Definition Vector_sized_wrapping (size : nat) : M T unit :=
  RawMemory_ctor_wrapping Here size;;
  set_size Self size;;
  on_raise (uninitialized_value_construct_n (RawMemory_GetAddress Here) size)
           (RawMemory_dtor Here).

(** [Reserve(size_t new_capacity)] *)
Definition Reserve_wrapping (new_capacity : nat) : M T unit :=
  cap ← RawMemory_Capacity Here;
  if new_capacity <=? cap then ret tt
  else
    with_new_data_wrapping new_capacity (
      sz ← Size;
      (if is_nothrow_move_constructible || negb is_copy_constructible
       then uninitialized_move_n (RawMemory_GetAddress Here) sz (RawMemory_GetAddress New)
       else uninitialized_copy_n (RawMemory_GetAddress Here) sz (RawMemory_GetAddress New));;
      destroy_n (RawMemory_GetAddress Here) sz;;
      RawMemory_move_assign Here New).

(** [Resize(size_t new_size)] *)
Definition Resize_wrapping (new_size : nat) : M T unit :=
  sz ← Size;
  (if new_size <? sz then
     destroy_n (padd (RawMemory_GetAddress Here) new_size) (sz - new_size)
   else
     cap ← Capacity;
     if new_size <? cap then
       uninitialized_value_construct_n (padd (RawMemory_GetAddress Here) sz) (new_size - sz)
     else
       Reserve_wrapping new_size;;
       uninitialized_value_construct_n (padd (RawMemory_GetAddress Here) sz) (new_size - sz));;
  set_size Self new_size.

End Wrapping.

(** ** Observations *)

Section Observations.
Context {T : Type}.

Definition empty_raw : RawMemory T := mkRawMemory [] 0.

Definition empty_vector : Vector T := mkVector empty_raw 0.

(** The state a unary member function of [v] is called in: no exception
    scheduled when [c] is [None], an empty log. *)
Definition call (v : Vector T) (c : option nat) : state T :=
  mkState v empty_vector empty_raw c [].

(** The state a binary member function of [v] is called in, [w] being the
    vector a reference to another object stands for. *)
Definition call2 (v w : Vector T) (c : option nat) : state T :=
  mkState v w empty_raw c [].

Definition value_of (c : slot T) : option T :=
  match c with Live x => Some x | Raw => None end.

Definition is_live (c : slot T) : bool :=
  match c with Live _ => true | Raw => false end.

Definition is_raw (c : slot T) : bool := negb (is_live c).

(** The values of the elements at the logical positions [[0, size)]. *)
Definition elements (v : Vector T) : list T :=
  omap value_of (take (size_ v) (buffer_ (data_ v))).

(** The vector of elements [xs] in a block of [cap] slots. *)
Definition vector_of (xs : list T) (cap : nat) : Vector T :=
  mkVector (mkRawMemory (map Live xs ++ replicate (cap - length xs) Raw) cap)
           (length xs).

(** The invariant of the data model: [size_] is at most the capacity, the
    block has [capacity_] slots, those at [[0, size_)] hold live objects
    and those at [[size_, capacity_)] are raw. *)
Definition invariant (v : Vector T) : Prop :=
  length (buffer_ (data_ v)) = capacity_ (data_ v) /\
  size_ v <= capacity_ (data_ v) /\
  (forall i, i < size_ v -> exists x, buffer_ (data_ v) !! i = Some (Live x)) /\
  (forall i, size_ v <= i < capacity_ (data_ v) -> buffer_ (data_ v) !! i = Some Raw).

Definition invariantb (v : Vector T) : bool :=
  (length (buffer_ (data_ v)) =? capacity_ (data_ v)) &&
  (size_ v <=? capacity_ (data_ v)) &&
  forallb is_live (take (size_ v) (buffer_ (data_ v))) &&
  forallb is_raw (drop (size_ v) (buffer_ (data_ v))).

End Observations.

(** An exception leaves. *)
Definition raises {T R} (o : outcome (state T) R) : Prop :=
  exists s', o = Raise s'.


(** What the claim asks of an insertion of [x] at [pos] in [v] that returned
    [p] in the state [s']. *)
Definition inserted {T} (v : Vector T) (pos : nat) (x : T) (p : ptr) (s' : state T) : Prop :=
  p = (Here, pos) /\
  size_ (this s') = size_ v + 1 /\
  elements (this s') = take pos (elements v) ++ x :: drop pos (elements v) /\
  elements (this s') !! pos = Some x /\
  (forall i, i < pos -> elements (this s') !! i = elements v !! i) /\
  (forall i, pos <= i -> elements (this s') !! S i = elements v !! i) /\
  invariant (this s').

(** ** Schedules and logs of the loops *)

(** What is left of the schedule [c] after [n] operations that may throw
    have passed, or [None] when one of them throws. *)
Definition spend (n : nat) (c : option nat) : option (option nat) :=
  match c with
  | None => Some None
  | Some k => if n <=? k then Some (Some (k - n)) else None
  end.

(** The schedule under which exactly [k] operations pass when more than
    [k] are attempted. *)
Definition passed (c : option nat) : nat := default 0 c.

Fixpoint copy_events (src dst : ptr) (n : nat) : list event :=
  match n with
  | 0 => []
  | S n' => EvCopyConstruct (At src) (At dst) :: copy_events (padd src 1) (padd dst 1) n'
  end.

Fixpoint move_events (src dst : ptr) (n : nat) : list event :=
  match n with
  | 0 => []
  | S n' => EvMoveConstruct (At src) (At dst) :: move_events (padd src 1) (padd dst 1) n'
  end.

Fixpoint value_events (dst : ptr) (n : nat) : list event :=
  match n with
  | 0 => []
  | S n' => EvConstruct (At dst) :: value_events (padd dst 1) n'
  end.

Fixpoint destroy_events (first : ptr) (n : nat) : list event :=
  match n with
  | 0 => []
  | S n' => EvDestroy (At first) :: destroy_events (padd first 1) n'
  end.

(** The destructor calls that roll back [k] constructions from [dst] on:
    those of the handler of the [uninitialized_] algorithms, from [dst]
    upwards. *)
Definition unwind_events (dst : ptr) (k : nat) : list event := destroy_events dst k.

Fixpoint copy_assign_events (src dst : ptr) (n : nat) : list event :=
  match n with
  | 0 => []
  | S n' => EvCopyAssign (At src) (At dst) :: copy_assign_events (padd src 1) (padd dst 1) n'
  end.

Fixpoint move_assign_events (src dst : ptr) (n : nat) : list event :=
  match n with
  | 0 => []
  | S n' => EvMoveAssign (At src) (At dst) :: move_assign_events (padd src 1) (padd dst 1) n'
  end.

(** The step before [p]. *)
Definition pback (p : ptr) : ptr := (p.1, p.2 - 1).

Fixpoint move_backward_events (last d_last : ptr) (n : nat) : list event :=
  match n with
  | 0 => []
  | S n' => EvMoveAssign (At (pback last)) (At (pback d_last))
              :: move_backward_events (pback last) (pback d_last) n'
  end.

Section Husks.
Context {T : Type} `{!Element T}.

(** The number of operations that may throw among [n] move constructions
    and among [n] move assignments. *)
Definition move_ticks (n : nat) : nat :=
  if is_nothrow_move_constructible then 0 else n.

Definition assign_ticks (n : nat) : nat :=
  if is_nothrow_move_assignable then 0 else n.

(** The values left in the source after [k] of the elements [ys] have been
    moved from. *)
Definition moved_prefix (k : nat) (ys : list T) : list T :=
  map husk (take k ys) ++ drop k ys.

(** What the slot after [ys] holds once each element of [ys] has been
    move-assigned one slot to the left, the first of them to a slot that
    held [a]: the husk of the last element. *)
Fixpoint last_husk (a : T) (ys : list T) : T :=
  match ys with
  | [] => a
  | y :: ys' => last_husk (husk y) ys'
  end.

(** What the slot before [ys] holds once each element of [ys] has been
    move-assigned one slot to the right, the last of them to a slot that
    held [a]: the husk of the first element. *)
Definition first_husk (a : T) (ys : list T) : T :=
  match ys with
  | [] => a
  | y :: _ => husk y
  end.

(** The condition of the source's [if constexpr]: existing elements are
    moved, not copied, into new storage. *)
Definition relocates_by_move : bool :=
  is_nothrow_move_constructible || negb is_copy_constructible.

(** The operations that may throw among the relocation of [n] elements. *)
Definition relocation_ticks (n : nat) : nat :=
  if relocates_by_move then move_ticks n else n.

(** The constructor calls that relocate [n] elements from [src] to [dst]. *)
Definition relocation_events (src dst : ptr) (n : nat) : list event :=
  if relocates_by_move then move_events src dst n else copy_events src dst n.

(** The values left in the old storage by the relocation of [xs]. *)
Definition relocated (xs : list T) : list T :=
  if relocates_by_move then map husk xs else xs.

(** The values left in the old storage when the relocation of [xs] is
    abandoned after [k] elements. *)
Definition abandoned (k : nat) (xs : list T) : list T :=
  if relocates_by_move then moved_prefix k xs else xs.

End Husks.

(** The events of [log] that relocate an element of [*this] into the local
    [new_data], each with the constructor used. *)
Definition is_relocation (e : event) : bool :=
  match e with
  | EvCopyConstruct (At (Here, _)) (At (New, _)) => true
  | EvMoveConstruct (At (Here, _)) (At (New, _)) => true
  | _ => false
  end.

Definition relocations (l : list event) : list event :=
  List.filter is_relocation l.

(** The constructor call of the new element is not a relocation. *)
Definition fresh_event (ev : place -> event) : Prop :=
  forall p, is_relocation (ev (At (New, p))) = false.

(** A member function called on a state of log [lg], as a function of the
    schedule, relocates as [expected]: whenever it returns, the relocations
    it has logged are [expected]; and it returns when no exception is
    scheduled. *)
Definition relocates_as {T R} (lg expected : list event)
    (run : option nat -> outcome (state T) R) : Prop :=
  (forall c r s', run c = Ret r s' -> relocations (log s') = relocations lg ++ expected) /\
  (exists r s', run None = Ret r s').

(** [run] relocates the old elements into the new block as [expected]
    says: whenever it returns, the relocations it has logged after [lg] are
    [expected] and [*this] is [result], the vector that holds the new
    block; and it returns when no exception is scheduled. *)
Definition relocates_into {T R} (lg expected : list event) (result : Vector T)
    (run : option nat -> outcome (state T) R) : Prop :=
  (forall c r s', run c = Ret r s' ->
     relocations (log s') = relocations lg ++ expected /\ this s' = result) /\
  (exists r s', run None = Ret r s').

(** ** Element types used in the examples *)

(** [int]: moving leaves the value in place, nothing throws by type. *)
Definition int_element : Element nat :=
  {| husk := fun x => x;
     value_init := 0;
     is_nothrow_move_constructible := true;
     is_copy_constructible := true;
     is_nothrow_move_assignable := true |}.

(** A class with a witness of having been moved from. *)
Inductive tracked : Set :=
| Val (n : nat)
| MovedFrom.

(** Copy-constructible, and both move operations may throw. *)
Definition throwing_element : Element tracked :=
  {| husk := fun _ => MovedFrom;
     value_init := Val 0;
     is_nothrow_move_constructible := false;
     is_copy_constructible := true;
     is_nothrow_move_assignable := false |}.

(** Move-only, and the move constructor may throw. *)
Definition move_only_element : Element tracked :=
  {| husk := fun _ => MovedFrom;
     value_init := Val 0;
     is_nothrow_move_constructible := false;
     is_copy_constructible := false;
     is_nothrow_move_assignable := false |}.

(** Copy-constructible with non-throwing moves, like [std::string]. *)
Definition string_like_element : Element tracked :=
  {| husk := fun _ => MovedFrom;
     value_init := Val 0;
     is_nothrow_move_constructible := true;
     is_copy_constructible := true;
     is_nothrow_move_assignable := true |}.

(** The vector a sequence of member function calls leaves behind, each
    called with no exception scheduled; [None] when one goes wrong. *)
Fixpoint run_all {T} (ops : list (M T unit)) (v : Vector T) : option (Vector T) :=
  match ops with
  | [] => Some v
  | op :: rest =>
      match op (call v None) with
      | Ret _ s => run_all rest (this s)
      | _ => None
      end
  end.

(** The capacities seen before the first call and after each one. *)
Fixpoint capacities {T} (ops : list (M T unit)) (v : Vector T) : list nat :=
  capacity_ (data_ v) ::
  match ops with
  | [] => []
  | op :: rest =>
      match op (call v None) with
      | Ret _ s => capacities rest (this s)
      | _ => []
      end
  end.

(** ** Shared bodies of the duplicated member functions *)

Section SharedBodies.
Context {T : Type} `{!Element T}.

(** The capacity requested by a growing push or insertion:
    [size_ == 0 ? 1 : size_ * 2]. *)
Definition grown (size : nat) : nat := if size =? 0 then 1 else size * 2.

(** The body of [PushBack(T&&)], [PushBack(const T&)] and, up to its
    [return], [EmplaceBack], with the constructor call left open. *)
Definition push_back_with (construct : ptr -> M T unit) : M T unit :=
  cap ← Capacity;
  sz ← Size;
  (if cap =? sz then
     with_new_data (if sz =? 0 then 1 else sz * 2) (
       p ← RawMemory_plus New sz;
       construct p;;
       (if is_nothrow_move_constructible || negb is_copy_constructible
        then uninitialized_move_n (RawMemory_GetAddress Here) sz (RawMemory_GetAddress New)
        else uninitialized_copy_n (RawMemory_GetAddress Here) sz (RawMemory_GetAddress New));;
       destroy_n (RawMemory_GetAddress Here) sz;;
       RawMemory_move_assign Here New)
   else
     p ← RawMemory_plus Here sz;
     construct p);;
  set_size Self (sz + 1).

(** The [if (Capacity() == size_)] branch of [Emplace] and of both
    [Insert]s, [sz] being the value read from [size_]. *)
Definition insert_growing (sz index : nat) (construct : ptr -> M T unit) : M T unit :=
  with_new_data (if sz =? 0 then 1 else sz * 2) (
    p ← RawMemory_plus New index;
    construct p;;
    MoveOrCopyToMemory begin index (RawMemory_GetAddress New);;
    MoveOrCopyToMemory (padd begin index) (sz - index)
                       (padd (padd (RawMemory_GetAddress New) index) 1);;
    destroy_n (RawMemory_GetAddress Here) sz;;
    RawMemory_move_assign Here New).

(** The statements of [Emplace] and of both [Insert]s that insert in place:
    the local [new_item], of value [x], is built by [init]. *)
Definition insert_in_place (sz index : nat) (init : M T unit) (x : T) : M T unit :=
  with_new_item init (
    p ← RawMemory_plus Here sz;
    last ← RawMemory_at Here (size_t_minus sz 1);
    T_move_construct last p;;
    e ← end_;
    e1 ← pminus e 1;
    move_backward (padd begin index) e1 e;;
    q ← RawMemory_at Here (Some index);
    T_move_assign_from x q).

(** The frame shared by [Emplace] and both [Insert]s around their
    branches: [in_place] is the [else] branch, given the value of [size_]. *)
Definition insert_with (pos : nat) (construct : ptr -> M T unit)
    (in_place : nat -> M T unit) : M T ptr :=
  sz ← Size;
  assert (pos <=? sz);;
  let index := pos in
  cap ← Capacity;
  (if cap =? sz then insert_growing sz index construct else in_place sz);;
  set_size Self (sz + 1);;
  ret (padd begin index).

(** The block of [xs1], then [x], then [xs2], in [g] slots, with [size_]
    not yet incremented. *)
Definition inserted_raw (xs1 : list T) (x : T) (xs2 : list T) (g : nat) : RawMemory T :=
  mkRawMemory (map Live (xs1 ++ x :: xs2)
                 ++ replicate (g - length (xs1 ++ xs2) - 1) Raw) g.

(** What a constructor call does at a raw slot: it builds an object of
    value [x], logs [ev] and consults the schedule [t] times. *)
Definition constructs (construct : ptr -> M T unit) (x : T) (t : nat)
    (ev : place -> event) : Prop :=
  forall b pre post (s : state T),
    cells b s = pre ++ Raw :: post ->
    construct (b, length pre) s =
    match spend t (countdown s) with
    | Some c' =>
        Ret tt (set_log (log s ++ [ev (At (b, length pre))])
               (set_countdown c' (set_cells b (pre ++ Live x :: post) s)))
    | None => Raise (set_countdown None s)
    end.

(** What the declaration of [new_item] does: it logs [ev] and consults the
    schedule [t] times. *)
Definition initializes (init : M T unit) (t : nat) (ev : event) : Prop :=
  forall s : state T,
    init s =
    match spend t (countdown s) with
    | Some c' => Ret tt (set_log (log s ++ [ev]) (set_countdown c' s))
    | None => Raise (set_countdown None s)
    end.

End SharedBodies.

Section Resized.
Context {T : Type} `{!Element T}.

(** The elements after [Resize(n)]: the first [n] old ones, then
    value-initialised ones up to [n]. *)
Definition resized (n : nat) (xs : list T) : list T :=
  take n xs ++ replicate (n - length xs) value_init.

End Resized.

(** ** Blocks obtained and released *)

(** The sizes of the blocks obtained from [operator new] and of the blocks
    handed to [operator delete], in the order of the log. *)
Definition allocations (lg : list event) : list nat :=
  omap (fun e => match e with EvAllocate n => Some n | _ => None end) lg.

Definition deallocations (lg : list event) : list nat :=
  omap (fun e => match e with EvDeallocate n => Some n | _ => None end) lg.


(** An outcome after which, when the member function has returned, both
    vectors satisfy the invariant. *)
Definition returns_with_invariant {T R} (o : outcome (state T) R) : Prop :=
  match o with
  | Ret _ s' => invariant (this s') /\ invariant (other s')
  | _ => True
  end.

(** An outcome after which, when the member function has returned, [*this]
    satisfies the invariant with a capacity of at least [cap], and the other
    vector is [o]. *)
Definition returns_in_shape {T R} (cap : nat) (o : Vector T)
    (out : outcome (state T) R) : Prop :=
  match out with
  | Ret _ s' =>
      invariant (this s') /\ cap <= capacity_ (data_ (this s')) /\ other s' = o
  | _ => True
  end.

(** * Properties *)

(** ** The monad and the state *)

Section MonadFacts.
Context {T : Type}.

Lemma bind_unfold {A B} (m : M T A) (k : A -> M T B) (s : state T) :
  (m ≫= k) s =
  match m s with
  | Ret a s' => k a s'
  | Raise s' => Raise s'
  | Undefined f => Undefined f
  end.
Proof. reflexivity. Qed.

Lemma ret_bind {A B} (a : A) (k : A -> M T B) (s : state T) :
  (ret a ≫= k) s = k a s.
Proof. reflexivity. Qed.

Lemma bind_Ret {A B} (m : M T A) (k : A -> M T B) (s s' : state T) a :
  m s = Ret a s' -> (m ≫= k) s = k a s'.
Proof. intros H. rewrite bind_unfold, H. reflexivity. Qed.

Lemma bind_Raise {A B} (m : M T A) (k : A -> M T B) (s s' : state T) :
  m s = Raise s' -> (m ≫= k) s = Raise s'.
Proof. intros H. rewrite bind_unfold, H. reflexivity. Qed.

Lemma bind_Undefined {A B} (m : M T A) (k : A -> M T B) (s : state T) f :
  m s = Undefined f -> (m ≫= k) s = Undefined f.
Proof. intros H. rewrite bind_unfold, H. reflexivity. Qed.

Lemma on_raise_Ret {R} (m : M T R) h (s s' : state T) r :
  m s = Ret r s' -> on_raise m h s = Ret r s'.
Proof. unfold on_raise. intros ->. reflexivity. Qed.

Lemma on_raise_Raise {R} (m : M T R) h (s s' s'' : state T) :
  m s = Raise s' -> h s' = Ret tt s'' -> on_raise m h s = Raise s''.
Proof. unfold on_raise. intros -> ->. reflexivity. Qed.

Lemma scope_Ret {R} (m : M T R) exit (s s' s'' : state T) r :
  m s = Ret r s' -> exit s' = Ret tt s'' -> scope m exit s = Ret r s''.
Proof.
  intros Hm He. unfold scope.
  rewrite (bind_Ret _ _ _ _ _ (on_raise_Ret _ _ _ _ _ Hm)).
  rewrite (bind_Ret _ _ _ _ _ He). reflexivity.
Qed.

Lemma scope_Raise {R} (m : M T R) exit (s s' s'' : state T) :
  m s = Raise s' -> exit s' = Ret tt s'' -> scope m exit s = Raise s''.
Proof.
  intros Hm He. unfold scope.
  apply bind_Raise. eapply on_raise_Raise; eassumption.
Qed.

Lemma spend_0 c : spend 0 c = Some c.
Proof. destruct c as [k|]; simpl; [|reflexivity]. f_equal. f_equal. lia. Qed.

Lemma spend_None n : spend n None = Some None.
Proof. reflexivity. Qed.

Lemma spend_S n c :
  spend (S n) c = match spend 1 c with Some c' => spend n c' | None => None end.
Proof.
  destruct c as [k|]; simpl; [|reflexivity].
  destruct k as [|k]; simpl; [reflexivity|].
  rewrite Nat.sub_0_r. destruct (n <=? k); reflexivity.
Qed.

Lemma spend_add n m c :
  spend (n + m) c = match spend n c with Some c' => spend m c' | None => None end.
Proof.
  destruct c as [k|]; simpl; [|reflexivity].
  destruct (Nat.leb_spec n k), (Nat.leb_spec (n + m) k); simpl;
    try (exfalso; lia); try reflexivity.
  - destruct (Nat.leb_spec m (k - n)); try (exfalso; lia). f_equal. f_equal. lia.
  - destruct (Nat.leb_spec m (k - n)); try (exfalso; lia). reflexivity.
Qed.

Lemma spend_1_None c : spend 1 c = None -> passed c = 0.
Proof.
  destruct c as [[|k]|]; simpl; try discriminate. reflexivity.
Qed.

Lemma spend_1_Some_None c c1 n :
  spend 1 c = Some c1 -> spend n c1 = None -> passed c = S (passed c1).
Proof.
  destruct c as [[|k]|]; simpl; try discriminate.
  - intros [= <-]. simpl. rewrite Nat.sub_0_r. reflexivity.
  - intros [= <-]. discriminate.
Qed.

Lemma spend_0_Some_None c c1 n :
  spend 0 c = Some c1 -> spend n c1 = None -> passed c = passed c1.
Proof. rewrite spend_0. intros [= <-]. reflexivity. Qed.

Lemma tick_spec (s : state T) :
  tick s = match spend 1 (countdown s) with
           | Some c' => Ret tt (set_countdown c' s)
           | None => Raise (set_countdown None s)
           end.
Proof.
  unfold tick. destruct s as [v o d [[|k]|] lg]; simpl; try reflexivity.
  rewrite Nat.sub_0_r. reflexivity.
Qed.

Lemma tick_unless_spec (b : bool) (s : state T) :
  tick_unless b s = match spend (if b then 0 else 1) (countdown s) with
                    | Some c' => Ret tt (set_countdown c' s)
                    | None => Raise (set_countdown None s)
                    end.
Proof.
  destruct b; simpl; [|apply tick_spec].
  rewrite spend_0. destruct s; reflexivity.
Qed.

End MonadFacts.

(** ** State algebra *)

Section StateFacts.
Context {T : Type}.
Implicit Types (s : state T) (b : block) (l : list (slot T)).

Lemma cells_set_cells b l s : cells b (set_cells b l s) = l.
Proof. destruct b; reflexivity. Qed.

Lemma cells_set_cells_ne b b' l s : b <> b' -> cells b (set_cells b' l s) = cells b s.
Proof. destruct b, b'; intros H; try reflexivity; contradiction. Qed.

Lemma cells_set_log b lg s : cells b (set_log lg s) = cells b s.
Proof. destruct b; reflexivity. Qed.

Lemma cells_set_countdown b c s : cells b (set_countdown c s) = cells b s.
Proof. destruct b; reflexivity. Qed.

Lemma log_set_cells b l s : log (set_cells b l s) = log s.
Proof. destruct b; reflexivity. Qed.

Lemma countdown_set_cells b l s : countdown (set_cells b l s) = countdown s.
Proof. destruct b; reflexivity. Qed.

Lemma set_cells_id b l s : cells b s = l -> set_cells b l s = s.
Proof.
  intros <-. destruct s as [[[? ?] ?] [[? ?] ?] [? ?] ? ?]; destruct b; reflexivity.
Qed.

Lemma set_cells_set_cells b l l' s : set_cells b l (set_cells b l' s) = set_cells b l s.
Proof. destruct b; reflexivity. Qed.

Lemma set_cells_set_log b l lg s :
  set_cells b l (set_log lg s) = set_log lg (set_cells b l s).
Proof. destruct b; reflexivity. Qed.

Lemma set_cells_set_countdown b l c s :
  set_cells b l (set_countdown c s) = set_countdown c (set_cells b l s).
Proof. destruct b; reflexivity. Qed.

Lemma set_countdown_set_log c lg s :
  set_countdown c (set_log lg s) = set_log lg (set_countdown c s).
Proof. reflexivity. Qed.

Lemma set_log_set_log lg lg' s : set_log lg (set_log lg' s) = set_log lg s.
Proof. reflexivity. Qed.

Lemma set_countdown_set_countdown c c' s :
  set_countdown c (set_countdown c' s) = set_countdown c s.
Proof. reflexivity. Qed.

Lemma log_set_log lg s : log (set_log lg s) = lg.
Proof. reflexivity. Qed.

Lemma log_set_countdown c s : log (set_countdown c s) = log s.
Proof. reflexivity. Qed.

Lemma countdown_set_log lg s : countdown (set_log lg s) = countdown s.
Proof. reflexivity. Qed.

Lemma countdown_set_countdown c s : countdown (set_countdown c s) = c.
Proof. reflexivity. Qed.

Lemma set_log_id s : set_log (log s) s = s.
Proof. destruct s; reflexivity. Qed.

Lemma set_log_countdown_id c s : set_log (log s) (set_countdown c s) = set_countdown c s.
Proof. destruct s; reflexivity. Qed.

Lemma set_countdown_id s : set_countdown (countdown s) s = s.
Proof. destruct s; reflexivity. Qed.

Lemma set_cells_ne_comm b b' l l' s :
  b <> b' -> set_cells b l (set_cells b' l' s) = set_cells b' l' (set_cells b l s).
Proof. destruct b, b'; intros H; try reflexivity; contradiction. Qed.

(** *** Slots *)

Lemma peek_spec b i x s :
  cells b s !! i = Some (Live x) -> peek (b, i) s = Ret x s.
Proof. unfold peek. simpl. intros ->. reflexivity. Qed.

Lemma poke_spec b i x y s :
  cells b s !! i = Some (Live y) ->
  poke (b, i) x s = Ret tt (set_cells b (<[i := Live x]> (cells b s)) s).
Proof. unfold poke. simpl. intros ->. reflexivity. Qed.

Lemma construct_at_spec b i x s :
  cells b s !! i = Some Raw ->
  construct_at (b, i) x s = Ret tt (set_cells b (<[i := Live x]> (cells b s)) s).
Proof. unfold construct_at. simpl. intros ->. reflexivity. Qed.

Lemma destroy_at_spec b i x s :
  cells b s !! i = Some (Live x) ->
  destroy_at (b, i) s =
  Ret tt (set_log (log s ++ [EvDestroy (At (b, i))])
                  (set_cells b (<[i := Raw]> (cells b s)) s)).
Proof.
  unfold destroy_at. simpl. intros H. rewrite bind_unfold, H.
  unfold emit, modify. rewrite log_set_cells. reflexivity.
Qed.

Lemma destroy_at_Raw b i s :
  cells b s !! i = Some Raw -> destroy_at (b, i) s = Undefined Uninitialized.
Proof. unfold destroy_at. simpl. intros H. rewrite bind_unfold, H. reflexivity. Qed.

(** The same, for a block given as the slots before, at and after [i]. *)

Lemma peek_middle b pre x post s :
  cells b s = pre ++ Live x :: post -> peek (b, length pre) s = Ret x s.
Proof. intros H. apply peek_spec. rewrite H. by apply list_lookup_middle. Qed.

Lemma poke_middle b pre x y post s :
  cells b s = pre ++ Live y :: post ->
  poke (b, length pre) x s = Ret tt (set_cells b (pre ++ Live x :: post) s).
Proof.
  intros H. erewrite poke_spec; [|rewrite H; by apply list_lookup_middle].
  rewrite H, insert_app_r_alt, Nat.sub_diag by lia. reflexivity.
Qed.

Lemma construct_at_middle b pre x post s :
  cells b s = pre ++ Raw :: post ->
  construct_at (b, length pre) x s = Ret tt (set_cells b (pre ++ Live x :: post) s).
Proof.
  intros H. rewrite construct_at_spec; [|rewrite H; by apply list_lookup_middle].
  rewrite H, insert_app_r_alt, Nat.sub_diag by lia. reflexivity.
Qed.

Lemma destroy_at_middle b pre x post s :
  cells b s = pre ++ Live x :: post ->
  destroy_at (b, length pre) s =
  Ret tt (set_log (log s ++ [EvDestroy (At (b, length pre))])
                  (set_cells b (pre ++ Raw :: post) s)).
Proof.
  intros H. erewrite destroy_at_spec; [|rewrite H; by apply list_lookup_middle].
  rewrite H, insert_app_r_alt, Nat.sub_diag by lia. reflexivity.
Qed.

End StateFacts.

(** ** Requests that fit [size_t] *)

Section WrappingFacts.
Context {T : Type} `{!Element T}.
Variable sizeof : positive.

Lemma requested_bytes_fits n :
  fits sizeof n -> requested_bytes sizeof n = (N.of_nat n * Npos sizeof)%N.
Proof.
  unfold fits, requested_bytes, SIZE_MAX. intros H.
  apply N.mod_small. lia.
Qed.

Lemma granted_fits n : fits sizeof n -> granted sizeof n = n.
Proof.
  intros H. unfold granted. rewrite requested_bytes_fits by exact H.
  rewrite N.div_mul by discriminate. apply Nat2N.id.
Qed.

Lemma granted_le n : granted sizeof n <= n.
Proof.
  unfold granted, requested_bytes.
  assert (H : ((N.of_nat n * Npos sizeof) mod (SIZE_MAX + 1) / Npos sizeof
               <= N.of_nat n)%N).
  { etransitivity.
    - apply N.Div0.div_le_mono. apply N.Div0.mod_le.
    - rewrite N.div_mul by discriminate. reflexivity. }
  lia.
Qed.

Lemma fits_le n m : m <= n -> fits sizeof n -> fits sizeof m.
Proof. unfold fits. intros Hm Hn. nia. Qed.

Lemma fits_0 : fits sizeof 0.
Proof. unfold fits, SIZE_MAX. lia. Qed.

Lemma Allocate_wrapping_fits n :
  fits sizeof n -> Allocate_wrapping sizeof n = Allocate (T:=T) n.
Proof. intros H. unfold Allocate_wrapping, Allocate. rewrite granted_fits by exact H. reflexivity. Qed.

Lemma RawMemory_ctor_wrapping_fits b n :
  fits sizeof n -> RawMemory_ctor_wrapping sizeof b n = RawMemory_ctor (T:=T) b n.
Proof.
  intros H. unfold RawMemory_ctor_wrapping, RawMemory_ctor.
  rewrite Allocate_wrapping_fits by exact H. reflexivity.
Qed.

Lemma with_new_data_wrapping_fits {R} n (body : M T R) :
  fits sizeof n -> with_new_data_wrapping sizeof n body = with_new_data n body.
Proof.
  intros H. unfold with_new_data_wrapping, with_new_data.
  rewrite RawMemory_ctor_wrapping_fits by exact H. reflexivity.
Qed.

(** For a request that fits, the members are those of the model. *)
Lemma Vector_sized_wrapping_fits n :
  fits sizeof n -> Vector_sized_wrapping sizeof n = Vector_sized (T:=T) n.
Proof.
  intros H. unfold Vector_sized_wrapping, Vector_sized.
  rewrite RawMemory_ctor_wrapping_fits by exact H. reflexivity.
Qed.

Lemma Reserve_wrapping_fits n :
  fits sizeof n -> Reserve_wrapping sizeof n = Reserve (T:=T) n.
Proof.
  intros H. unfold Reserve_wrapping, Reserve.
  rewrite with_new_data_wrapping_fits by exact H. reflexivity.
Qed.

Lemma Resize_wrapping_fits n :
  fits sizeof n -> Resize_wrapping sizeof n = Resize (T:=T) n.
Proof.
  intros H. unfold Resize_wrapping, Resize.
  rewrite Reserve_wrapping_fits by exact H. reflexivity.
Qed.


End WrappingFacts.


(** Normal form of a state expression: [set_log] over [set_countdown] over
    [set_cells]. *)
Ltac norm_state :=
  repeat first
    [ rewrite cells_set_cells | rewrite cells_set_log | rewrite cells_set_countdown
    | rewrite log_set_cells | rewrite log_set_log | rewrite log_set_countdown
    | rewrite countdown_set_cells | rewrite countdown_set_log
    | rewrite countdown_set_countdown
    | rewrite set_cells_set_log | rewrite set_cells_set_countdown
    | rewrite set_countdown_set_log
    | rewrite set_cells_set_cells | rewrite set_log_set_log
    | rewrite set_countdown_set_countdown ].

(** ** The loops *)

Ltac explicit_state :=
  repeat match goal with
         | s : state _ |- _ => destruct s as [[[? ?] ?] [[? ?] ?] [? ?] ? ?]
         end;
  repeat match goal with
         | b : block |- _ => destruct b
         end;
  try contradiction; simpl in *; subst.

Section LoopFacts.
Context {T : Type} `{!Element T}.
Implicit Types (s : state T) (b : block) (l : list (slot T)) (xs ys : list T).

Lemma padd_1_length b (pre : list (slot T)) c :
  padd (b, length pre) 1 = (b, length (pre ++ [c])).
Proof. unfold padd. simpl. rewrite length_app. reflexivity. Qed.

Lemma destroy_n_spec b pre ys post s :
  cells b s = pre ++ map Live ys ++ post ->
  destroy_n (b, length pre) (length ys) s =
  Ret tt (set_log (log s ++ destroy_events (b, length pre) (length ys))
                  (set_cells b (pre ++ replicate (length ys) Raw ++ post) s)).
Proof.
  revert pre s. induction ys as [|y ys IH]; intros pre s H; simpl in *.
  - rewrite app_nil_r, set_cells_id, set_log_id by assumption. reflexivity.
  - erewrite bind_Ret; [|eapply destroy_at_middle; exact H].
    rewrite (padd_1_length b pre Raw).
    rewrite IH.
    2:{ norm_state. rewrite <- app_assoc. reflexivity. }
    f_equal. norm_state. rewrite <- !app_assoc. reflexivity.
Qed.


Lemma T_copy_construct_spec bs bd spre y spost dpre dpost s :
  cells bs s = spre ++ Live y :: spost ->
  cells bd s = dpre ++ Raw :: dpost ->
  T_copy_construct (bs, length spre) (bd, length dpre) s =
  match spend 1 (countdown s) with
  | Some c' =>
      Ret tt (set_log (log s ++ [EvCopyConstruct (At (bs, length spre)) (At (bd, length dpre))])
             (set_countdown c' (set_cells bd (dpre ++ Live y :: dpost) s)))
  | None => Raise (set_countdown None s)
  end.
Proof.
  intros Hs Hd. unfold T_copy_construct.
  erewrite bind_Ret; [|eapply peek_middle; exact Hs].
  rewrite bind_unfold, tick_spec.
  destruct (spend 1 (countdown s)) as [c'|]; [|reflexivity].
  erewrite bind_Ret; [|eapply construct_at_middle; norm_state; exact Hd].
  unfold emit, modify. f_equal. norm_state. reflexivity.
Qed.

Lemma uninitialized_copy_from_spec bs bd spre ys1 ys2 spost dpre dpost s :
  bs <> bd ->
  cells bs s = spre ++ map Live (ys1 ++ ys2) ++ spost ->
  cells bd s = dpre ++ map Live ys1 ++ replicate (length ys2) Raw ++ dpost ->
  uninitialized_copy_from (bs, length spre) (bd, length dpre) (length ys1) (length ys2) s =
  match spend (length ys2) (countdown s) with
  | Some c' =>
      Ret tt (set_log (log s ++ copy_events (bs, length spre + length ys1)
                                            (bd, length dpre + length ys1) (length ys2))
             (set_countdown c' (set_cells bd (dpre ++ map Live (ys1 ++ ys2) ++ dpost) s)))
  | None =>
      Raise (set_log (log s ++ copy_events (bs, length spre + length ys1)
                                           (bd, length dpre + length ys1)
                                           (passed (countdown s))
                            ++ destroy_events (bd, length dpre)
                                              (length ys1 + passed (countdown s)))
             (set_countdown None
                (set_cells bd (dpre ++ replicate (length ys1 + length ys2) Raw ++ dpost) s)))
  end.
Proof.
  intros Hne. revert ys1 s.
  induction ys2 as [|y ys2 IH]; intros ys1 s Hs Hd.
  - cbn [length uninitialized_copy_from replicate app] in *.
    rewrite spend_0. cbn [copy_events]. rewrite !app_nil_r in *.
    change (ret tt s) with (Ret tt s : outcome (state T) unit).
    rewrite set_cells_id, set_countdown_id, set_log_id by assumption. reflexivity.
  - cbn [length uninitialized_copy_from].
    assert (Hs' : cells bs s = (spre ++ map Live ys1) ++ Live y :: map Live ys2 ++ spost).
    { rewrite Hs, map_app, <- !app_assoc. reflexivity. }
    assert (Hd' : cells bd s = (dpre ++ map Live ys1) ++ Raw :: replicate (length ys2) Raw
                                 ++ dpost).
    { rewrite Hd, <- !app_assoc. reflexivity. }
    assert (Hls : length (spre ++ map Live ys1) = length spre + length ys1)
      by (rewrite length_app, length_map; reflexivity).
    assert (Hld : length (dpre ++ map Live ys1) = length dpre + length ys1)
      by (rewrite length_app, length_map; reflexivity).
    assert (Hl1 : length (ys1 ++ [y]) = length ys1 + 1)
      by (rewrite length_app; reflexivity).
    rewrite bind_unfold. unfold on_raise.
    replace (padd (bs, length spre) (length ys1)) with (bs, length (spre ++ map Live ys1))
      by (unfold padd; cbn [fst snd]; rewrite Hls; reflexivity).
    replace (padd (bd, length dpre) (length ys1)) with (bd, length (dpre ++ map Live ys1))
      by (unfold padd; cbn [fst snd]; rewrite Hld; reflexivity).
    rewrite (T_copy_construct_spec _ _ _ _ _ _ _ _ Hs' Hd').
    rewrite (spend_S (length ys2)), Hls, Hld.
    destruct (spend 1 (countdown s)) as [c1|] eqn:H1; cbv beta iota.
    + replace (S (length ys1)) with (length (ys1 ++ [y])) by lia.
      rewrite IH; norm_state.
      2:{ rewrite cells_set_cells_ne by congruence.
          rewrite Hs, <- !app_assoc. reflexivity. }
      2:{ rewrite map_app, <- !app_assoc. reflexivity. }
      rewrite Hl1.
      destruct (spend (length ys2) c1) as [c'|] eqn:H2.
      * f_equal. norm_state. rewrite <- !app_assoc. cbn [copy_events app].
        unfold padd. cbn [fst snd]. rewrite <- !Nat.add_assoc. reflexivity.
      * f_equal. norm_state. rewrite (spend_1_Some_None _ _ _ H1 H2).
        rewrite <- !app_assoc. cbn [copy_events app].
        unfold padd. cbn [fst snd]. rewrite <- !Nat.add_assoc.
        cbn [Nat.add]. reflexivity.
    + pose proof (destroy_n_spec bd dpre ys1 (Raw :: replicate (length ys2) Raw ++ dpost)
                    (set_countdown None s)) as Hrun.
      rewrite Hrun by (norm_state; exact Hd). clear Hrun.
      f_equal. norm_state. rewrite (spend_1_None _ H1). cbn [copy_events app].
      rewrite Nat.add_0_r.
      replace (length ys1 + S (length ys2)) with (length ys1 + 1 + length ys2) by lia.
      rewrite !replicate_add. cbn [replicate]. rewrite <- !app_assoc. reflexivity.
Qed.

Lemma uninitialized_copy_n_spec bs bd spre ys spost dpre dpost s :
  bs <> bd ->
  cells bs s = spre ++ map Live ys ++ spost ->
  cells bd s = dpre ++ replicate (length ys) Raw ++ dpost ->
  uninitialized_copy_n (bs, length spre) (length ys) (bd, length dpre) s =
  match spend (length ys) (countdown s) with
  | Some c' =>
      Ret tt (set_log (log s ++ copy_events (bs, length spre) (bd, length dpre) (length ys))
             (set_countdown c' (set_cells bd (dpre ++ map Live ys ++ dpost) s)))
  | None =>
      Raise (set_log (log s ++ copy_events (bs, length spre) (bd, length dpre)
                                           (passed (countdown s))
                            ++ unwind_events (bd, length dpre) (passed (countdown s)))
             (set_countdown None s))
  end.
Proof.
  intros Hne Hs Hd. unfold uninitialized_copy_n.
  pose proof (uninitialized_copy_from_spec bs bd spre [] ys spost dpre dpost s Hne Hs Hd)
    as Hrun.
  cbn [length app] in Hrun. rewrite !Nat.add_0_r in Hrun. rewrite Hrun. clear Hrun.
  destruct (spend (length ys) (countdown s)); [reflexivity|].
  unfold unwind_events. rewrite (set_cells_id bd) by exact Hd. reflexivity.
Qed.

End LoopFacts.

Section MoveLoopFacts.
Context {T : Type} `{!Element T}.
Implicit Types (s : state T) (b : block) (l : list (slot T)) (xs ys : list T).

Lemma moved_prefix_0 ys : moved_prefix 0 ys = ys.
Proof. unfold moved_prefix. rewrite take_0, drop_0. reflexivity. Qed.

Lemma moved_prefix_S k y ys :
  moved_prefix (S k) (y :: ys) = husk y :: moved_prefix k ys.
Proof. reflexivity. Qed.

Lemma moved_prefix_all ys : moved_prefix (length ys) ys = map husk ys.
Proof.
  unfold moved_prefix. rewrite firstn_all, drop_all, app_nil_r. reflexivity.
Qed.

Lemma set_cells_two_id bs bd (a : list (slot T)) d s :
  bs <> bd -> cells bd s = d ->
  set_cells bd d (set_cells bs a s) = set_cells bs a s.
Proof.
  intros Hne Hd. apply set_cells_id. rewrite cells_set_cells_ne by congruence. exact Hd.
Qed.

Lemma set_cells_shadow bs bd (a a' d d' : list (slot T)) s :
  bs <> bd ->
  set_cells bs a (set_cells bd d (set_cells bs a' (set_cells bd d' s))) =
  set_cells bs a (set_cells bd d s).
Proof.
  intros Hne. rewrite (set_cells_ne_comm bd bs) by congruence.
  rewrite !set_cells_set_cells. reflexivity.
Qed.

Lemma T_move_construct_spec bs bd spre y spost dpre dpost s :
  bs <> bd ->
  cells bs s = spre ++ Live y :: spost ->
  cells bd s = dpre ++ Raw :: dpost ->
  T_move_construct (bs, length spre) (bd, length dpre) s =
  match spend (move_ticks 1) (countdown s) with
  | Some c' =>
      Ret tt (set_log (log s ++ [EvMoveConstruct (At (bs, length spre)) (At (bd, length dpre))])
             (set_countdown c'
                (set_cells bs (spre ++ Live (husk y) :: spost)
                   (set_cells bd (dpre ++ Live y :: dpost) s))))
  | None => Raise (set_countdown None s)
  end.
Proof.
  intros Hne Hs Hd. unfold T_move_construct.
  erewrite bind_Ret; [|eapply peek_middle; exact Hs].
  rewrite bind_unfold, tick_unless_spec. unfold move_ticks.
  destruct (spend _ (countdown s)) as [c'|]; [|reflexivity].
  erewrite bind_Ret; [|eapply construct_at_middle; norm_state; exact Hd].
  erewrite bind_Ret.
  2:{ eapply poke_middle. norm_state. rewrite cells_set_cells_ne by congruence. exact Hs. }
  unfold emit, modify. f_equal. norm_state. reflexivity.
Qed.

Lemma move_ticks_S n :
  move_ticks (S n) = move_ticks 1 + move_ticks n.
Proof. unfold move_ticks. destruct is_nothrow_move_constructible; reflexivity. Qed.

Lemma move_ticks_le n : move_ticks n <= n.
Proof. unfold move_ticks. destruct is_nothrow_move_constructible; lia. Qed.

Lemma passed_move_step c c1 n :
  spend (move_ticks 1) c = Some c1 -> spend (move_ticks n) c1 = None ->
  passed c = S (passed c1).
Proof.
  unfold move_ticks. destruct is_nothrow_move_constructible.
  - rewrite spend_0. intros [= <-]. rewrite spend_0. discriminate.
  - apply spend_1_Some_None.
Qed.

Lemma passed_move_stop c :
  spend (move_ticks 1) c = None -> passed c = 0.
Proof.
  unfold move_ticks. destruct is_nothrow_move_constructible.
  - rewrite spend_0. discriminate.
  - apply spend_1_None.
Qed.

Lemma uninitialized_move_from_spec bs bd spre ys1 ys2 spost dpre dpost s :
  bs <> bd ->
  cells bs s = spre ++ map Live (map husk ys1 ++ ys2) ++ spost ->
  cells bd s = dpre ++ map Live ys1 ++ replicate (length ys2) Raw ++ dpost ->
  uninitialized_move_from (bs, length spre) (bd, length dpre) (length ys1) (length ys2) s =
  match spend (move_ticks (length ys2)) (countdown s) with
  | Some c' =>
      Ret tt (set_log (log s ++ move_events (bs, length spre + length ys1)
                                            (bd, length dpre + length ys1) (length ys2))
             (set_countdown c'
                (set_cells bs (spre ++ map Live (map husk (ys1 ++ ys2)) ++ spost)
                   (set_cells bd (dpre ++ map Live (ys1 ++ ys2) ++ dpost) s))))
  | None =>
      Raise (set_log (log s ++ move_events (bs, length spre + length ys1)
                                           (bd, length dpre + length ys1)
                                           (passed (countdown s))
                            ++ destroy_events (bd, length dpre)
                                              (length ys1 + passed (countdown s)))
             (set_countdown None
                (set_cells bs (spre ++ map Live (map husk ys1
                                                   ++ moved_prefix (passed (countdown s)) ys2)
                                    ++ spost)
                   (set_cells bd (dpre ++ replicate (length ys1 + length ys2) Raw ++ dpost)
                      s))))
  end.
Proof.
  intros Hne. revert ys1 s.
  induction ys2 as [|y ys2 IH]; intros ys1 s Hs Hd.
  - cbn [length uninitialized_move_from replicate app] in *.
    unfold move_ticks. rewrite Tauto.if_same, spend_0. cbn [move_events].
    rewrite !app_nil_r in *.
    change (ret tt s) with (Ret tt s : outcome (state T) unit).
    rewrite (set_cells_id bd) by assumption.
    rewrite (set_cells_id bs), set_countdown_id, set_log_id by assumption. reflexivity.
  - cbn [length uninitialized_move_from].
    assert (Hs' : cells bs s = (spre ++ map Live (map husk ys1))
                                 ++ Live y :: map Live ys2 ++ spost).
    { rewrite Hs, map_app, <- !app_assoc. reflexivity. }
    assert (Hd' : cells bd s = (dpre ++ map Live ys1) ++ Raw :: replicate (length ys2) Raw
                                 ++ dpost).
    { rewrite Hd, <- !app_assoc. reflexivity. }
    assert (Hls : length (spre ++ map Live (map husk ys1)) = length spre + length ys1)
      by (rewrite length_app, !length_map; reflexivity).
    assert (Hld : length (dpre ++ map Live ys1) = length dpre + length ys1)
      by (rewrite length_app, length_map; reflexivity).
    assert (Hl1 : length (ys1 ++ [y]) = length ys1 + 1)
      by (rewrite length_app; reflexivity).
    rewrite bind_unfold. unfold on_raise.
    replace (padd (bs, length spre) (length ys1))
      with (bs, length (spre ++ map Live (map husk ys1)))
      by (unfold padd; cbn [fst snd]; rewrite Hls; reflexivity).
    replace (padd (bd, length dpre) (length ys1)) with (bd, length (dpre ++ map Live ys1))
      by (unfold padd; cbn [fst snd]; rewrite Hld; reflexivity).
    rewrite (T_move_construct_spec _ _ _ _ _ _ _ _ Hne Hs' Hd').
    rewrite (move_ticks_S (length ys2)), spend_add, Hls, Hld.
    destruct (spend (move_ticks 1) (countdown s)) as [c1|] eqn:H1; cbv beta iota.
    + replace (S (length ys1)) with (length (ys1 ++ [y])) by lia.
      rewrite IH; norm_state.
      2:{ rewrite !map_app, <- !app_assoc. reflexivity. }
      2:{ rewrite cells_set_cells_ne by congruence. norm_state.
          rewrite map_app, <- !app_assoc. reflexivity. }
      rewrite Hl1.
      destruct (spend (move_ticks (length ys2)) c1) as [c'|] eqn:H2.
      * f_equal. norm_state. rewrite <- !app_assoc. cbn [move_events app].
        unfold padd. cbn [fst snd]. rewrite <- !Nat.add_assoc.
        rewrite set_cells_shadow by assumption. reflexivity.
      * f_equal. norm_state. rewrite (passed_move_step _ _ _ H1 H2).
        rewrite <- !app_assoc. cbn [move_events app].
        unfold padd. cbn [fst snd]. rewrite <- !Nat.add_assoc.
        cbn [Nat.add]. rewrite moved_prefix_S.
        rewrite set_cells_shadow by assumption.
        rewrite !map_app. cbn [map app]. rewrite <- !app_assoc. cbn [app]. reflexivity.
    + pose proof (destroy_n_spec bd dpre ys1 (Raw :: replicate (length ys2) Raw ++ dpost)
                    (set_countdown None s)) as Hrun.
      rewrite Hrun by (norm_state; exact Hd). clear Hrun.
      f_equal. norm_state. rewrite (passed_move_stop _ H1), moved_prefix_0.
      cbn [move_events app]. rewrite Nat.add_0_r.
      replace (length ys1 + S (length ys2)) with (length ys1 + 1 + length ys2) by lia.
      rewrite !replicate_add. cbn [replicate]. rewrite <- !app_assoc.
      rewrite (set_cells_ne_comm bs bd) by assumption.
      rewrite (set_cells_id bs) by assumption. reflexivity.
Qed.

Lemma uninitialized_move_n_spec bs bd spre ys spost dpre dpost s :
  bs <> bd ->
  cells bs s = spre ++ map Live ys ++ spost ->
  cells bd s = dpre ++ replicate (length ys) Raw ++ dpost ->
  uninitialized_move_n (bs, length spre) (length ys) (bd, length dpre) s =
  match spend (move_ticks (length ys)) (countdown s) with
  | Some c' =>
      Ret tt (set_log (log s ++ move_events (bs, length spre) (bd, length dpre) (length ys))
             (set_countdown c'
                (set_cells bs (spre ++ map Live (map husk ys) ++ spost)
                   (set_cells bd (dpre ++ map Live ys ++ dpost) s))))
  | None =>
      Raise (set_log (log s ++ move_events (bs, length spre) (bd, length dpre)
                                           (passed (countdown s))
                            ++ unwind_events (bd, length dpre) (passed (countdown s)))
             (set_countdown None
                (set_cells bs (spre ++ map Live (moved_prefix (passed (countdown s)) ys)
                                    ++ spost) s)))
  end.
Proof.
  intros Hne Hs Hd. unfold uninitialized_move_n.
  pose proof (uninitialized_move_from_spec bs bd spre [] ys spost dpre dpost s Hne Hs Hd)
    as Hrun.
  cbn [length app map] in Hrun. rewrite !Nat.add_0_r in Hrun. rewrite Hrun. clear Hrun.
  destruct (spend (move_ticks (length ys)) (countdown s)); [reflexivity|].
  unfold unwind_events. rewrite (set_cells_id bd) by exact Hd. reflexivity.
Qed.

Lemma T_value_construct_spec b pre post s :
  cells b s = pre ++ Raw :: post ->
  T_value_construct (b, length pre) s =
  match spend 1 (countdown s) with
  | Some c' =>
      Ret tt (set_log (log s ++ [EvConstruct (At (b, length pre))])
             (set_countdown c' (set_cells b (pre ++ Live value_init :: post) s)))
  | None => Raise (set_countdown None s)
  end.
Proof.
  intros H. unfold T_value_construct.
  rewrite bind_unfold, tick_spec.
  destruct (spend 1 (countdown s)) as [c'|]; [|reflexivity].
  erewrite bind_Ret; [|eapply construct_at_middle; norm_state; exact H].
  unfold emit, modify. f_equal. norm_state. reflexivity.
Qed.

Lemma uninitialized_value_construct_from_spec b pre k n post s :
  cells b s = pre ++ replicate k (Live value_init) ++ replicate n Raw ++ post ->
  uninitialized_value_construct_from (b, length pre) k n s =
  match spend n (countdown s) with
  | Some c' =>
      Ret tt (set_log (log s ++ value_events (b, length pre + k) n)
             (set_countdown c'
                (set_cells b (pre ++ replicate (k + n) (Live value_init) ++ post) s)))
  | None =>
      Raise (set_log (log s ++ value_events (b, length pre + k) (passed (countdown s))
                            ++ destroy_events (b, length pre) (k + passed (countdown s)))
             (set_countdown None
                (set_cells b (pre ++ replicate (k + n) Raw ++ post) s)))
  end.
Proof.
  revert k s. induction n as [|n IH]; intros k s H.
  - cbn [uninitialized_value_construct_from replicate app] in *.
    rewrite spend_0, Nat.add_0_r. cbn [value_events]. rewrite app_nil_r.
    change (ret tt s) with (Ret tt s : outcome (state T) unit).
    rewrite set_cells_id, set_countdown_id, set_log_id by assumption. reflexivity.
  - cbn [uninitialized_value_construct_from].
    assert (H' : cells b s = (pre ++ replicate k (Live value_init))
                               ++ Raw :: replicate n Raw ++ post).
    { rewrite H, <- !app_assoc. reflexivity. }
    assert (Hl : length (pre ++ replicate k (Live (value_init : T))) = length pre + k)
      by (rewrite length_app, length_replicate; reflexivity).
    rewrite bind_unfold. unfold on_raise.
    replace (padd (b, length pre) k)
      with (b, length (pre ++ replicate k (Live (value_init : T))))
      by (unfold padd; cbn [fst snd]; rewrite Hl; reflexivity).
    rewrite (T_value_construct_spec _ _ _ _ H').
    rewrite (spend_S n), Hl.
    destruct (spend 1 (countdown s)) as [c1|] eqn:H1; cbv beta iota.
    + rewrite IH; norm_state.
      2:{ rewrite <- !app_assoc.
          replace (S k) with (k + 1) by lia. rewrite replicate_add.
          rewrite <- !app_assoc. reflexivity. }
      destruct (spend n c1) as [c'|] eqn:H2.
      * f_equal. norm_state. rewrite <- !app_assoc. cbn [value_events app].
        unfold padd. cbn [fst snd].
        replace (length pre + S k) with (length pre + k + 1) by lia.
        replace (S k + n) with (k + S n) by lia. reflexivity.
      * f_equal. norm_state. rewrite (spend_1_Some_None _ _ _ H1 H2).
        rewrite <- !app_assoc. cbn [value_events app].
        unfold padd. cbn [fst snd].
        replace (length pre + S k) with (length pre + k + 1) by lia.
        replace (S k + passed c1) with (k + S (passed c1)) by lia.
        replace (S k + n) with (k + S n) by lia. reflexivity.
    + assert (Hmap : replicate k (Live (value_init : T)) =
                     map Live (replicate k value_init)).
      { clear. induction k as [|k IHk]; [reflexivity|]. cbn. by rewrite IHk. }
      pose proof (destroy_n_spec b pre (replicate k value_init)
                    (Raw :: replicate n Raw ++ post) (set_countdown None s)) as Hrun.
      rewrite length_replicate in Hrun.
      rewrite Hrun by (norm_state; rewrite H, Hmap; reflexivity). clear Hrun.
      f_equal. norm_state. rewrite (spend_1_None _ H1). cbn [value_events app].
      rewrite Nat.add_0_r.
      replace (k + S n) with (k + 1 + n) by lia.
      rewrite !replicate_add. cbn [replicate]. rewrite <- !app_assoc. reflexivity.
Qed.

Lemma uninitialized_value_construct_n_spec b pre n post s :
  cells b s = pre ++ replicate n Raw ++ post ->
  uninitialized_value_construct_n (b, length pre) n s =
  match spend n (countdown s) with
  | Some c' =>
      Ret tt (set_log (log s ++ value_events (b, length pre) n)
             (set_countdown c'
                (set_cells b (pre ++ replicate n (Live value_init) ++ post) s)))
  | None =>
      Raise (set_log (log s ++ value_events (b, length pre) (passed (countdown s))
                            ++ unwind_events (b, length pre) (passed (countdown s)))
             (set_countdown None s))
  end.
Proof.
  intros H. unfold uninitialized_value_construct_n.
  pose proof (uninitialized_value_construct_from_spec b pre 0 n post s H) as Hrun.
  cbn [replicate app Nat.add] in Hrun. rewrite !Nat.add_0_r in Hrun.
  rewrite Hrun. clear Hrun.
  destruct (spend n (countdown s)); [reflexivity|].
  unfold unwind_events. rewrite (set_cells_id b) by exact H. reflexivity.
Qed.

End MoveLoopFacts.

Section InPlaceFacts.
Context {T : Type} `{!Element T}.
Implicit Types (s : state T) (b : block) (l : list (slot T)) (xs ys : list T).

Lemma bind_raises {A B} (m : M T A) (k : A -> M T B) s :
  raises (m s) -> raises ((m ≫= k) s).
Proof. intros [s' H]. exists s'. by apply bind_Raise. Qed.

Lemma lookup_second {A} (pre : list A) a c post :
  (pre ++ a :: c :: post) !! S (length pre) = Some c.
Proof. induction pre as [|p pre IH]; simpl; [reflexivity|exact IH]. Qed.

Lemma insert_second {A} (pre : list A) a c c' post :
  <[S (length pre) := c']> (pre ++ a :: c :: post) = pre ++ a :: c' :: post.
Proof. induction pre as [|p pre IH]; simpl; [reflexivity|by rewrite IH]. Qed.

Lemma T_move_assign_left b pre a y post s :
  cells b s = pre ++ Live a :: Live y :: post ->
  T_move_assign (b, S (length pre)) (b, length pre) s =
  match spend (assign_ticks 1) (countdown s) with
  | Some c' =>
      Ret tt (set_log (log s ++ [EvMoveAssign (At (b, S (length pre))) (At (b, length pre))])
             (set_countdown c' (set_cells b (pre ++ Live y :: Live (husk y) :: post) s)))
  | None => Raise (set_countdown None s)
  end.
Proof.
  intros H. unfold T_move_assign.
  erewrite bind_Ret; [|apply peek_spec; rewrite H; apply lookup_second].
  erewrite bind_Ret; [|eapply peek_middle; exact H].
  rewrite bind_unfold, tick_unless_spec. unfold assign_ticks.
  destruct (spend _ (countdown s)) as [c'|]; [|reflexivity].
  erewrite bind_Ret; [|eapply poke_middle; norm_state; exact H].
  erewrite bind_Ret.
  2:{ eapply poke_spec. norm_state. apply lookup_second. }
  unfold emit, modify. f_equal. norm_state. rewrite insert_second. reflexivity.
Qed.

Lemma T_move_assign_right b pre y a post s :
  cells b s = pre ++ Live y :: Live a :: post ->
  T_move_assign (b, length pre) (b, S (length pre)) s =
  match spend (assign_ticks 1) (countdown s) with
  | Some c' =>
      Ret tt (set_log (log s ++ [EvMoveAssign (At (b, length pre)) (At (b, S (length pre)))])
             (set_countdown c' (set_cells b (pre ++ Live (husk y) :: Live y :: post) s)))
  | None => Raise (set_countdown None s)
  end.
Proof.
  intros H. unfold T_move_assign.
  erewrite bind_Ret; [|eapply peek_middle; exact H].
  erewrite bind_Ret; [|apply peek_spec; rewrite H; apply lookup_second].
  rewrite bind_unfold, tick_unless_spec. unfold assign_ticks.
  destruct (spend _ (countdown s)) as [c'|]; [|reflexivity].
  erewrite bind_Ret.
  2:{ eapply poke_spec. norm_state. rewrite H. apply lookup_second. }
  erewrite bind_Ret.
  2:{ eapply poke_middle. norm_state. rewrite H, insert_second. reflexivity. }
  unfold emit, modify. f_equal. norm_state. reflexivity.
Qed.

Lemma first_husk_snoc a ys y : first_husk a (ys ++ [y]) = first_husk (husk y) ys.
Proof. destruct ys; reflexivity. Qed.

Lemma assign_ticks_S n : assign_ticks (S n) = assign_ticks 1 + assign_ticks n.
Proof. unfold assign_ticks. destruct is_nothrow_move_assignable; reflexivity. Qed.

Lemma move_n_left_spec b pre a ys post s :
  cells b s = pre ++ Live a :: map Live ys ++ post ->
  match spend (assign_ticks (length ys)) (countdown s) with
  | Some c' =>
      move_n (b, S (length pre)) (length ys) (b, length pre) s =
      Ret tt (set_log (log s ++ move_assign_events (b, S (length pre)) (b, length pre)
                                                   (length ys))
             (set_countdown c'
                (set_cells b (pre ++ map Live ys ++ Live (last_husk a ys) :: post) s)))
  | None => raises (move_n (b, S (length pre)) (length ys) (b, length pre) s)
  end.
Proof.
  revert pre a s. induction ys as [|y ys IH]; intros pre a s H.
  - simpl in *. unfold assign_ticks. rewrite Tauto.if_same, spend_0, app_nil_r.
    rewrite set_cells_id, set_countdown_id, set_log_id by assumption. reflexivity.
  - simpl in H. cbn [length move_n].
    rewrite (assign_ticks_S (length ys)), spend_add.
    rewrite bind_unfold, (T_move_assign_left _ _ _ _ _ _ H).
    destruct (spend (assign_ticks 1) (countdown s)) as [c1|] eqn:H1; cbv beta iota.
    2:{ eexists. reflexivity. }
    unfold padd. cbn [fst snd].
    replace (S (length pre) + 1) with (S (length (pre ++ [Live y])))
      by (rewrite length_app; simpl; lia).
    replace (length pre + 1) with (length (pre ++ [Live y]))
      by (rewrite length_app; simpl; lia).
    match goal with |- context [move_n _ _ _ ?s1] =>
      assert (Hc : cells b s1 = (pre ++ [Live y]) ++ Live (husk y) :: map Live ys ++ post)
        by (norm_state; rewrite <- app_assoc; reflexivity);
      specialize (IH _ _ _ Hc); clear Hc;
      assert (Hcd : countdown s1 = c1) by (norm_state; reflexivity);
      rewrite Hcd in IH; clear Hcd
    end.
    destruct (spend (assign_ticks (length ys)) c1) as [c'|] eqn:H2.
    + rewrite IH. f_equal. norm_state. rewrite <- !app_assoc.
      cbn [move_assign_events last_husk map app]. unfold padd. cbn [fst snd].
      replace (S (length pre) + 1) with (S (length (pre ++ [Live y])))
        by (rewrite length_app; simpl; lia).
      replace (length pre + 1) with (length (pre ++ [Live y]))
        by (rewrite length_app; simpl; lia).
      reflexivity.
    + exact IH.
Qed.

Lemma move_backward_n_spec b pre ys a post s :
  cells b s = pre ++ map Live ys ++ Live a :: post ->
  match spend (assign_ticks (length ys)) (countdown s) with
  | Some c' =>
      move_backward_n (b, length pre + length ys) (length ys)
                      (b, S (length pre + length ys)) s =
      Ret tt (set_log (log s ++ move_backward_events (b, length pre + length ys)
                                   (b, S (length pre + length ys)) (length ys))
             (set_countdown c'
                (set_cells b (pre ++ Live (first_husk a ys) :: map Live ys ++ post) s)))
  | None =>
      raises (move_backward_n (b, length pre + length ys) (length ys)
                              (b, S (length pre + length ys)) s)
  end.
Proof.
  revert a post s. induction ys as [|y ys IH] using rev_ind; intros a post s H.
  - simpl in *. unfold assign_ticks. rewrite Tauto.if_same, spend_0, app_nil_r.
    rewrite set_cells_id, set_countdown_id, set_log_id by assumption. reflexivity.
  - rewrite length_app. cbn [length]. rewrite Nat.add_1_r, Nat.add_succ_r.
    cbn [move_backward_n].
    rewrite (assign_ticks_S (length ys)), spend_add.
    rewrite map_app, <- app_assoc in H. simpl in H.
    unfold pminus. cbn [fst snd].
    replace (1 <=? S (length pre + length ys)) with true by reflexivity.
    replace (1 <=? S (S (length pre + length ys))) with true by reflexivity.
    rewrite !ret_bind.
    replace (S (length pre + length ys) - 1) with (length (pre ++ map Live ys))
      by (rewrite length_app, length_map; lia).
    replace (S (S (length pre + length ys)) - 1) with (S (length (pre ++ map Live ys)))
      by (rewrite length_app, length_map; lia).
    rewrite app_assoc in H.
    rewrite bind_unfold, (T_move_assign_right _ _ _ _ _ _ H).
    destruct (spend (assign_ticks 1) (countdown s)) as [c1|] eqn:H1; cbv beta iota.
    2:{ eexists. reflexivity. }
    replace (length (pre ++ map Live ys)) with (length pre + length ys)
      by (rewrite length_app, length_map; lia).
    match goal with |- context [move_backward_n _ _ _ ?s1] =>
      assert (Hc : cells b s1 = pre ++ map Live ys ++ Live (husk y) :: Live y :: post)
        by (norm_state; rewrite <- app_assoc; reflexivity);
      specialize (IH _ _ _ Hc); clear Hc;
      assert (Hcd : countdown s1 = c1) by (norm_state; reflexivity);
      rewrite Hcd in IH; clear Hcd
    end.
    destruct (spend (assign_ticks (length ys)) c1) as [c'|] eqn:H2.
    + rewrite IH. f_equal. norm_state. rewrite <- !app_assoc.
      cbn [move_backward_events]. unfold pback. cbn [fst snd].
      rewrite !Nat.sub_1_r. cbn [Nat.pred].
      rewrite first_husk_snoc, map_app, <- app_assoc. reflexivity.
    + exact IH.
Qed.

End InPlaceFacts.

(** ** The invariant and the canonical form of a vector *)

Section Canonical.
Context {T : Type}.
Implicit Types (v : Vector T) (xs : list T).

Lemma omap_value_of_Live xs : omap value_of (map Live xs) = xs.
Proof. induction xs as [|x xs IH]; simpl; [reflexivity|f_equal; exact IH]. Qed.

Lemma elements_vector_of xs cap : elements (vector_of xs cap) = xs.
Proof.
  unfold elements, vector_of. simpl.
  rewrite take_app_length' by (by rewrite length_map).
  apply omap_value_of_Live.
Qed.

Lemma size_vector_of xs cap : size_ (vector_of xs cap) = length xs.
Proof. reflexivity. Qed.

Lemma capacity_vector_of xs cap : capacity_ (data_ (vector_of xs cap)) = cap.
Proof. reflexivity. Qed.

Lemma invariant_vector_of xs cap : length xs <= cap -> invariant (vector_of xs cap).
Proof.
  intros H. unfold invariant, vector_of. simpl. repeat split.
  - rewrite length_app, length_map, length_replicate. lia.
  - exact H.
  - intros i Hi. destruct (lookup_lt_is_Some_2 xs i Hi) as [x Hx].
    exists x. rewrite lookup_app_l by (by rewrite length_map).
    rewrite list_lookup_fmap, Hx. reflexivity.
  - intros i [Hi1 Hi2]. rewrite lookup_app_r by (rewrite length_map; lia).
    rewrite length_map. apply lookup_replicate_2. lia.
Qed.

Lemma live_prefix (l : list (slot T)) n :
  n <= length l ->
  (forall i, i < n -> exists x, l !! i = Some (Live x)) ->
  take n l = map Live (omap value_of (take n l)).
Proof.
  revert l. induction n as [|n IH]; intros l Hn Hl.
  - rewrite take_0. reflexivity.
  - destruct l as [|c l]; [simpl in Hn; lia|].
    destruct (Hl 0 ltac:(lia)) as [x Hx]. simpl in Hx. injection Hx as ->.
    simpl. f_equal. apply IH.
    + simpl in Hn. lia.
    + intros i Hi. apply (Hl (S i)). lia.
Qed.

Lemma raw_suffix (l : list (slot T)) n :
  n <= length l ->
  (forall i, n <= i < length l -> l !! i = Some Raw) ->
  drop n l = replicate (length l - n) Raw.
Proof.
  intros Hn Hl. apply list_eq. intros i.
  rewrite lookup_drop.
  destruct (decide (i < length l - n)) as [Hi|Hi].
  - rewrite Hl by lia. symmetry. apply lookup_replicate_2. exact Hi.
  - rewrite lookup_ge_None_2 by lia. symmetry.
    apply lookup_replicate_None. lia.
Qed.

Lemma invariant_canonical v :
  invariant v -> v = vector_of (elements v) (capacity_ (data_ v)).
Proof.
  destruct v as [[l cap] n]. unfold invariant, elements, vector_of. simpl.
  intros (Hlen & Hn & Hlive & Hraw). subst cap.
  assert (Hl : length (omap value_of (take n l)) = n).
  { rewrite <- (length_map Live), <- live_prefix by assumption.
    rewrite length_take. lia. }
  rewrite Hl. f_equal. f_equal.
  rewrite <- live_prefix by assumption.
  rewrite <- raw_suffix by assumption.
  symmetry. apply take_drop.
Qed.

Lemma invariant_size v : invariant v -> length (elements v) = size_ v.
Proof.
  intros H. rewrite (invariant_canonical v H) at 2. reflexivity.
Qed.

Lemma invariantb_sound v : invariantb v = true -> invariant v.
Proof.
  destruct v as [[l cap] n]. unfold invariantb, invariant. simpl.
  rewrite !andb_true_iff. intros [[[H1 H2] H3] H4].
  apply Nat.eqb_eq in H1. apply Nat.leb_le in H2. subst cap.
  repeat split; try assumption.
  - intros i Hi. rewrite forallb_forall in H3.
    destruct (lookup_lt_is_Some_2 l i ltac:(lia)) as [c Hc].
    specialize (H3 c). destruct c as [|x]; [|by exists x].
    exfalso. assert (is_live (@Raw T) = true); [|discriminate].
    apply H3. apply list_elem_of_In. apply list_elem_of_lookup. exists i.
    rewrite lookup_take_lt by assumption. exact Hc.
  - intros i [Hi1 Hi2]. rewrite forallb_forall in H4.
    destruct (lookup_lt_is_Some_2 l i ltac:(lia)) as [c Hc].
    specialize (H4 c). destruct c as [|x]; [assumption|].
    exfalso. assert (is_raw (Live x) = true); [|discriminate].
    apply H4. apply list_elem_of_In. apply list_elem_of_lookup. exists (i - n).
    rewrite lookup_drop. replace (n + (i - n)) with i by lia. exact Hc.
Qed.

End Canonical.

(** ** Stepping through a member function *)

Section Stepping.
Context {T : Type}.

Lemma gets_bind {A B} (f : state T -> A) (k : A -> M T B) (s : state T) :
  (gets f ≫= k) s = k (f s) s.
Proof. reflexivity. Qed.

Lemma modify_bind {B} (f : state T -> state T) (k : unit -> M T B) (s : state T) :
  (modify f ≫= k) s = k tt (f s).
Proof. reflexivity. Qed.

Lemma emit_bind {B} e (k : unit -> M T B) (s : state T) :
  (emit e ≫= k) s = k tt (set_log (log s ++ [e]) s).
Proof. reflexivity. Qed.

Lemma modify_run (f : state T -> state T) (s : state T) : modify f s = Ret tt (f s).
Proof. reflexivity. Qed.

Lemma ret_run {A} (a : A) (s : state T) : ret a s = Ret a s.
Proof. reflexivity. Qed.

Lemma bind_assoc {A B C} (m : M T A) (k : A -> M T B) (h : B -> M T C) (s : state T) :
  ((m ≫= k) ≫= h) s = (m ≫= (fun a => k a ≫= h)) s.
Proof.
  rewrite !bind_unfold. destruct (m s); reflexivity.
Qed.

Lemma assert_true_bind {B} (k : unit -> M T B) (s : state T) :
  (assert true ≫= k) s = k tt s.
Proof. reflexivity. Qed.

Lemma tick_bind {B} (k : unit -> M T B) (s : state T) :
  (tick ≫= k) s = match spend 1 (countdown s) with
                  | Some c' => k tt (set_countdown c' s)
                  | None => Raise (set_countdown None s)
                  end.
Proof.
  rewrite bind_unfold, tick_spec. destruct (spend 1 (countdown s)); reflexivity.
Qed.

Lemma tick_unless_bind {B} (b : bool) (k : unit -> M T B) (s : state T) :
  (tick_unless b ≫= k) s =
  match spend (if b then 0 else 1) (countdown s) with
  | Some c' => k tt (set_countdown c' s)
  | None => Raise (set_countdown None s)
  end.
Proof.
  rewrite bind_unfold, tick_unless_spec.
  destruct (spend _ (countdown s)); reflexivity.
Qed.

End Stepping.

Ltac proj :=
  unfold cells, set_cells;
  cbn [raw_of set_raw vec set_vec];
  unfold set_this, set_other, set_local, set_countdown, set_log,
    RawMemory_GetAddress, begin, padd;
  cbn [raw_of cells set_raw set_cells this other local countdown log data_ size_
       buffer_ capacity_ set_this set_other set_local set_countdown set_log vec
       set_vec data_of fst snd padd RawMemory_GetAddress begin block_eqb
       operand_eqb].

Ltac step :=
  first [ rewrite ret_bind | rewrite gets_bind | rewrite modify_bind
        | rewrite emit_bind | rewrite assert_true_bind | rewrite bind_assoc
        | rewrite modify_run | rewrite ret_run ];
  proj.

Section ReserveFacts.
Context {T : Type} `{!Element T}.
Implicit Types (xs : list T) (o : Vector T) (d : RawMemory T).

Lemma replicate_split (n k : nat) (c : slot T) :
  k <= n -> replicate n c = replicate k c ++ replicate (n - k) c.
Proof. intros H. rewrite <- replicate_add. f_equal. lia. Qed.

Lemma Reserve_noop xs cap n o d c lg :
  n <= cap ->
  Reserve n (mkState (vector_of xs cap) o d c lg) =
  Ret tt (mkState (vector_of xs cap) o d c lg).
Proof.
  intros H. unfold Reserve, RawMemory_Capacity, vector_of. step.
  rewrite (proj2 (Nat.leb_le n cap) H). reflexivity.
Qed.

Lemma length_relocated xs : length (relocated xs) = length xs.
Proof. unfold relocated. destruct relocates_by_move; [apply length_map|reflexivity]. Qed.

Lemma relocate_spec bs bd spre ys spost dpre dpost (s : state T) :
  bs <> bd ->
  cells bs s = spre ++ map Live ys ++ spost ->
  cells bd s = dpre ++ replicate (length ys) Raw ++ dpost ->
  (if is_nothrow_move_constructible || negb is_copy_constructible
   then uninitialized_move_n (bs, length spre) (length ys) (bd, length dpre)
   else uninitialized_copy_n (bs, length spre) (length ys) (bd, length dpre)) s =
  match spend (relocation_ticks (length ys)) (countdown s) with
  | Some c' =>
      Ret tt (set_log (log s ++ relocation_events (bs, length spre) (bd, length dpre)
                                                  (length ys))
             (set_countdown c'
                (set_cells bs (spre ++ map Live (relocated ys) ++ spost)
                   (set_cells bd (dpre ++ map Live ys ++ dpost) s))))
  | None =>
      Raise (set_log (log s ++ relocation_events (bs, length spre) (bd, length dpre)
                                                 (passed (countdown s))
                            ++ unwind_events (bd, length dpre) (passed (countdown s)))
             (set_countdown None
                (set_cells bs (spre ++ map Live (abandoned (passed (countdown s)) ys)
                                    ++ spost) s)))
  end.
Proof.
  intros Hne Hs Hd.
  unfold relocation_ticks, relocation_events, relocated, abandoned, relocates_by_move.
  destruct (is_nothrow_move_constructible || negb is_copy_constructible); cbv iota.
  - exact (uninitialized_move_n_spec bs bd spre ys spost dpre dpost s Hne Hs Hd).
  - rewrite (uninitialized_copy_n_spec bs bd spre ys spost dpre dpost s Hne Hs Hd).
    destruct (spend (length ys) (countdown s)).
    + rewrite (set_cells_ne_comm bs bd) by assumption.
      rewrite (set_cells_id bs) by assumption. reflexivity.
    + rewrite (set_cells_id bs) by assumption. reflexivity.
Qed.

Lemma MoveOrCopyToMemory_spec bs bd spre ys spost dpre dpost (s : state T) :
  bs <> bd ->
  cells bs s = spre ++ map Live ys ++ spost ->
  cells bd s = dpre ++ replicate (length ys) Raw ++ dpost ->
  MoveOrCopyToMemory (bs, length spre) (length ys) (bd, length dpre) s =
  match spend (relocation_ticks (length ys)) (countdown s) with
  | Some c' =>
      Ret tt (set_log (log s ++ relocation_events (bs, length spre) (bd, length dpre)
                                                  (length ys))
             (set_countdown c'
                (set_cells bs (spre ++ map Live (relocated ys) ++ spost)
                   (set_cells bd (dpre ++ map Live ys ++ dpost) s))))
  | None =>
      Raise (set_log (log s ++ relocation_events (bs, length spre) (bd, length dpre)
                                                 (passed (countdown s))
                            ++ unwind_events (bd, length dpre) (passed (countdown s)))
             (set_countdown None
                (set_cells bs (spre ++ map Live (abandoned (passed (countdown s)) ys)
                                    ++ spost) s)))
  end.
Proof. apply relocate_spec. Qed.

Lemma Reserve_spec xs cap n o d c lg :
  length xs <= cap -> cap < n ->
  Reserve n (mkState (vector_of xs cap) o d c lg) =
  match spend 1 c with
  | None => Raise (mkState (vector_of xs cap) o d None lg)
  | Some c1 =>
      match spend (relocation_ticks (length xs)) c1 with
      | Some c2 =>
          Ret tt (mkState (vector_of xs n) o empty_raw c2
                    (lg ++ EvAllocate n
                        :: relocation_events (Here, 0) (New, 0) (length xs)
                        ++ destroy_events (Here, 0) (length xs)))
      | None =>
          Raise (mkState (vector_of (abandoned (passed c1) xs) cap) o empty_raw None
                   (lg ++ EvAllocate n
                       :: relocation_events (Here, 0) (New, 0) (passed c1)
                       ++ unwind_events (New, 0) (passed c1)
                       ++ [EvDeallocate n]))
      end
  end.
Proof.
  intros Hxs Hn. unfold Reserve, RawMemory_Capacity, vector_of. step.
  rewrite (proj2 (Nat.leb_gt n cap) Hn).
  unfold with_new_data, RawMemory_ctor, Allocate.
  rewrite (proj2 (Nat.eqb_neq n 0)) by lia.
  repeat step. rewrite tick_bind. proj.
  destruct (spend 1 c) as [c1|]; [|reflexivity].
  repeat step.
  unfold scope. rewrite bind_unfold. unfold on_raise, Size, get_size.
  repeat step.
  rewrite (replicate_split n (length xs)) by lia.
  rewrite bind_unfold.
  match goal with |- context [(if _ then _ else _) ?s1] =>
    pose proof (relocate_spec Here New [] xs (replicate (cap - length xs) Raw)
                  [] (replicate (n - length xs) Raw) s1
                  ltac:(discriminate) eq_refl eq_refl) as E
  end.
  cbn [length app] in E. rewrite E. clear E. proj.
  destruct (spend (relocation_ticks (length xs)) c1) as [c2|].
  - rewrite bind_unfold.
    match goal with |- context [destroy_n _ _ ?s2] =>
      pose proof (destroy_n_spec Here [] (relocated xs)
                    (replicate (cap - length xs) Raw) s2 eq_refl) as E
    end.
    rewrite length_relocated in E. cbn [length app] in E. rewrite E. clear E. proj.
    unfold RawMemory_move_assign. proj. repeat step.
    unfold RawMemory_dtor, Deallocate. repeat step.
    unfold empty_raw. rewrite <- !app_assoc. reflexivity.
  - unfold RawMemory_dtor, Deallocate. repeat step.
    rewrite <- replicate_split by lia.
    destruct n as [|n']; [lia|]. cbn [replicate]. repeat step.
    cbn [length]. rewrite length_replicate.
    unfold empty_raw. rewrite <- !app_assoc.
    replace (length (abandoned (passed c1) xs)) with (length xs); [reflexivity|].
    unfold abandoned, moved_prefix. destruct relocates_by_move; [|reflexivity].
    rewrite length_app, length_map, length_take, length_drop. lia.
Qed.

End ReserveFacts.

Section ScopeFacts.
Context {T : Type}.

Lemma scope_unfold {R} (m : M T R) exit (s : state T) :
  scope m exit s =
  match m s with
  | Ret r s' =>
      match exit s' with
      | Ret _ s'' => Ret r s''
      | Raise s'' => Raise s''
      | Undefined f => Undefined f
      end
  | Raise s' =>
      match exit s' with
      | Ret _ s'' | Raise s'' => Raise s''
      | Undefined f => Undefined f
      end
  | Undefined f => Undefined f
  end.
Proof.
  unfold scope, on_raise. rewrite bind_unfold.
  destruct (m s) as [r s'|s'|f]; cbv beta iota; try reflexivity.
  destruct (exit s'); reflexivity.
Qed.

End ScopeFacts.

(** ** [PushBack] and [EmplaceBack] *)

Section PushFacts.
Context {T : Type} `{!Element T}.
Implicit Types (x value : T) (xs : list T) (o : Vector T) (d : RawMemory T).

Lemma PushBack_shared value : PushBack value = push_back_with (T_copy_construct_from value).
Proof. reflexivity. Qed.

Lemma PushBack_move_shared value :
  PushBack_move value = push_back_with (T_move_construct_from value).
Proof. reflexivity. Qed.

Lemma EmplaceBack_shared x (s : state T) :
  EmplaceBack x s =
  (push_back_with (T_construct_from_args x);;
   sz' ← Size;
   RawMemory_at Here (size_t_minus sz' 1)) s.
Proof.
  unfold EmplaceBack, push_back_with. rewrite !bind_assoc.
  unfold Capacity, RawMemory_Capacity. rewrite !gets_bind. rewrite !bind_assoc.
  unfold Size, get_size. rewrite !gets_bind. rewrite !bind_assoc. reflexivity.
Qed.

Lemma constructs_copy x : constructs (T_copy_construct_from x) x 1 (EvCopyConstruct Local).
Proof.
  intros b pre post s H. unfold T_copy_construct_from.
  rewrite tick_bind. destruct (spend 1 (countdown s)) as [c'|]; [|reflexivity].
  erewrite bind_Ret; [|eapply construct_at_middle; norm_state; exact H].
  unfold emit, modify. f_equal. norm_state. reflexivity.
Qed.

Lemma constructs_move x :
  constructs (T_move_construct_from x) x (move_ticks 1) (EvMoveConstruct Local).
Proof.
  intros b pre post s H. unfold T_move_construct_from.
  rewrite tick_unless_bind. unfold move_ticks.
  destruct (spend _ (countdown s)) as [c'|]; [|reflexivity].
  erewrite bind_Ret; [|eapply construct_at_middle; norm_state; exact H].
  unfold emit, modify. f_equal. norm_state. reflexivity.
Qed.

Lemma constructs_args x : constructs (T_construct_from_args x) x 1 EvConstruct.
Proof.
  intros b pre post s H. unfold T_construct_from_args.
  rewrite tick_bind. destruct (spend 1 (countdown s)) as [c'|]; [|reflexivity].
  erewrite bind_Ret; [|eapply construct_at_middle; norm_state; exact H].
  unfold emit, modify. f_equal. norm_state. reflexivity.
Qed.

Lemma grown_gt n : n < grown n.
Proof. unfold grown. destruct n; simpl; lia. Qed.

Lemma length_abandoned k xs : length (abandoned k xs) = length xs.
Proof.
  unfold abandoned, moved_prefix. destruct relocates_by_move; [|reflexivity].
  rewrite length_app, length_map, length_take, length_drop. lia.
Qed.

Lemma push_back_with_grow construct x t ev xs o d c lg :
  constructs construct x t ev ->
  push_back_with construct (mkState (vector_of xs (length xs)) o d c lg) =
  match spend 1 c with
  | None => Raise (mkState (vector_of xs (length xs)) o d None lg)
  | Some c1 =>
      match spend t c1 with
      | None =>
          Raise (mkState (vector_of xs (length xs)) o empty_raw None
                   (lg ++ [EvAllocate (grown (length xs));
                           EvDeallocate (grown (length xs))]))
      | Some c2 =>
          match spend (relocation_ticks (length xs)) c2 with
          | Some c3 =>
              Ret tt (mkState (vector_of (xs ++ [x]) (grown (length xs))) o empty_raw c3
                        (lg ++ EvAllocate (grown (length xs))
                            :: ev (At (New, length xs))
                            :: relocation_events (Here, 0) (New, 0) (length xs)
                            ++ destroy_events (Here, 0) (length xs)))
          | None =>
              Raise (mkState (vector_of (abandoned (passed c2) xs) (length xs))
                       o empty_raw None
                       (lg ++ EvAllocate (grown (length xs))
                           :: ev (At (New, length xs))
                           :: relocation_events (Here, 0) (New, 0) (passed c2)
                           ++ unwind_events (New, 0) (passed c2)
                           ++ [EvDeallocate (grown (length xs))]))
          end
      end
  end.
Proof.
  intros Hc. pose proof (grown_gt (length xs)) as Hg.
  unfold push_back_with, Capacity, RawMemory_Capacity, Size, get_size, vector_of.
  repeat step. rewrite Nat.eqb_refl.
  fold (grown (length xs)). set (g := grown (length xs)) in *.
  rewrite bind_unfold.
  unfold with_new_data, RawMemory_ctor, Allocate.
  rewrite (proj2 (Nat.eqb_neq g 0)) by lia.
  repeat step. rewrite tick_bind. proj.
  destruct (spend 1 c) as [c1|]; [|reflexivity].
  repeat step.
  rewrite scope_unfold. unfold RawMemory_plus, RawMemory_Capacity.
  repeat step.
  rewrite (proj2 (Nat.leb_le (length xs) g)) by lia. repeat step.
  rewrite Nat.add_0_l.
  rewrite (replicate_split g (length xs)) by lia.
  replace (g - length xs) with (S (g - length xs - 1)) by lia. cbn [replicate].
  rewrite bind_unfold.
  match goal with |- context [construct _ ?s1] =>
    pose proof (Hc New (replicate (length xs) Raw) (replicate (g - length xs - 1) Raw)
                  s1 eq_refl) as E
  end.
  rewrite length_replicate in E. rewrite E. clear E. proj.
  destruct (spend t c1) as [c2|].
  2:{ unfold RawMemory_dtor, Deallocate. repeat step.
      destruct (length xs) as [|n'] eqn:Hn.
      - cbn [replicate app]. repeat step. cbn [length]. rewrite length_replicate.
        rewrite Nat.sub_0_r in *.
        replace (S (g - 1)) with g by lia.
        unfold empty_raw. rewrite <- !app_assoc. reflexivity.
      - cbn [replicate app]. repeat step. cbn [length].
        rewrite length_app. cbn [length]. rewrite !length_replicate.
        replace (S (n' + S (g - S n' - 1))) with g by lia.
        unfold empty_raw. rewrite <- !app_assoc. reflexivity. }
  rewrite bind_unfold.
  match goal with |- context [(if _ then _ else _) ?s1] =>
    pose proof (relocate_spec Here New [] xs (replicate (length xs - length xs) Raw)
                  [] (Live x :: replicate (g - length xs - 1) Raw) s1
                  ltac:(discriminate) eq_refl eq_refl) as E
  end.
  cbn [length app] in E. rewrite E. clear E. proj.
  destruct (spend (relocation_ticks (length xs)) c2) as [c3|].
  - rewrite bind_unfold.
    match goal with |- context [destroy_n _ _ ?s2] =>
      pose proof (destroy_n_spec Here [] (relocated xs)
                    (replicate (length xs - length xs) Raw) s2 eq_refl) as E
    end.
    rewrite length_relocated in E. cbn [length app] in E. rewrite E. clear E. proj.
    unfold RawMemory_move_assign. proj. repeat step.
    unfold RawMemory_dtor, Deallocate. repeat step.
    unfold set_size. repeat step.
    unfold empty_raw. rewrite <- !app_assoc. cbn [app].
    rewrite map_app, length_app, <- app_assoc. cbn [map length app].
    replace (g - (length xs + 1)) with (g - length xs - 1) by lia.
    rewrite Nat.add_1_r. reflexivity.
  - unfold RawMemory_dtor, Deallocate. repeat step.
    rewrite length_abandoned.
    destruct (length xs) as [|n'] eqn:Hn.
    + cbn [replicate app]. repeat step. cbn [length]. rewrite length_replicate.
      rewrite Nat.sub_0_r in *.
      replace (S (g - 1)) with g by lia.
      unfold empty_raw. rewrite <- !app_assoc. reflexivity.
    + cbn [replicate app]. repeat step. cbn [length].
      rewrite length_app. cbn [length]. rewrite !length_replicate.
      replace (S (n' + S (g - S n' - 1))) with g by lia.
      unfold empty_raw. rewrite <- !app_assoc. reflexivity.
Qed.

End PushFacts.

Section PushRoomFacts.
Context {T : Type} `{!Element T}.
Implicit Types (x value : T) (xs : list T) (o : Vector T) (d : RawMemory T).

Lemma replicate_sub_S (n k : nat) (c : slot T) :
  k < n -> replicate (n - k) c = c :: replicate (n - k - 1) c.
Proof. intros H. replace (n - k) with (S (n - k - 1)) at 1 by lia. reflexivity. Qed.

Lemma vector_of_snoc xs x cap :
  length xs < cap ->
  mkVector (mkRawMemory (map Live xs ++ Live x :: replicate (cap - length xs - 1) Raw) cap)
           (length xs + 1) = vector_of (xs ++ [x]) cap.
Proof.
  intros H. unfold vector_of. rewrite map_app, length_app, <- app_assoc. cbn [map length app].
  replace (cap - (length xs + 1)) with (cap - length xs - 1) by lia. reflexivity.
Qed.

Lemma push_back_with_room construct x t ev xs cap o d c lg :
  length xs < cap ->
  constructs construct x t ev ->
  push_back_with construct (mkState (vector_of xs cap) o d c lg) =
  match spend t c with
  | Some c1 =>
      Ret tt (mkState (vector_of (xs ++ [x]) cap) o d c1
                (lg ++ [ev (At (Here, length xs))]))
  | None => Raise (mkState (vector_of xs cap) o d None lg)
  end.
Proof.
  intros Hlt Hc.
  unfold push_back_with, Capacity, RawMemory_Capacity, Size, get_size.
  rewrite <- (vector_of_snoc xs x cap Hlt). unfold vector_of.
  repeat step. rewrite (proj2 (Nat.eqb_neq cap (length xs))) by lia.
  unfold RawMemory_plus, RawMemory_Capacity. repeat step.
  rewrite (proj2 (Nat.leb_le (length xs) cap)) by lia. repeat step.
  rewrite Nat.add_0_l.
  rewrite (replicate_sub_S cap (length xs)) by lia.
  rewrite bind_unfold.
  match goal with |- context [construct _ ?s1] =>
    pose proof (Hc Here (map Live xs) (replicate (cap - length xs - 1) Raw) s1 eq_refl) as E
  end.
  rewrite length_map in E. rewrite E. clear E. proj.
  destruct (spend t c) as [c1|]; [|reflexivity].
  unfold set_size. repeat step. reflexivity.
Qed.

Lemma EmplaceBack_return xs x cap o d c lg :
  length xs < cap ->
  (sz' ← Size; RawMemory_at Here (size_t_minus sz' 1))
    (mkState (vector_of (xs ++ [x]) cap) o d c lg) =
  Ret (Here, length xs) (mkState (vector_of (xs ++ [x]) cap) o d c lg).
Proof.
  intros Hlt. unfold Size, get_size, RawMemory_at, RawMemory_Capacity, vector_of.
  repeat step. rewrite length_app. cbn [length].
  unfold size_t_minus. rewrite (proj2 (Nat.leb_le 1 (length xs + 1))) by lia.
  replace (length xs + 1 - 1) with (length xs) by lia.
  rewrite (proj2 (Nat.ltb_lt (length xs) cap)) by lia. repeat step. reflexivity.
Qed.

End PushRoomFacts.

(** ** [Emplace] and [Insert] *)

Ltac len_solve :=
  repeat first [ rewrite length_app | rewrite length_map | rewrite length_replicate
               | progress cbn [length] ];
  lia.

Section InsertFacts.
Context {T : Type} `{!Element T}.
Implicit Types (x value : T) (xs : list T) (o : Vector T) (d : RawMemory T).

Lemma Insert_shared pos value :
  Insert pos value =
  (sz ← Size;
   assert (pos <=? sz);;
   cap ← Capacity;
   (if cap =? sz then insert_growing sz pos (T_copy_construct_from value)
    else insert_in_place sz pos (tick;; emit (EvCopyConstruct Local Local)) value);;
   set_size Self (sz + 1);;
   ret (padd begin pos)).
Proof. reflexivity. Qed.

Lemma Insert_move_shared pos value :
  Insert_move pos value =
  (sz ← Size;
   assert (pos <=? sz);;
   cap ← Capacity;
   (if cap =? sz then insert_growing sz pos (T_move_construct_from value)
    else insert_in_place sz pos
           (tick_unless is_nothrow_move_constructible;;
            emit (EvMoveConstruct Local Local)) value);;
   set_size Self (sz + 1);;
   ret (padd begin pos)).
Proof. reflexivity. Qed.

Lemma Emplace_shared pos x :
  Emplace pos x =
  (sz ← Size;
   assert (pos <=? sz);;
   cap ← Capacity;
   (if cap =? sz then insert_growing sz pos (T_construct_from_args x)
    else if pos =? sz then
      p ← RawMemory_plus Here sz;
      T_construct_from_args x p
    else insert_in_place sz pos (tick;; emit (EvConstruct Local)) x);;
   set_size Self (sz + 1);;
   ret (padd begin pos)).
Proof. reflexivity. Qed.

Lemma RawMemory_dtor_spec b (l : list (slot T)) g (s : state T) :
  length l = g -> 0 < g -> cells b s = l ->
  RawMemory_dtor b s = Ret tt (set_raw b (mkRawMemory [] 0)
                                 (set_log (log s ++ [EvDeallocate g]) s)).
Proof.
  intros Hl Hg Hs. unfold RawMemory_dtor, Deallocate. rewrite gets_bind, Hs.
  destruct l as [|a l]; [simpl in Hl; lia|]. rewrite emit_bind, Hl. reflexivity.
Qed.

Lemma insert_growing_spec construct x t ev xs1 xs2 o d c lg :
  constructs construct x t ev ->
  let n := length (xs1 ++ xs2) in
  let g := grown n in
  let i := length xs1 in
  insert_growing n i construct (mkState (vector_of (xs1 ++ xs2) n) o d c lg) =
  match spend 1 c with
  | None => Raise (mkState (vector_of (xs1 ++ xs2) n) o d None lg)
  | Some c1 =>
    match spend t c1 with
    | None =>
        Raise (mkState (vector_of (xs1 ++ xs2) n) o empty_raw None
                 (lg ++ [EvAllocate g; EvDeallocate g]))
    | Some c2 =>
      match spend (relocation_ticks i) c2 with
      | None =>
          Raise (mkState (vector_of (abandoned (passed c2) xs1 ++ xs2) n) o empty_raw None
                   (lg ++ EvAllocate g :: ev (At (New, i))
                       :: relocation_events (Here, 0) (New, 0) (passed c2)
                       ++ unwind_events (New, 0) (passed c2)
                       ++ [EvDeallocate g]))
      | Some c3 =>
        match spend (relocation_ticks (n - i)) c3 with
        | None =>
            Raise (mkState (vector_of (relocated xs1 ++ abandoned (passed c3) xs2) n)
                     o empty_raw None
                     (lg ++ EvAllocate g :: ev (At (New, i))
                         :: relocation_events (Here, 0) (New, 0) i
                         ++ relocation_events (Here, i) (New, S i) (passed c3)
                         ++ unwind_events (New, S i) (passed c3)
                         ++ [EvDeallocate g]))
        | Some c4 =>
            Ret tt (mkState (mkVector (inserted_raw xs1 x xs2 g) n) o empty_raw c4
                      (lg ++ EvAllocate g :: ev (At (New, i))
                          :: relocation_events (Here, 0) (New, 0) i
                          ++ relocation_events (Here, i) (New, S i) (n - i)
                          ++ destroy_events (Here, 0) n))
        end
      end
    end
  end.
Proof.
  intros Hc n g i. pose proof (grown_gt n) as Hg. fold g in Hg.
  assert (Hn : n = i + length xs2) by (unfold n, i; apply length_app).
  unfold insert_growing. fold (grown n). fold g.
  unfold with_new_data, RawMemory_ctor, Allocate.
  rewrite (proj2 (Nat.eqb_neq g 0)) by lia.
  unfold vector_of. fold n. rewrite Nat.sub_diag. cbn [replicate].
  rewrite app_nil_r.
  repeat step. rewrite tick_bind. proj.
  destruct (spend 1 c) as [c1|]; [|reflexivity].
  repeat step.
  rewrite scope_unfold. unfold RawMemory_plus, RawMemory_Capacity.
  repeat step.
  rewrite (proj2 (Nat.leb_le i g)) by lia. repeat step.
  rewrite Nat.add_0_l.
  rewrite (replicate_split g i) by lia.
  rewrite (replicate_sub_S g i) by lia.
  rewrite (replicate_split (g - i - 1) (length xs2)) by lia.
  rewrite bind_unfold.
  match goal with |- context [construct _ ?s1] =>
    pose proof (Hc New (replicate i Raw)
                  (replicate (length xs2) Raw ++ replicate (g - i - 1 - length xs2) Raw)
                  s1 eq_refl) as E
  end.
  rewrite length_replicate in E. rewrite E. clear E. proj.
  destruct (spend t c1) as [c2|].
  2:{ erewrite (RawMemory_dtor_spec New _ g); [|shelve|lia|proj; reflexivity]. proj.
      unfold empty_raw. rewrite <- !app_assoc. reflexivity.
      Unshelve. len_solve. }
  rewrite bind_unfold.
  rewrite map_app.
  match goal with |- context [MoveOrCopyToMemory _ _ _ ?s1] =>
    pose proof (MoveOrCopyToMemory_spec Here New [] xs1 (map Live xs2)
                  [] (Live x :: replicate (length xs2) Raw
                        ++ replicate (g - i - 1 - length xs2) Raw) s1
                  ltac:(discriminate) eq_refl eq_refl) as E
  end.
  cbn [length app] in E. fold i in E. rewrite E. clear E. proj.
  destruct (spend (relocation_ticks i) c2) as [c3|].
  2:{ erewrite (RawMemory_dtor_spec New _ g); [|shelve|lia|proj; reflexivity]. proj.
      unfold empty_raw. rewrite <- !app_assoc. cbn [app].
      rewrite map_app, length_app, length_abandoned. fold i. rewrite <- Hn.
      rewrite Nat.sub_diag. cbn [replicate]. rewrite app_nil_r. reflexivity.
      Unshelve. len_solve. }
  rewrite bind_unfold.
  match goal with |- context [MoveOrCopyToMemory _ _ _ ?s1] =>
    pose proof (MoveOrCopyToMemory_spec Here New (map Live (relocated xs1)) xs2 []
                  (map Live xs1 ++ [Live x]) (replicate (g - i - 1 - length xs2) Raw) s1
                  ltac:(discriminate)) as E
  end.
  rewrite length_map, length_relocated, length_app, length_map in E.
  cbn [length] in E. fold i in E.
  replace (n - i) with (length xs2) by lia.
  replace (0 + i + 1) with (i + 1) by lia.
  replace (0 + i) with i by lia.
  rewrite E; clear E.
  2:{ proj. rewrite ?app_nil_r. reflexivity. }
  2:{ proj. rewrite <- !app_assoc. reflexivity. }
  proj.
  destruct (spend (relocation_ticks (length xs2)) c3) as [c4|].
  - rewrite bind_unfold.
    match goal with |- context [destroy_n _ _ ?s2] =>
      pose proof (destroy_n_spec Here [] (relocated xs1 ++ relocated xs2) [] s2) as E
    end.
    rewrite length_app, !length_relocated in E. fold i in E. rewrite <- Hn in E.
    cbn [length app] in E. rewrite E; clear E.
    2:{ proj. rewrite map_app, !app_nil_r. reflexivity. }
    proj.
    unfold RawMemory_move_assign. proj. repeat step.
    unfold RawMemory_dtor, Deallocate. repeat step.
    unfold empty_raw, inserted_raw. fold n.
    rewrite <- !app_assoc. cbn [app]. rewrite Nat.add_1_r.
    rewrite map_app. cbn [map]. rewrite <- !app_assoc. cbn [app].
    replace (g - n - 1) with (g - i - 1 - length xs2) by lia.
    reflexivity.
  - erewrite (RawMemory_dtor_spec New _ g); [|shelve|lia|proj; reflexivity]. proj.
    unfold empty_raw. rewrite <- !app_assoc. cbn [app].
    rewrite map_app, length_app, length_abandoned, length_relocated. fold i.
    rewrite <- Hn. rewrite Nat.sub_diag. cbn [replicate].
    rewrite !app_nil_r, Nat.add_1_r. reflexivity.
    Unshelve. len_solve.
Qed.

End InsertFacts.

(** ** Insertion in place, [PopBack] and [Erase] *)

Section InPlaceOps.
Context {T : Type} `{!Element T}.
Implicit Types (x value : T) (xs : list T) (o : Vector T) (d : RawMemory T).

Lemma T_move_construct_right b pre y post (s : state T) :
  cells b s = pre ++ Live y :: Raw :: post ->
  T_move_construct (b, length pre) (b, S (length pre)) s =
  match spend (move_ticks 1) (countdown s) with
  | Some c' =>
      Ret tt (set_log (log s ++ [EvMoveConstruct (At (b, length pre)) (At (b, S (length pre)))])
             (set_countdown c' (set_cells b (pre ++ Live (husk y) :: Live y :: post) s)))
  | None => Raise (set_countdown None s)
  end.
Proof.
  intros H. unfold T_move_construct.
  erewrite bind_Ret; [|eapply peek_middle; exact H].
  rewrite tick_unless_bind. unfold move_ticks.
  destruct (spend _ (countdown s)) as [c'|]; [|reflexivity].
  erewrite bind_Ret.
  2:{ eapply construct_at_spec. norm_state. rewrite H. apply lookup_second. }
  erewrite bind_Ret.
  2:{ eapply poke_middle. norm_state. rewrite H, insert_second. reflexivity. }
  unfold emit, modify. f_equal. norm_state. reflexivity.
Qed.

Lemma T_move_assign_from_spec b pre a x post (s : state T) :
  cells b s = pre ++ Live a :: post ->
  T_move_assign_from x (b, length pre) s =
  match spend (assign_ticks 1) (countdown s) with
  | Some c' =>
      Ret tt (set_log (log s ++ [EvMoveAssign Local (At (b, length pre))])
             (set_countdown c' (set_cells b (pre ++ Live x :: post) s)))
  | None => Raise (set_countdown None s)
  end.
Proof.
  intros H. unfold T_move_assign_from.
  erewrite bind_Ret; [|eapply peek_middle; exact H].
  rewrite tick_unless_bind. unfold assign_ticks.
  destruct (spend _ (countdown s)) as [c'|]; [|reflexivity].
  erewrite bind_Ret; [|eapply poke_middle; norm_state; exact H].
  unfold emit, modify. f_equal. norm_state. reflexivity.
Qed.

Lemma PopBack_empty cap o d c lg :
  PopBack (mkState (vector_of [] cap) o d c lg) =
  Ret tt (mkState (vector_of ([] : list T) cap) o d c lg).
Proof. reflexivity. Qed.

Lemma PopBack_spec xs x cap o d c lg :
  length xs < cap ->
  PopBack (mkState (vector_of (xs ++ [x]) cap) o d c lg) =
  Ret tt (mkState (vector_of xs cap) o d c (lg ++ [EvDestroy (At (Here, length xs))])).
Proof.
  intros Hlt. rewrite <- (vector_of_snoc xs x cap Hlt).
  unfold PopBack, Size, get_size. repeat step.
  rewrite (proj2 (Nat.eqb_neq (length xs + 1) 0)) by lia.
  unfold RawMemory_at, RawMemory_Capacity, size_t_minus. repeat step.
  rewrite (proj2 (Nat.leb_le 1 (length xs + 1))) by lia.
  replace (length xs + 1 - 1) with (length xs) by lia.
  rewrite (proj2 (Nat.ltb_lt (length xs) cap)) by lia. repeat step.
  rewrite Nat.add_0_l. rewrite bind_unfold.
  match goal with |- context [destroy_at _ ?s1] =>
    pose proof (destroy_at_middle Here (map Live xs) x
                  (replicate (cap - length xs - 1) Raw) s1 eq_refl) as E
  end.
  rewrite length_map in E. rewrite E. clear E. proj.
  unfold set_size. repeat step. unfold vector_of.
  rewrite <- replicate_sub_S by lia. reflexivity.
Qed.

End InPlaceOps.

Section EraseFacts.
Context {T : Type} `{!Element T}.
Implicit Types (x value : T) (xs : list T) (o : Vector T) (d : RawMemory T).

Lemma Erase_spec xs1 a ys cap o d c lg :
  length (xs1 ++ a :: ys) <= cap ->
  match spend (assign_ticks (length ys)) c with
  | Some c' =>
      Erase (length xs1) (mkState (vector_of (xs1 ++ a :: ys) cap) o d c lg) =
      Ret (Here, length xs1)
          (mkState (vector_of (xs1 ++ ys) cap) o d c'
             (lg ++ move_assign_events (Here, S (length xs1)) (Here, length xs1) (length ys)
                 ++ [EvDestroy (At (Here, length (xs1 ++ ys)))]))
  | None =>
      raises (Erase (length xs1) (mkState (vector_of (xs1 ++ a :: ys) cap) o d c lg))
  end.
Proof.
  intros Hcap. pose proof Hcap as Hcap'. rewrite length_app in Hcap'. cbn [length] in Hcap'.
  set (n := length (xs1 ++ a :: ys)) in *.
  assert (Hn : n = length xs1 + S (length ys)) by (unfold n; rewrite length_app; reflexivity).
  assert (Hrun : forall k : unit -> M T ptr,
    Erase (length xs1) (mkState (vector_of (xs1 ++ a :: ys) cap) o d c lg) =
    (move_n (Here, S (length xs1)) (length ys) (Here, length xs1);;
     PopBack;; ret (Here, length xs1))
      (mkState (vector_of (xs1 ++ a :: ys) cap) o d c lg)).
  { intros _. unfold Erase, end_, Size, get_size, std_move, distance, vector_of.
    fold n. repeat step.
    rewrite (proj2 (Nat.leb_le (0 + length xs1 + 1) (0 + n))) by lia.
    cbn [andb]. repeat step.
    replace (0 + n - (0 + length xs1 + 1)) with (length ys) by lia.
    replace (0 + length xs1 + 1) with (S (length xs1)) by lia.
    rewrite Nat.add_0_l. reflexivity. }
  rewrite (Hrun (fun _ => ret (Here, 0))). clear Hrun.
  pose proof (move_n_left_spec Here (map Live xs1) a ys
                (replicate (cap - n) Raw)
                (mkState (vector_of (xs1 ++ a :: ys) cap) o d c lg)) as E.
  rewrite length_map in E.
  assert (Hs0 : cells Here (mkState (vector_of (xs1 ++ a :: ys) cap) o d c lg) =
                map Live xs1 ++ Live a :: map Live ys ++ replicate (cap - n) Raw).
  { unfold vector_of. proj. rewrite map_app, <- app_assoc. reflexivity. }
  specialize (E Hs0). clear Hs0. cbn [countdown] in E.
  destruct (spend (assign_ticks (length ys)) c) as [c'|].
  - rewrite bind_unfold, E. clear E. proj. rewrite bind_unfold.
    match goal with |- context [PopBack ?s1] =>
      replace s1 with (mkState (vector_of ((xs1 ++ ys) ++ [last_husk a ys]) cap) o d c'
                         (lg ++ move_assign_events (Here, S (length xs1)) (Here, length xs1)
                                                   (length ys)))
    end.
    2:{ f_equal. rewrite <- vector_of_snoc by (rewrite length_app; lia).
        unfold vector_of. fold n. rewrite !length_app.
        rewrite map_app, <- !app_assoc.
        replace (length xs1 + length ys + 1) with n by lia.
        replace (cap - (length xs1 + length ys) - 1) with (cap - n) by lia.
        reflexivity. }
    rewrite PopBack_spec by (rewrite length_app; lia).
    repeat step. rewrite <- app_assoc. reflexivity.
  - apply bind_raises. exact E.
Qed.

Lemma Erase_at_end xs cap o d c lg :
  Erase (length xs) (mkState (vector_of xs cap) o d c lg) = Undefined InvalidRange.
Proof.
  unfold Erase, end_, Size, get_size, std_move, distance, vector_of.
  repeat step.
  rewrite (proj2 (Nat.leb_gt (0 + length xs + 1) (0 + length xs))) by lia.
  reflexivity.
Qed.

End EraseFacts.

Section InsertInPlace.
Context {T : Type} `{!Element T}.
Implicit Types (x value : T) (xs : list T) (o : Vector T) (d : RawMemory T).

Lemma initializes_tick ev : initializes (T:=T) (tick;; emit ev) 1 ev.
Proof.
  intros s. rewrite tick_bind. destruct (spend 1 (countdown s)); reflexivity.
Qed.

Lemma initializes_tick_unless ev :
  initializes (T:=T) (tick_unless is_nothrow_move_constructible;; emit ev) (move_ticks 1) ev.
Proof.
  intros s. rewrite tick_unless_bind. unfold move_ticks.
  destruct (spend _ (countdown s)); reflexivity.
Qed.

Lemma scope_emit_raises {R} (m : M T R) e (s : state T) :
  raises (m s) -> raises (scope m (emit e) s).
Proof.
  intros [s' H]. rewrite scope_unfold, H. eexists. reflexivity.
Qed.

Lemma raises_Raise {R} (s : state T) : raises (Raise s : outcome (state T) R).
Proof. eexists. reflexivity. Qed.

Lemma insert_in_place_spec init t0 ev0 x xs1 mid l cap o d c lg :
  initializes init t0 ev0 ->
  let n := length (xs1 ++ mid ++ [l]) in
  let run := insert_in_place n (length xs1) init x
               (mkState (vector_of (xs1 ++ mid ++ [l]) cap) o d c lg) in
  n < cap ->
  match spend t0 c with
  | None => raises run
  | Some c1 =>
    match spend (move_ticks 1) c1 with
    | None => raises run
    | Some c2 =>
      match spend (assign_ticks (length mid)) c2 with
      | None => raises run
      | Some c3 =>
        match spend (assign_ticks 1) c3 with
        | None => raises run
        | Some c4 =>
            run =
            Ret tt (mkState
                      (mkVector
                         (mkRawMemory (map Live (xs1 ++ x :: mid ++ [l])
                                         ++ replicate (cap - n - 1) Raw) cap) n)
                      o d c4
                      (lg ++ ev0
                          :: EvMoveConstruct (At (Here, n - 1)) (At (Here, n))
                          :: move_backward_events (Here, n - 1) (Here, n) (length mid)
                          ++ [EvMoveAssign Local (At (Here, length xs1));
                              EvDestroy Local]))
        end
      end
    end
  end.
Proof.
  intros Hinit n run Hcap.
  assert (Hn : n = length xs1 + length mid + 1).
  { unfold n. rewrite !length_app. cbn [length]. lia. }
  unfold run, insert_in_place, with_new_item.
  rewrite bind_unfold, Hinit. cbn [countdown].
  destruct (spend t0 c) as [c1|]; [|apply raises_Raise].
  unfold vector_of. fold n. proj.
  rewrite (replicate_sub_S cap n) by lia.
  rewrite !app_assoc, map_app, <- !app_assoc. cbn [map app].
  set (raws := replicate (cap - n - 1) Raw).
  rewrite scope_unfold.
  unfold RawMemory_plus, RawMemory_Capacity, RawMemory_at, size_t_minus.
  repeat step.
  rewrite (proj2 (Nat.leb_le n cap)) by lia. repeat step.
  rewrite (proj2 (Nat.leb_le 1 n)) by lia. repeat step.
  unfold RawMemory_Capacity. repeat step.
  rewrite (proj2 (Nat.ltb_lt (n - 1) cap)) by lia. repeat step.
  rewrite !Nat.add_0_l.
  rewrite bind_unfold.
  match goal with |- context [T_move_construct _ _ ?s1] =>
    pose proof (T_move_construct_right Here (map Live (xs1 ++ mid)) l raws s1 eq_refl) as E
  end.
  rewrite length_map, length_app in E.
  replace (length xs1 + length mid) with (n - 1) in E by lia.
  replace (S (n - 1)) with n in E by lia.
  rewrite E. clear E. proj.
  destruct (spend (move_ticks 1) c1) as [c2|].
  2:{ eexists. reflexivity. }
  unfold end_, Size, get_size, pminus, move_backward, distance. repeat step.
  rewrite (proj2 (Nat.leb_le 1 (0 + n))) by lia. repeat step.
  rewrite (proj2 (Nat.leb_le (length xs1) (0 + n - 1))) by lia.
  cbn [andb]. repeat step.
  replace (0 + n - 1 - length xs1) with (length mid) by lia.
  rewrite bind_unfold.
  match goal with |- context [move_backward_n _ _ _ ?s1] =>
    pose proof (move_backward_n_spec Here (map Live xs1) mid (husk l) (Live l :: raws) s1) as E
  end.
  rewrite length_map in E.
  replace (length xs1 + length mid) with (0 + n - 1) in E by lia.
  replace (S (0 + n - 1)) with (0 + n) in E by lia.
  cbn [countdown] in E.
  destruct (spend (assign_ticks (length mid)) c2) as [c3|].
  2:{ destruct E as [s' ->]; [proj; rewrite map_app, <- app_assoc; reflexivity|].
      eexists. reflexivity. }
  rewrite E by (proj; rewrite map_app, <- app_assoc; reflexivity). clear E. proj.
  unfold RawMemory_at, RawMemory_Capacity. repeat step.
  rewrite (proj2 (Nat.ltb_lt (length xs1) cap)) by lia. repeat step.
  rewrite Nat.add_0_l.
  match goal with |- context [T_move_assign_from _ _ ?s1] =>
    pose proof (T_move_assign_from_spec Here (map Live xs1) (first_husk (husk l) mid) x
                  (map Live mid ++ Live l :: raws) s1 eq_refl) as E
  end.
  rewrite length_map in E. rewrite E. clear E. proj.
  destruct (spend (assign_ticks 1) c3) as [c4|].
  2:{ eexists. reflexivity. }
  unfold emit. repeat step. rewrite ?Nat.add_0_l.
  rewrite map_app. cbn [map]. rewrite map_app. cbn [map].
  rewrite <- !app_assoc. cbn [app]. rewrite <- !app_assoc. cbn [app]. reflexivity.
Qed.


End InsertInPlace.

Section InsertWith.
Context {T : Type} `{!Element T}.
Implicit Types (x value : T) (xs : list T) (o : Vector T) (d : RawMemory T).

Lemma Insert_with pos value :
  Insert pos value =
  insert_with pos (T_copy_construct_from value)
    (fun sz => insert_in_place sz pos (tick;; emit (EvCopyConstruct Local Local)) value).
Proof. reflexivity. Qed.

Lemma Insert_move_with pos value :
  Insert_move pos value =
  insert_with pos (T_move_construct_from value)
    (fun sz => insert_in_place sz pos
                 (tick_unless is_nothrow_move_constructible;;
                  emit (EvMoveConstruct Local Local)) value).
Proof. reflexivity. Qed.

Lemma Emplace_with pos x :
  Emplace pos x =
  insert_with pos (T_construct_from_args x)
    (fun sz => if pos =? sz then
                 p ← RawMemory_plus Here sz;
                 T_construct_from_args x p
               else insert_in_place sz pos (tick;; emit (EvConstruct Local)) x).
Proof. reflexivity. Qed.

Lemma inserted_vector xs1 x xs2 g :
  length (xs1 ++ xs2) < g ->
  mkVector (inserted_raw xs1 x xs2 g) (length (xs1 ++ xs2) + 1) =
  vector_of (xs1 ++ x :: xs2) g.
Proof.
  intros H. unfold inserted_raw, vector_of. rewrite !length_app. cbn [length].
  replace (g - (length xs1 + length xs2) - 1) with (g - (length xs1 + S (length xs2)))
    by lia.
  replace (length xs1 + length xs2 + 1) with (length xs1 + S (length xs2)) by lia.
  reflexivity.
Qed.

Lemma insert_with_grow construct in_place x t ev xs1 xs2 o d c lg :
  constructs construct x t ev ->
  let n := length (xs1 ++ xs2) in
  let g := grown n in
  let i := length xs1 in
  insert_with i construct in_place (mkState (vector_of (xs1 ++ xs2) n) o d c lg) =
  match spend 1 c with
  | None => Raise (mkState (vector_of (xs1 ++ xs2) n) o d None lg)
  | Some c1 =>
    match spend t c1 with
    | None =>
        Raise (mkState (vector_of (xs1 ++ xs2) n) o empty_raw None
                 (lg ++ [EvAllocate g; EvDeallocate g]))
    | Some c2 =>
      match spend (relocation_ticks i) c2 with
      | None =>
          Raise (mkState (vector_of (abandoned (passed c2) xs1 ++ xs2) n) o empty_raw None
                   (lg ++ EvAllocate g :: ev (At (New, i))
                       :: relocation_events (Here, 0) (New, 0) (passed c2)
                       ++ unwind_events (New, 0) (passed c2)
                       ++ [EvDeallocate g]))
      | Some c3 =>
        match spend (relocation_ticks (n - i)) c3 with
        | None =>
            Raise (mkState (vector_of (relocated xs1 ++ abandoned (passed c3) xs2) n)
                     o empty_raw None
                     (lg ++ EvAllocate g :: ev (At (New, i))
                         :: relocation_events (Here, 0) (New, 0) i
                         ++ relocation_events (Here, i) (New, S i) (passed c3)
                         ++ unwind_events (New, S i) (passed c3)
                         ++ [EvDeallocate g]))
        | Some c4 =>
            Ret (Here, i)
                (mkState (vector_of (xs1 ++ x :: xs2) g) o empty_raw c4
                      (lg ++ EvAllocate g :: ev (At (New, i))
                          :: relocation_events (Here, 0) (New, 0) i
                          ++ relocation_events (Here, i) (New, S i) (n - i)
                          ++ destroy_events (Here, 0) n))
        end
      end
    end
  end.
Proof.
  intros Hc n g i.
  pose proof (insert_growing_spec construct x t ev xs1 xs2 o d c lg Hc) as E.
  cbv zeta in E. fold n g i in E.
  assert (Hi : i <= n) by (unfold n, i; rewrite length_app; lia).
  unfold insert_with, Size, get_size, Capacity, RawMemory_Capacity.
  rewrite gets_bind. cbn [vec this]. rewrite size_vector_of. fold n.
  rewrite (proj2 (Nat.leb_le i n) Hi). rewrite assert_true_bind.
  rewrite gets_bind. cbn [raw_of this]. rewrite capacity_vector_of.
  rewrite Nat.eqb_refl. rewrite bind_unfold, E. clear E.
  destruct (spend 1 c) as [c1|]; [|reflexivity].
  destruct (spend t c1) as [c2|]; [|reflexivity].
  destruct (spend (relocation_ticks i) c2) as [c3|]; [|reflexivity].
  destruct (spend (relocation_ticks (n - i)) c3) as [c4|]; [|reflexivity].
  unfold set_size. repeat step. rewrite Nat.add_0_l.
  unfold n. rewrite inserted_vector by apply grown_gt. reflexivity.
Qed.

Lemma insert_with_in_place construct in_place pos xs cap o d c lg :
  pos <= length xs -> length xs < cap ->
  insert_with pos construct in_place (mkState (vector_of xs cap) o d c lg) =
  (in_place (length xs);; set_size Self (length xs + 1);; ret (Here, pos))
    (mkState (vector_of xs cap) o d c lg).
Proof.
  intros Hpos Hcap.
  unfold insert_with, Size, get_size, Capacity, RawMemory_Capacity.
  rewrite gets_bind. cbn [vec this]. rewrite size_vector_of.
  rewrite (proj2 (Nat.leb_le pos (length xs)) Hpos). rewrite assert_true_bind.
  rewrite gets_bind. cbn [raw_of this]. rewrite capacity_vector_of.
  rewrite (proj2 (Nat.eqb_neq cap (length xs))) by lia.
  unfold padd, begin, RawMemory_GetAddress. cbn [fst snd]. reflexivity.
Qed.

End InsertWith.

Section InsertInPlaceOps.
Context {T : Type} `{!Element T}.
Implicit Types (x value : T) (xs : list T) (o : Vector T) (d : RawMemory T).

Lemma Emplace_at_end_in_place xs x cap o d c lg :
  length xs < cap ->
  Emplace (length xs) x (mkState (vector_of xs cap) o d c lg) =
  match spend 1 c with
  | Some c1 =>
      Ret (Here, length xs)
          (mkState (vector_of (xs ++ [x]) cap) o d c1
             (lg ++ [EvConstruct (At (Here, length xs))]))
  | None => Raise (mkState (vector_of xs cap) o d None lg)
  end.
Proof.
  intros Hcap. rewrite Emplace_with, insert_with_in_place by lia.
  rewrite Nat.eqb_refl.
  pose proof (push_back_with_room (T_construct_from_args x) x 1 EvConstruct
                xs cap o d c lg Hcap (constructs_args x)) as E.
  unfold push_back_with, Capacity, RawMemory_Capacity, Size, get_size in E.
  rewrite !gets_bind in E. cbn [raw_of vec this] in E.
  rewrite capacity_vector_of, size_vector_of in E.
  rewrite (proj2 (Nat.eqb_neq cap (length xs))) in E by lia.
  rewrite <- bind_assoc. rewrite bind_unfold, E.
  destruct (spend 1 c) as [c1|]; reflexivity.
Qed.

Lemma insert_with_in_place_spec construct in_place init t0 ev0 x xs1 mid l cap o d c lg :
  initializes init t0 ev0 ->
  let n := length (xs1 ++ mid ++ [l]) in
  let run := insert_with (length xs1) construct in_place
               (mkState (vector_of (xs1 ++ mid ++ [l]) cap) o d c lg) in
  in_place n = insert_in_place n (length xs1) init x ->
  n < cap ->
  match spend t0 c with
  | None => raises run
  | Some c1 =>
    match spend (move_ticks 1) c1 with
    | None => raises run
    | Some c2 =>
      match spend (assign_ticks (length mid)) c2 with
      | None => raises run
      | Some c3 =>
        match spend (assign_ticks 1) c3 with
        | None => raises run
        | Some c4 =>
            run =
            Ret (Here, length xs1)
                (mkState (vector_of (xs1 ++ x :: mid ++ [l]) cap) o d c4
                      (lg ++ ev0
                          :: EvMoveConstruct (At (Here, n - 1)) (At (Here, n))
                          :: move_backward_events (Here, n - 1) (Here, n) (length mid)
                          ++ [EvMoveAssign Local (At (Here, length xs1));
                              EvDestroy Local]))
        end
      end
    end
  end.
Proof.
  intros Hinit n run Hin Hcap.
  pose proof (insert_in_place_spec init t0 ev0 x xs1 mid l cap o d c lg Hinit) as E.
  cbv zeta in E. fold n in E. specialize (E Hcap).
  assert (Hpos : length xs1 <= n) by (unfold n; rewrite length_app; lia).
  unfold run. rewrite insert_with_in_place by (fold n; lia). fold n. rewrite Hin.
  destruct (spend t0 c) as [c1|]; [|by apply bind_raises].
  destruct (spend (move_ticks 1) c1) as [c2|]; [|by apply bind_raises].
  destruct (spend (assign_ticks (length mid)) c2) as [c3|]; [|by apply bind_raises].
  destruct (spend (assign_ticks 1) c3) as [c4|]; [|by apply bind_raises].
  rewrite bind_unfold, E. unfold set_size. repeat step.
  f_equal. f_equal. unfold vector_of.
  assert (Hlen : length (xs1 ++ x :: mid ++ [l]) = n + 1).
  { unfold n. rewrite !length_app. cbn [length]. rewrite length_app. cbn [length]. lia. }
  rewrite Hlen. replace (cap - (n + 1)) with (cap - n - 1) by lia. reflexivity.
Qed.

(** With room to spare, the branch that inserts in place hands
    [std::move_backward] the range from [end()] to [end() - 1] when [pos]
    is [end()]. *)
Lemma insert_in_place_at_end init t0 ev0 x xs l cap o d lg :
  initializes init t0 ev0 ->
  length (xs ++ [l]) < cap ->
  insert_in_place (length (xs ++ [l])) (length (xs ++ [l])) init x
    (mkState (vector_of (xs ++ [l]) cap) o d None lg) = Undefined InvalidRange.
Proof.
  intros Hinit Hcap. set (n := length (xs ++ [l])) in *.
  assert (Hn : n = length xs + 1) by (unfold n; rewrite length_app; reflexivity).
  unfold insert_in_place, with_new_item.
  rewrite bind_unfold, Hinit. cbn [countdown spend].
  unfold vector_of. fold n. proj.
  rewrite (replicate_sub_S cap n) by lia.
  rewrite map_app, <- !app_assoc. cbn [map app].
  rewrite scope_unfold.
  unfold RawMemory_plus, RawMemory_Capacity, RawMemory_at, size_t_minus.
  repeat step.
  rewrite (proj2 (Nat.leb_le n cap)) by lia. repeat step.
  rewrite (proj2 (Nat.leb_le 1 n)) by lia. repeat step.
  unfold RawMemory_Capacity. repeat step.
  rewrite (proj2 (Nat.ltb_lt (n - 1) cap)) by lia. repeat step.
  rewrite !Nat.add_0_l.
  rewrite bind_unfold.
  match goal with |- context [T_move_construct _ _ ?s1] =>
    pose proof (T_move_construct_right Here (map Live xs) l
                  (replicate (cap - n - 1) Raw) s1 eq_refl) as E
  end.
  rewrite length_map in E.
  replace (length xs) with (n - 1) in E by lia.
  replace (S (n - 1)) with n in E by lia.
  rewrite E. clear E. proj. rewrite spend_None.
  unfold end_, Size, get_size, pminus, move_backward, distance. repeat step.
  rewrite (proj2 (Nat.leb_le 1 (0 + n))) by lia. repeat step.
  rewrite (proj2 (Nat.leb_gt n (0 + n - 1))) by lia.
  reflexivity.
Qed.

(** In an empty vector with room to spare, the same branch reads
    [data_[size_ - 1]] with [size_ - 1] wrapped around. *)
Lemma insert_in_place_empty init t0 ev0 x cap o d lg :
  initializes init t0 ev0 ->
  0 < cap ->
  insert_in_place 0 0 init x (mkState (vector_of [] cap) o d None lg) =
  Undefined AssertionFailed.
Proof.
  intros Hinit Hcap.
  unfold insert_in_place, with_new_item.
  rewrite bind_unfold, Hinit. cbn [countdown spend].
  unfold vector_of. proj.
  rewrite scope_unfold.
  unfold RawMemory_plus, RawMemory_Capacity, RawMemory_at, size_t_minus.
  repeat step. reflexivity.
Qed.

End InsertInPlaceOps.

(** * The claims *)

(** A vector that satisfies the invariant is [vector_of xs cap]. *)
Ltac canonical v Hv xs cap :=
  let Hcan := fresh "Hcan" in
  let Hxs := fresh "Hxs" in
  let Hcapq := fresh "Hcapq" in
  pose proof (invariant_canonical v Hv) as Hcan;
  pose proof (proj1 (proj2 Hv)) as Hle;
  remember (elements v) as xs eqn:Hxs;
  remember (capacity_ (data_ v)) as cap eqn:Hcapq;
  clear Hxs Hcapq; subst v;
  rewrite ?elements_vector_of, ?size_vector_of, ?capacity_vector_of in *.

(** ** Reserve *)

Section ReserveClaim.
Context {T : Type} `{!Element T}.
Variable sizeof : positive.


End ReserveClaim.


(** A count whose byte size wraps around for a [T] of 8 bytes:
    [2^61 + 1], for which [n * 8] is [8] in [size_t]. *)
Definition overflowing_count : nat := N.to_nat 2305843009213693953.

Lemma granted_overflowing_count : granted 8 overflowing_count = 1.
Proof.
  unfold granted, requested_bytes, overflowing_count.
  rewrite N2Nat.id.
  change (N.to_nat 1 = 1). reflexivity.
Qed.

Lemma overflowing_count_large : 2 < overflowing_count.
Proof. unfold overflowing_count. lia. Qed.

Lemma overflowing_count_does_not_fit : ~ fits 8 overflowing_count.
Proof.
  unfold fits, overflowing_count, SIZE_MAX. rewrite N2Nat.id. intros H.
  vm_compute in H. apply H. reflexivity.
Qed.

(** [Reserve(n)] above the capacity, where the block requested holds a
    single [long]: with one element the call returns, with [capacity_]
    equal to [n] over that block, and the invariant is lost; with two, the
    second is constructed past the end of the block. *)
Lemma Reserve_wrapping_short (n : nat) :
  2 < n -> granted 8 n = 1 ->
  (exists s',
     @Reserve_wrapping nat int_element 8 n (call (vector_of [1] 1) None) = Ret tt s' /\
     elements (this s') = [1] /\
     capacity_ (data_ (this s')) = n /\
     length (buffer_ (data_ (this s'))) = 1 /\
     ~ invariant (this s')) /\
  @Reserve_wrapping nat int_element 8 n (call (vector_of [1; 2] 2) None) =
    Undefined OutOfBounds.
Proof.
  intros Hn Hg.
  unfold Reserve_wrapping, with_new_data_wrapping, RawMemory_ctor_wrapping,
    Allocate_wrapping, RawMemory_Capacity, call, vector_of.
  rewrite !bind_unfold. unfold gets. cbn [raw_of this data_ capacity_].
  rewrite (proj2 (Nat.leb_gt n 1)) by lia.
  rewrite (proj2 (Nat.leb_gt n 2)) by lia.
  rewrite !bind_unfold.
  rewrite (proj2 (Nat.eqb_neq n 0)) by lia.
  rewrite Hg. split; [|reflexivity].
  exists (mkState (mkVector (mkRawMemory [Live 1] n) 1) empty_vector empty_raw None
            [EvAllocate n; EvMoveConstruct (At (Here, 0)) (At (New, 0));
             EvDestroy (At (Here, 0))]).
  split; [reflexivity|]. cbn [this data_ buffer_ capacity_ length].
  split_and!; try reflexivity.
  intros [Hlen _]. cbn [this data_ buffer_ capacity_ length] in Hlen. lia.
Qed.


(** With a single element the same call returns: [capacity_] is [n], over
    a block of one slot, and the invariant is lost. *)
Example overflowing_Reserve_returns :
  exists s',
    @Reserve_wrapping nat int_element 8 overflowing_count (call (vector_of [1] 1) None)
      = Ret tt s' /\
    elements (this s') = [1] /\
    capacity_ (data_ (this s')) = overflowing_count /\
    length (buffer_ (data_ (this s'))) = 1 /\
    ~ invariant (this s').
Proof.
  exact (proj1 (Reserve_wrapping_short overflowing_count overflowing_count_large
                  granted_overflowing_count)).
Qed.

(** ** Growth on push *)

Section PushClaim.
Context {T : Type} `{!Element T}.

Lemma grown_max n : grown n = Nat.max 1 (2 * n).
Proof. unfold grown. destruct n; simpl; lia. Qed.

Lemma push_back_with_grows construct x t ev (v o : Vector T) d c lg :
  constructs construct x t ev ->
  invariant v ->
  size_ v = capacity_ (data_ v) ->
  (forall s', push_back_with construct (mkState v o d c lg) = Ret tt s' ->
     this s' = vector_of (elements v ++ [x]) (Nat.max 1 (2 * capacity_ (data_ v)))) /\
  (exists s', push_back_with construct (mkState v o d None lg) = Ret tt s').
Proof.
  intros Hc Hv Hfull. canonical v Hv xs cap. subst cap.
  rewrite !(push_back_with_grow construct x t ev) by assumption. split.
  - intros s'.
    destruct (spend 1 c) as [c1|]; [|discriminate].
    destruct (spend t c1) as [c2|]; [|discriminate].
    destruct (spend _ c2) as [c3|]; [|discriminate].
    intros [= <-]. cbn [this]. rewrite grown_max. reflexivity.
  - rewrite !spend_None. eexists. reflexivity.
Qed.

End PushClaim.

(** C7.  With [size == capacity], whenever [PushBack] (either overload) or
    [EmplaceBack] returns, the capacity is [max(1, 2 * capacity)] and the
    new element follows the old ones; each of them returns when no
    exception is scheduled.  Five pushes into an empty vector of [int]
    show the capacities 0, 1, 2, 4, 4, 8. *)
Theorem push_back_doubles_capacity (T : Type) (E : Element T)
    (v o : Vector T) (d : RawMemory T) (c : option nat) (lg : list event) (x : T) :
  invariant v ->
  size_ v = capacity_ (data_ v) ->
  let grown_v := vector_of (elements v ++ [x]) (Nat.max 1 (2 * capacity_ (data_ v))) in
  (forall s', PushBack x (mkState v o d c lg) = Ret tt s' -> this s' = grown_v) /\
  (forall s', PushBack_move x (mkState v o d c lg) = Ret tt s' -> this s' = grown_v) /\
  (forall p s', EmplaceBack x (mkState v o d c lg) = Ret p s' ->
     this s' = grown_v /\ p = (Here, size_ v)) /\
  (exists s', PushBack x (mkState v o d None lg) = Ret tt s') /\
  (exists s', PushBack_move x (mkState v o d None lg) = Ret tt s') /\
  (exists p s', EmplaceBack x (mkState v o d None lg) = Ret p s') /\
  capacity_ (data_ grown_v) = Nat.max 1 (2 * capacity_ (data_ v)) /\
  capacities [@PushBack nat int_element 1; @PushBack nat int_element 2;
              @PushBack nat int_element 3; @PushBack nat int_element 4;
              @PushBack nat int_element 5] empty_vector = [0; 1; 2; 4; 4; 8].
Proof.
  intros Hv Hfull grown_v.
  destruct (push_back_with_grows _ x _ _ v o d c lg (constructs_copy x) Hv Hfull)
    as [Hcopy Hcopy'].
  destruct (push_back_with_grows _ x _ _ v o d c lg (constructs_move x) Hv Hfull)
    as [Hmove Hmove'].
  destruct (push_back_with_grows _ x _ _ v o d c lg (constructs_args x) Hv Hfull)
    as [Hargs Hargs'].
  assert (Hret : forall c' s1,
    push_back_with (T_construct_from_args x) (mkState v o d c' lg) = Ret tt s1 ->
    this s1 = grown_v ->
    EmplaceBack x (mkState v o d c' lg) = Ret (Here, size_ v) s1).
  { intros c' s1 Hs1 Hthis. rewrite EmplaceBack_shared, bind_unfold, Hs1.
    destruct s1 as [v1 o1 d1 c1 lg1]. cbn [this] in Hthis. subst v1.
    unfold grown_v. rewrite <- (invariant_size v Hv).
    apply EmplaceBack_return.
    rewrite (invariant_size v Hv), Hfull. lia. }
  split_and!; try assumption; try reflexivity.
  - intros p s' H. rewrite EmplaceBack_shared, bind_unfold in H.
    destruct (push_back_with (T_construct_from_args x) (mkState v o d c lg))
      as [[] s1|s1|f] eqn:Hs1; try discriminate.
    pose proof (Hargs s1 eq_refl) as Hthis.
    pose proof (Hret c s1 Hs1 Hthis) as Hr.
    rewrite EmplaceBack_shared, bind_unfold, Hs1 in Hr.
    rewrite Hr in H. injection H as <- <-. split; [exact Hthis|reflexivity].
  - destruct Hargs' as [s1 Hs1].
    destruct (push_back_with_grows _ x _ _ v o d None lg (constructs_args x) Hv Hfull)
      as [Hargs0 _].
    exists (Here, size_ v), s1. apply Hret; [exact Hs1|]. apply Hargs0. exact Hs1.
Qed.

(** The theorem at the full vector [[1; 2]]. *)
Lemma push_back_doubles_capacity_witness :
  invariant (vector_of [1; 2] 2) /\
  size_ (vector_of [1; 2] 2) = capacity_ (data_ (vector_of [1; 2] 2)) /\
  exists s', @PushBack nat int_element 3 (call (vector_of [1; 2] 2) None) = Ret tt s'.
Proof.
  assert (H : invariant (vector_of [1; 2] 2))
    by (apply invariantb_sound; reflexivity).
  split; [exact H|]. split; [reflexivity|].
  apply (push_back_doubles_capacity nat int_element
           (vector_of [1; 2] 2) empty_vector empty_raw None [] 3 H eq_refl).
Defined.

(** ** The strong guarantee of the growth paths *)

Section StrongGuarantee.
Context {T : Type} `{!Element T}.
Implicit Types (x : T) (xs : list T) (v o : Vector T) (d : RawMemory T).

Hypothesis copyable : is_copy_constructible = true.
Hypothesis move_may_throw : is_nothrow_move_constructible = false.








End StrongGuarantee.



(** One step later the second copy of the relocation throws: the copy
    already made is destroyed, the block is released with the new element
    still in it, and the vector is as before. *)
Example PushBack_throws_mid_copy :
  @PushBack tracked throwing_element (Val 3)
    (mkState (vector_of [Val 1; Val 2] 2) empty_vector empty_raw (Some 3) []) =
  Raise (mkState (vector_of [Val 1; Val 2] 2) empty_vector empty_raw None
           [EvAllocate 4; EvCopyConstruct Local (At (New, 2));
            EvCopyConstruct (At (Here, 0)) (At (New, 0));
            EvDestroy (At (New, 0)); EvDeallocate 4]).
Proof. reflexivity. Qed.

(** ** The transfer policy *)

Section Policy.
Context {T : Type} `{!Element T}.
Implicit Types (x : T) (xs : list T) (v o : Vector T) (d : RawMemory T).

Lemma relocations_app l1 l2 : relocations (l1 ++ l2) = relocations l1 ++ relocations l2.
Proof. apply List.filter_app. Qed.

Lemma relocations_copy_events i j n :
  relocations (copy_events (Here, i) (New, j) n) = copy_events (Here, i) (New, j) n.
Proof.
  revert i j. induction n as [|n IH]; intros i j; [reflexivity|].
  cbn [copy_events]. unfold padd. cbn [fst snd].
  unfold relocations. cbn [List.filter is_relocation]. f_equal. apply IH.
Qed.

Lemma relocations_move_events i j n :
  relocations (move_events (Here, i) (New, j) n) = move_events (Here, i) (New, j) n.
Proof.
  revert i j. induction n as [|n IH]; intros i j; [reflexivity|].
  cbn [move_events]. unfold padd. cbn [fst snd].
  unfold relocations. cbn [List.filter is_relocation]. f_equal. apply IH.
Qed.

Lemma relocations_destroy_events p n : relocations (destroy_events p n) = [].
Proof.
  revert p. induction n as [|n IH]; intros p; [reflexivity|].
  cbn [destroy_events]. unfold relocations. cbn [List.filter is_relocation]. apply IH.
Qed.

Lemma relocations_relocation_events i j n :
  relocations (relocation_events (Here, i) (New, j) n) =
  if is_nothrow_move_constructible || negb is_copy_constructible
  then move_events (Here, i) (New, j) n
  else copy_events (Here, i) (New, j) n.
Proof.
  unfold relocation_events, relocates_by_move.
  destruct (is_nothrow_move_constructible || negb is_copy_constructible).
  - apply relocations_move_events.
  - apply relocations_copy_events.
Qed.

Lemma Reserve_relocates xs cap n o d lg :
  length xs <= cap -> cap < n ->
  relocates_as lg
    (if is_nothrow_move_constructible || negb is_copy_constructible
     then move_events (Here, 0) (New, 0) (length xs)
     else copy_events (Here, 0) (New, 0) (length xs))
    (fun c => Reserve n (mkState (vector_of xs cap) o d c lg)).
Proof.
  intros H1 H2. split.
  - intros c r s'. rewrite Reserve_spec by assumption.
    destruct (spend 1 c) as [c1|]; [|discriminate].
    destruct (spend _ c1) as [c2|]; [|discriminate].
    intros [= _ <-]. cbn [log].
    rewrite relocations_app. f_equal.
    change (EvAllocate n :: ?l) with ([EvAllocate n] ++ l).
    rewrite !relocations_app, relocations_relocation_events, relocations_destroy_events.
    rewrite app_nil_r. reflexivity.
  - rewrite Reserve_spec by assumption. rewrite !spend_None. eexists _, _. reflexivity.
Qed.

Lemma push_back_with_relocates construct x t ev xs o d lg :
  constructs construct x t ev ->
  fresh_event ev ->
  relocates_as lg
    (if is_nothrow_move_constructible || negb is_copy_constructible
     then move_events (Here, 0) (New, 0) (length xs)
     else copy_events (Here, 0) (New, 0) (length xs))
    (fun c => push_back_with construct (mkState (vector_of xs (length xs)) o d c lg)).
Proof.
  intros Hc Hev. split.
  - intros c r s'. rewrite (push_back_with_grow construct x t ev) by assumption.
    destruct (spend 1 c) as [c1|]; [|discriminate].
    destruct (spend t c1) as [c2|]; [|discriminate].
    destruct (spend _ c2) as [c3|]; [|discriminate].
    intros [= _ <-]. cbn [log].
    rewrite relocations_app. f_equal.
    change (EvAllocate ?g :: ?e :: ?l) with ([EvAllocate g] ++ [e] ++ l).
    rewrite !relocations_app, relocations_relocation_events, relocations_destroy_events.
    unfold relocations at 2. cbn [List.filter]. rewrite Hev.
    rewrite app_nil_r. reflexivity.
  - rewrite (push_back_with_grow construct x t ev) by assumption.
    rewrite !spend_None. eexists _, _. reflexivity.
Qed.

Lemma insert_with_relocates construct in_place x t ev xs1 xs2 o d lg :
  constructs construct x t ev ->
  fresh_event ev ->
  relocates_as lg
    ((if is_nothrow_move_constructible || negb is_copy_constructible
      then move_events (Here, 0) (New, 0) (length xs1)
      else copy_events (Here, 0) (New, 0) (length xs1)) ++
     (if is_nothrow_move_constructible || negb is_copy_constructible
      then move_events (Here, length xs1) (New, S (length xs1)) (length xs2)
      else copy_events (Here, length xs1) (New, S (length xs1)) (length xs2)))
    (fun c => insert_with (length xs1) construct in_place
                (mkState (vector_of (xs1 ++ xs2) (length (xs1 ++ xs2))) o d c lg)).
Proof.
  intros Hc Hev.
  assert (Hn : length (xs1 ++ xs2) - length xs1 = length xs2)
    by (rewrite length_app; lia).
  split.
  - intros c r s'. rewrite (insert_with_grow construct in_place x t ev) by assumption.
    destruct (spend 1 c) as [c1|]; [|discriminate].
    destruct (spend t c1) as [c2|]; [|discriminate].
    destruct (spend _ c2) as [c3|]; [|discriminate].
    destruct (spend _ c3) as [c4|]; [|discriminate].
    intros [= _ <-]. cbn [log].
    rewrite relocations_app. f_equal.
    change (EvAllocate ?g :: ?e :: ?l) with ([EvAllocate g] ++ [e] ++ l).
    rewrite !relocations_app, !relocations_relocation_events, relocations_destroy_events.
    unfold relocations at 2. cbn [List.filter]. rewrite Hev.
    rewrite app_nil_r, Hn. reflexivity.
  - rewrite (insert_with_grow construct in_place x t ev) by assumption.
    rewrite !spend_None. eexists _, _. reflexivity.
Qed.

Lemma relocates_into_intro {R} lg expected (result : Vector T)
    (run : option nat -> outcome (state T) R) :
  relocates_as lg expected run ->
  (forall c r s', run c = Ret r s' -> this s' = result) ->
  relocates_into lg expected result run.
Proof.
  intros [Hlog Hex] Hthis. split; [|exact Hex].
  intros c r s' H. split; [exact (Hlog c r s' H)|exact (Hthis c r s' H)].
Qed.

Lemma Reserve_returns_block xs cap n o d lg c r s' :
  length xs <= cap -> cap < n ->
  Reserve n (mkState (vector_of xs cap) o d c lg) = Ret r s' ->
  this s' = vector_of xs n.
Proof.
  intros H1 H2. rewrite Reserve_spec by assumption.
  destruct (spend 1 c) as [c1|]; [|discriminate].
  destruct (spend _ c1) as [c2|]; [|discriminate].
  intros [= _ <-]. reflexivity.
Qed.

Lemma push_back_with_returns_block construct x t ev xs o d lg c r s' :
  constructs construct x t ev ->
  push_back_with construct (mkState (vector_of xs (length xs)) o d c lg) = Ret r s' ->
  this s' = vector_of (xs ++ [x]) (grown (length xs)).
Proof.
  intros Hc. rewrite (push_back_with_grow construct x t ev) by assumption.
  destruct (spend 1 c) as [c1|]; [|discriminate].
  destruct (spend t c1) as [c2|]; [|discriminate].
  destruct (spend _ c2) as [c3|]; [|discriminate].
  intros [= _ <-]. reflexivity.
Qed.

Lemma insert_with_returns_block construct in_place x t ev xs1 xs2 o d lg c r s' :
  constructs construct x t ev ->
  insert_with (length xs1) construct in_place
    (mkState (vector_of (xs1 ++ xs2) (length (xs1 ++ xs2))) o d c lg) = Ret r s' ->
  this s' = vector_of (xs1 ++ x :: xs2) (grown (length (xs1 ++ xs2))).
Proof.
  intros Hc. rewrite (insert_with_grow construct in_place x t ev) by assumption.
  destruct (spend 1 c) as [c1|]; [|discriminate].
  destruct (spend t c1) as [c2|]; [|discriminate].
  destruct (spend _ c2) as [c3|]; [|discriminate].
  destruct (spend _ c3) as [c4|]; [|discriminate].
  intros [= _ <-]. reflexivity.
Qed.

End Policy.

(** C3.  On every path that grows the storage -- [Reserve] above the
    capacity, and with [size == capacity] both [PushBack]s, [EmplaceBack],
    both [Insert]s and [Emplace] -- the existing elements are relocated
    into the new block by move construction when [T]'s move constructor
    cannot throw or [T] is not copy-constructible, and by copy construction
    otherwise.  Whenever the call returns, its relocations are exactly
    those, from the old block into the new one in index order, the
    elements from [pos] on landing one slot further in an insertion; and
    [*this] then holds the new block, of the capacity requested, whose
    first slots hold the elements of [v] with their values, in their order,
    with [x] after them or at [pos], and whose other slots are raw.  Each
    call returns when no exception is scheduled.  The count given to
    [Reserve] is one whose byte size [n * sizeof(T)] fits [size_t]. *)
Theorem relocation_policy (T : Type) (E : Element T) (sizeof : positive)
    (v o : Vector T) (d : RawMemory T) (lg : list event) :
  invariant v ->
  let transfer src dst n :=
    if is_nothrow_move_constructible || negb is_copy_constructible
    then move_events src dst n else copy_events src dst n in
  let all := transfer (Here, 0) (New, 0) (size_ v) in
  let around pos :=
    transfer (Here, 0) (New, 0) pos ++ transfer (Here, pos) (New, S pos) (size_ v - pos) in
  let g := if size_ v =? 0 then 1 else size_ v * 2 in
  (forall n, capacity_ (data_ v) < n -> fits sizeof n ->
     relocates_into lg all (vector_of (elements v) n)
       (fun c => Reserve_wrapping sizeof n (mkState v o d c lg))) /\
  (size_ v = capacity_ (data_ v) ->
   forall x,
     let pushed := vector_of (elements v ++ [x]) g in
     relocates_into lg all pushed (fun c => PushBack x (mkState v o d c lg)) /\
     relocates_into lg all pushed (fun c => PushBack_move x (mkState v o d c lg)) /\
     relocates_into lg all pushed (fun c => EmplaceBack x (mkState v o d c lg)) /\
     forall pos, pos <= size_ v ->
       let put := vector_of (take pos (elements v) ++ x :: drop pos (elements v)) g in
       relocates_into lg (around pos) put (fun c => Insert pos x (mkState v o d c lg)) /\
       relocates_into lg (around pos) put (fun c => Insert_move pos x (mkState v o d c lg)) /\
       relocates_into lg (around pos) put (fun c => Emplace pos x (mkState v o d c lg))).
Proof.
  intros Hv transfer all around g. canonical v Hv xs cap.
  unfold all, around, transfer, g. clear all around transfer g.
  rewrite ?size_vector_of. fold (grown (length xs)). split.
  - intros n Hn Hfit. rewrite Reserve_wrapping_fits by exact Hfit.
    apply relocates_into_intro.
    + apply Reserve_relocates; assumption.
    + intros c r s'. apply Reserve_returns_block; assumption.
  - intros Hfull x. subst cap. cbv zeta. split_and!.
    + apply relocates_into_intro.
      * apply (push_back_with_relocates _ x 1 (EvCopyConstruct Local)).
        -- apply constructs_copy.
        -- intros p. reflexivity.
      * intros c r s'.
        apply (push_back_with_returns_block _ x 1 (EvCopyConstruct Local)).
        apply constructs_copy.
    + apply relocates_into_intro.
      * apply (push_back_with_relocates _ x (move_ticks 1) (EvMoveConstruct Local)).
        -- apply constructs_move.
        -- intros p. reflexivity.
      * intros c r s'.
        apply (push_back_with_returns_block _ x (move_ticks 1) (EvMoveConstruct Local)).
        apply constructs_move.
    + pose proof (push_back_with_relocates (T_construct_from_args x) x 1 EvConstruct
                    xs o d lg (constructs_args x) (fun p => eq_refl)) as [Hret Hex].
      assert (Hshape : forall c s1,
        push_back_with (T_construct_from_args x)
          (mkState (vector_of xs (length xs)) o d c lg) = Ret tt s1 ->
        EmplaceBack x (mkState (vector_of xs (length xs)) o d c lg) =
        Ret (Here, length xs) s1).
      { intros c s1 Hs1. rewrite EmplaceBack_shared, bind_unfold, Hs1.
        rewrite (push_back_with_grow _ x 1 EvConstruct) in Hs1 by apply constructs_args.
        destruct (spend 1 c) as [c1|]; [|discriminate].
        destruct (spend 1 c1) as [c2|]; [|discriminate].
        destruct (spend _ c2) as [c3|]; [|discriminate].
        injection Hs1 as <-. apply EmplaceBack_return. apply grown_gt. }
      split.
      * intros c r s' H. rewrite EmplaceBack_shared, bind_unfold in H.
        destruct (push_back_with (T_construct_from_args x)
                    (mkState (vector_of xs (length xs)) o d c lg))
          as [[] s1|s1|f] eqn:Hs1; try discriminate.
        pose proof (Hshape c s1 Hs1) as Hs.
        rewrite EmplaceBack_shared, bind_unfold, Hs1 in Hs. rewrite Hs in H.
        injection H as _ <-. split; [exact (Hret c tt s1 Hs1)|].
        exact (push_back_with_returns_block _ x 1 EvConstruct xs o d lg c tt s1
                 (constructs_args x) Hs1).
      * destruct Hex as ([] & s1 & Hs1). exists (Here, length xs), s1.
        apply Hshape. exact Hs1.
    + intros pos Hpos.
      assert (Hxs : xs = take pos xs ++ drop pos xs) by (symmetry; apply take_drop).
      assert (Hlen : pos = length (take pos xs)) by (rewrite length_take; lia).
      assert (Hrest : length xs - pos = length (drop pos xs)) by (rewrite length_drop; lia).
      rewrite Hrest. clear Hrest.
      revert Hxs Hlen. generalize (take pos xs) (drop pos xs). intros xs1 xs2 -> ->.
      rewrite Insert_with, Insert_move_with, Emplace_with. split_and!.
      * apply relocates_into_intro.
        -- apply (insert_with_relocates _ _ x 1 (EvCopyConstruct Local)).
           ++ apply constructs_copy.
           ++ intros p. reflexivity.
        -- intros c r s'.
           apply (insert_with_returns_block _ _ x 1 (EvCopyConstruct Local)).
           apply constructs_copy.
      * apply relocates_into_intro.
        -- apply (insert_with_relocates _ _ x (move_ticks 1) (EvMoveConstruct Local)).
           ++ apply constructs_move.
           ++ intros p. reflexivity.
        -- intros c r s'.
           apply (insert_with_returns_block _ _ x (move_ticks 1) (EvMoveConstruct Local)).
           apply constructs_move.
      * apply relocates_into_intro.
        -- apply (insert_with_relocates _ _ x 1 EvConstruct).
           ++ apply constructs_args.
           ++ intros p. reflexivity.
        -- intros c r s'.
           apply (insert_with_returns_block _ _ x 1 EvConstruct).
           apply constructs_args.
Qed.

(** The theorem at the full vector [[Val 1; Val 2]] of a type that is
    copied on growth and takes 8 bytes. *)
Lemma relocation_policy_witness :
  invariant (vector_of [Val 1; Val 2] 2) /\
  fits 8 3 /\
  relocates_into []
    [EvCopyConstruct (At (Here, 0)) (At (New, 0));
     EvCopyConstruct (At (Here, 1)) (At (New, 1))]
    (vector_of [Val 1; Val 2] 3)
    (fun c => @Reserve_wrapping tracked throwing_element 8 3
                (mkState (vector_of [Val 1; Val 2] 2) empty_vector empty_raw c [])).
Proof.
  assert (H : invariant (vector_of [Val 1; Val 2] 2))
    by (apply invariantb_sound; reflexivity).
  assert (Hfit : fits 8 3) by (vm_compute; discriminate).
  split; [exact H|]. split; [exact Hfit|].
  exact (proj1 (relocation_policy tracked throwing_element 8
                  (vector_of [Val 1; Val 2] 2) empty_vector empty_raw [] H)
               3 (le_n 3) Hfit).
Defined.

(** The same call for a type with a non-throwing move constructor, and for
    a move-only type whose move constructor may throw: both are moved. *)
Example Reserve_moves_nothrow :
  relocations (match @Reserve tracked string_like_element 3
                       (call (vector_of [Val 1; Val 2] 2) None) with
               | Ret _ s => log s
               | _ => []
               end) =
  [EvMoveConstruct (At (Here, 0)) (At (New, 0));
   EvMoveConstruct (At (Here, 1)) (At (New, 1))].
Proof. reflexivity. Qed.

Example Reserve_moves_move_only :
  relocations (match @Reserve tracked move_only_element 3
                       (call (vector_of [Val 1; Val 2] 2) None) with
               | Ret _ s => log s
               | _ => []
               end) =
  [EvMoveConstruct (At (Here, 0)) (At (New, 0));
   EvMoveConstruct (At (Here, 1)) (At (New, 1))].
Proof. reflexivity. Qed.

(** ** Erase *)

Section EraseClaim.
Context {T : Type} `{!Element T}.
Implicit Types (x : T) (xs : list T) (v o : Vector T) (d : RawMemory T).

Lemma lookup_removed xs pos i :
  (take pos xs ++ drop (S pos) xs) !! i =
  if decide (i < pos) then xs !! i else xs !! S i.
Proof.
  destruct (decide (pos <= length xs)) as [Hp|Hp].
  - destruct (decide (i < pos)) as [Hi|Hi].
    + rewrite lookup_app_l by (rewrite length_take; lia).
      apply lookup_take_lt. exact Hi.
    + rewrite lookup_app_r by (rewrite length_take; lia).
      rewrite length_take, lookup_drop. f_equal. lia.
  - rewrite take_ge, drop_ge, app_nil_r by lia.
    destruct (decide (i < pos)); [reflexivity|].
    rewrite !lookup_ge_None_2 by lia. reflexivity.
Qed.

End EraseClaim.

(** C8.  For a position [pos] of [[begin, end)], whenever [Erase(pos)]
    returns, it returns [begin() + pos]; the size is one less and the
    capacity the same; the elements before [pos] are unchanged and each
    element formerly at an index [i + 1] of [[pos + 1, size)] is at [i], in
    the same order; what it has done is to move-assign each of those
    elements one slot to the left, in ascending order, and then to destroy
    the object in the last slot; the invariant holds.  It does return when
    no exception is scheduled. *)
Theorem Erase_removes_one (T : Type) (E : Element T)
    (v o : Vector T) (d : RawMemory T) (c : option nat) (lg : list event) (pos : nat) :
  invariant v ->
  pos < size_ v ->
  (forall p s', Erase pos (mkState v o d c lg) = Ret p s' ->
     p = (Here, pos) /\
     size_ (this s') = size_ v - 1 /\
     capacity_ (data_ (this s')) = capacity_ (data_ v) /\
     elements (this s') = take pos (elements v) ++ drop (S pos) (elements v) /\
     (forall i, i < pos -> elements (this s') !! i = elements v !! i) /\
     (forall i, pos <= i -> elements (this s') !! i = elements v !! S i) /\
     log s' = lg ++ move_assign_events (Here, S pos) (Here, pos) (size_ v - pos - 1)
                 ++ [EvDestroy (At (Here, size_ v - 1))] /\
     invariant (this s')) /\
  (exists p s', Erase pos (mkState v o d None lg) = Ret p s').
Proof.
  intros Hv Hpos. canonical v Hv xs cap.
  destruct (lookup_lt_is_Some_2 xs pos Hpos) as [a Ha].
  pose proof (take_drop_middle xs pos a Ha) as Hsplit.
  assert (Hlen : length (take pos xs) = pos) by (rewrite length_take; lia).
  assert (Hrest : length (drop (S pos) xs) = length xs - pos - 1)
    by (rewrite length_drop; lia).
  assert (Hcap : length (take pos xs ++ a :: drop (S pos) xs) <= cap)
    by (rewrite Hsplit; exact Hle).
  assert (Hshort : length (take pos xs ++ drop (S pos) xs) = length xs - 1)
    by (rewrite length_app; lia).
  split.
  - intros p s' H.
    pose proof (Erase_spec (take pos xs) a (drop (S pos) xs) cap o d c lg Hcap) as Hrun.
    rewrite Hsplit, Hlen, Hrest, Hshort in Hrun.
    destruct (spend _ c) as [c'|].
    + rewrite Hrun in H. injection H as <- <-. cbn [this log].
      rewrite capacity_vector_of, size_vector_of, elements_vector_of.
      split_and!; try reflexivity.
      * exact Hshort.
      * intros i Hi. rewrite lookup_removed. rewrite decide_True by assumption. reflexivity.
      * intros i Hi. rewrite lookup_removed. rewrite decide_False by lia. reflexivity.
      * apply invariant_vector_of. lia.
    + destruct Hrun as [s'' Hrun]. rewrite Hrun in H. discriminate.
  - pose proof (Erase_spec (take pos xs) a (drop (S pos) xs) cap o d None lg Hcap) as Hrun.
    rewrite Hsplit, Hlen in Hrun. rewrite spend_None in Hrun. eexists _, _. exact Hrun.
Qed.

(** The theorem at position 1 of [[1; 2; 3]]. *)
Lemma Erase_removes_one_witness :
  invariant (vector_of [1; 2; 3] 4) /\
  1 < size_ (vector_of [1; 2; 3] 4) /\
  exists p s', @Erase nat int_element 1 (call (vector_of [1; 2; 3] 4) None) = Ret p s'.
Proof.
  assert (H : invariant (vector_of [1; 2; 3] 4))
    by (apply invariantb_sound; reflexivity).
  assert (Hpos : 1 < size_ (vector_of [1; 2; 3] 4)) by (simpl; lia).
  split; [exact H|]. split; [exact Hpos|].
  exact (proj2 (Erase_removes_one nat int_element
                  (vector_of [1; 2; 3] 4) empty_vector empty_raw None [] 1 H Hpos)).
Defined.

Example Erase_middle :
  @Erase nat int_element 1 (call (vector_of [1; 2; 3] 4) None) =
  Ret (Here, 1)
      (mkState (vector_of [1; 3] 4) empty_vector empty_raw None
         [EvMoveAssign (At (Here, 2)) (At (Here, 1)); EvDestroy (At (Here, 2))]).
Proof. reflexivity. Qed.

(** ** Erase at the end *)

Section EraseEnd.
Context {T : Type} `{!Element T}.
Implicit Types (x : T) (xs : list T) (v o : Vector T) (d : RawMemory T).

Lemma assign_ticks_0 : assign_ticks 0 = 0.
Proof. unfold assign_ticks. destruct is_nothrow_move_assignable; reflexivity. Qed.

(** At [end()] and beyond, [std::move] is handed a range whose end is not
    reachable from its start. *)
Lemma Erase_past_end xs cap pos o d c lg :
  length xs <= pos ->
  Erase pos (mkState (vector_of xs cap) o d c lg) = Undefined InvalidRange.
Proof.
  intros Hpos.
  unfold Erase, end_, Size, get_size, std_move, distance, vector_of.
  repeat step.
  rewrite (proj2 (Nat.leb_gt (0 + pos + 1) (0 + length xs))) by lia.
  reflexivity.
Qed.

Lemma Erase_last xs l cap o d c lg :
  length (xs ++ [l]) <= cap ->
  Erase (length xs) (mkState (vector_of (xs ++ [l]) cap) o d c lg) =
  Ret (Here, length xs)
      (mkState (vector_of xs cap) o d c (lg ++ [EvDestroy (At (Here, length xs))])).
Proof.
  intros Hcap.
  pose proof (Erase_spec xs l [] cap o d c lg Hcap) as Hrun.
  cbn [length] in Hrun. rewrite assign_ticks_0, spend_0 in Hrun.
  rewrite Hrun. rewrite app_nil_r. reflexivity.
Qed.

End EraseEnd.

(** C10, as stated, fails: on the vector [[1; 2]] of capacity 4,
    [Erase(end())] has no defined result, while [PopBack] returns. *)
Lemma Erase_end_is_not_PopBack :
  ~ (exists p s' s'',
       @Erase nat int_element 2 (call (vector_of [1; 2] 4) None) = Ret p s' /\
       @PopBack nat (call (vector_of [1; 2] 4) None) = Ret tt s'' /\
       this s' = this s'').
Proof.
  intros (p & s' & s'' & H & _). discriminate H.
Qed.

(** C10, amended.  [Erase] asserts nothing about [pos].  On a non-empty
    vector, [Erase] at the last element, [end() - 1], has the state effect
    of [PopBack]: both return, in the same state, the last element
    destroyed, the size one less and the other elements unchanged.  At
    [end()] and beyond, [Erase] reaches [std::move] with a range that is not
    valid: no assertion fails, and the result is undefined. *)
Theorem Erase_last_is_PopBack (T : Type) (E : Element T)
    (v o : Vector T) (d : RawMemory T) (c : option nat) (lg : list event) :
  invariant v ->
  0 < size_ v ->
  (exists s',
     PopBack (mkState v o d c lg) = Ret tt s' /\
     Erase (size_ v - 1) (mkState v o d c lg) = Ret (Here, size_ v - 1) s' /\
     size_ (this s') = size_ v - 1 /\
     elements (this s') = take (size_ v - 1) (elements v) /\
     log s' = lg ++ [EvDestroy (At (Here, size_ v - 1))]) /\
  (forall pos, size_ v <= pos ->
     Erase pos (mkState v o d c lg) = Undefined InvalidRange).
Proof.
  intros Hv Hpos. canonical v Hv xs cap. split.
  - destruct xs as [|l xs _] using rev_ind; [simpl in Hpos; lia|].
    assert (Hlt : length xs < cap) by (rewrite length_app in Hle; simpl in Hle; lia).
    rewrite length_app. cbn [length].
    replace (length xs + 1 - 1) with (length xs) by lia.
    eexists. split; [apply PopBack_spec; exact Hlt|].
    split; [apply Erase_last; exact Hle|].
    cbn [this log]. rewrite size_vector_of, elements_vector_of.
    split_and!; try reflexivity.
    rewrite take_app_length. reflexivity.
  - intros pos Hp. apply Erase_past_end. exact Hp.
Qed.

(** The theorem at [[1; 2]]. *)
Lemma Erase_last_is_PopBack_witness :
  invariant (vector_of [1; 2] 4) /\
  0 < size_ (vector_of [1; 2] 4) /\
  @Erase nat int_element 2 (call (vector_of [1; 2] 4) None) = Undefined InvalidRange.
Proof.
  assert (H : invariant (vector_of [1; 2] 4))
    by (apply invariantb_sound; reflexivity).
  assert (Hpos : 0 < size_ (vector_of [1; 2] 4)) by (simpl; lia).
  split; [exact H|]. split; [exact Hpos|].
  exact (proj2 (Erase_last_is_PopBack nat int_element
                  (vector_of [1; 2] 4) empty_vector empty_raw None [] H Hpos)
               2 (le_n 2)).
Defined.

(** ** Moving a vector *)

(** C4, as stated, fails for move assignment: assigning the vector
    [[1; 2]] to the vector [[7]] does not leave the source with size 0. *)
Lemma move_assign_source_not_emptied :
  ~ (exists s',
       @move_assign nat Other (call2 (vector_of [7] 1) (vector_of [1; 2] 2) None)
         = Ret tt s' /\
       elements (this s') = [1; 2] /\
       size_ (other s') = 0).
Proof.
  intros (s' & H & _ & Hsize). injection H as <-. discriminate Hsize.
Qed.

(** C4, amended.  Move construction from a vector [w] makes [*this] the
    vector [w] was -- its storage, hence its size and its elements at the
    same indices -- and leaves [w] with size 0 and no storage.  Move
    assignment from a distinct vector [w] swaps: [*this] becomes what [w]
    was, and [w] becomes what [*this] was, so its size afterwards is the
    size [*this] had, 0 only when the destination was empty.  Move
    assignment of a vector to itself changes nothing. *)
Theorem move_takes_storage (T : Type) (v w : Vector T) (d : RawMemory T)
    (c : option nat) (lg : list event) :
  (exists s',
     Vector_move (mkState v w d c lg) = Ret tt s' /\
     this s' = w /\
     size_ (this s') = size_ w /\ elements (this s') = elements w /\
     size_ (other s') = 0 /\ other s' = empty_vector) /\
  (exists s',
     move_assign Other (mkState v w d c lg) = Ret tt s' /\
     this s' = w /\
     size_ (this s') = size_ w /\ elements (this s') = elements w /\
     other s' = v /\ size_ (other s') = size_ v) /\
  move_assign Self (mkState v w d c lg) = Ret tt (mkState v w d c lg).
Proof.
  destruct v as [[vb vc] vn], w as [[wb wc] wn].
  split_and!.
  - eexists. split; [reflexivity|]. split_and!; reflexivity.
  - eexists. split; [reflexivity|]. split_and!; reflexivity.
  - reflexivity.
Qed.

Example move_assign_swaps :
  @move_assign nat Other (call2 (vector_of [7] 1) (vector_of [1; 2] 2) None) =
  Ret tt (call2 (vector_of [1; 2] 2) (vector_of [7] 1) None).
Proof. reflexivity. Qed.

(** ** Insertion *)

Section InsertClaim.
Context {T : Type} `{!Element T}.
Implicit Types (x : T) (xs : list T) (v o : Vector T) (d : RawMemory T).

Lemma inserted_vector_of xs1 xs2 x cap o d c lg :
  length (xs1 ++ x :: xs2) <= cap ->
  inserted (vector_of (xs1 ++ xs2) (length (xs1 ++ xs2))) (length xs1) x
    (Here, length xs1) (mkState (vector_of (xs1 ++ x :: xs2) cap) o d c lg) /\
  forall cap0,
    inserted (vector_of (xs1 ++ xs2) cap0) (length xs1) x
      (Here, length xs1) (mkState (vector_of (xs1 ++ x :: xs2) cap) o d c lg).
Proof.
  intros Hcap.
  assert (H : forall cap0,
    inserted (vector_of (xs1 ++ xs2) cap0) (length xs1) x
      (Here, length xs1) (mkState (vector_of (xs1 ++ x :: xs2) cap) o d c lg)).
  { intros cap0. unfold inserted. cbn [this].
    rewrite !size_vector_of, !elements_vector_of.
    rewrite take_app_length, drop_app_length.
    split_and!; try reflexivity.
    - rewrite !length_app. cbn [length]. lia.
    - apply list_lookup_middle. reflexivity.
    - intros i Hi. rewrite !lookup_app_l by assumption. reflexivity.
    - intros i Hi. rewrite !lookup_app_r by lia.
      replace (S i - length xs1) with (S (i - length xs1)) by lia. reflexivity.
    - apply invariant_vector_of. exact Hcap. }
  split; [apply H|exact H].
Qed.

End InsertClaim.

Section InsertTheorems.
Context {T : Type} `{!Element T}.
Implicit Types (x : T) (xs : list T) (v o : Vector T) (d : RawMemory T).

(** A vector split at [pos], the part from [pos] on ending in [l]. *)
Lemma split_before_last xs pos :
  pos < length xs ->
  exists xs1 mid l, xs = xs1 ++ mid ++ [l] /\ length xs1 = pos.
Proof.
  intros Hpos.
  destruct (drop pos xs) as [|l mid _] eqn:Hd using rev_ind.
  - apply (f_equal length) in Hd. rewrite length_drop in Hd. simpl in Hd. lia.
  - exists (take pos xs), mid, l. split.
    + rewrite <- Hd. symmetry. apply take_drop.
    + rewrite length_take. lia.
Qed.

Lemma insert_with_growing_inserts construct in_place x t ev xs1 xs2 o d lg :
  constructs construct x t ev ->
  (forall c p s',
     insert_with (length xs1) construct in_place
       (mkState (vector_of (xs1 ++ xs2) (length (xs1 ++ xs2))) o d c lg) = Ret p s' ->
     inserted (vector_of (xs1 ++ xs2) (length (xs1 ++ xs2))) (length xs1) x p s') /\
  (exists p s',
     insert_with (length xs1) construct in_place
       (mkState (vector_of (xs1 ++ xs2) (length (xs1 ++ xs2))) o d None lg) = Ret p s').
Proof.
  intros Hc.
  assert (Hg : length (xs1 ++ x :: xs2) <= grown (length (xs1 ++ xs2))).
  { pose proof (grown_gt (length (xs1 ++ xs2))) as Hg.
    rewrite !length_app in *. cbn [length]. lia. }
  split.
  - intros c p s'. rewrite (insert_with_grow construct in_place x t ev) by assumption.
    destruct (spend 1 c) as [c1|]; [|discriminate].
    destruct (spend t c1) as [c2|]; [|discriminate].
    destruct (spend _ c2) as [c3|]; [|discriminate].
    destruct (spend _ c3) as [c4|]; [|discriminate].
    intros [= <- <-]. apply inserted_vector_of. exact Hg.
  - rewrite (insert_with_grow construct in_place x t ev) by assumption.
    rewrite !spend_None. eexists _, _. reflexivity.
Qed.

Lemma insert_with_in_place_inserts construct in_place init t0 ev0 x xs1 mid l cap o d lg :
  initializes init t0 ev0 ->
  in_place (length (xs1 ++ mid ++ [l])) =
    insert_in_place (length (xs1 ++ mid ++ [l])) (length xs1) init x ->
  length (xs1 ++ mid ++ [l]) < cap ->
  (forall c p s',
     insert_with (length xs1) construct in_place
       (mkState (vector_of (xs1 ++ mid ++ [l]) cap) o d c lg) = Ret p s' ->
     inserted (vector_of (xs1 ++ mid ++ [l]) cap) (length xs1) x p s') /\
  (exists p s',
     insert_with (length xs1) construct in_place
       (mkState (vector_of (xs1 ++ mid ++ [l]) cap) o d None lg) = Ret p s').
Proof.
  intros Hinit Hin Hcap.
  assert (Hlen : length (xs1 ++ x :: mid ++ [l]) <= cap).
  { rewrite !length_app in *. cbn [length] in *. rewrite length_app in *.
    cbn [length] in *. lia. }
  split.
  - intros c p s' H.
    pose proof (insert_with_in_place_spec construct in_place init t0 ev0 x xs1 mid l
                  cap o d c lg Hinit Hin Hcap) as Hrun.
    cbv zeta in Hrun.
    destruct (spend t0 c) as [c1|]; [|destruct Hrun as [? Hr]; congruence].
    destruct (spend _ c1) as [c2|]; [|destruct Hrun as [? Hr]; congruence].
    destruct (spend _ c2) as [c3|]; [|destruct Hrun as [? Hr]; congruence].
    destruct (spend _ c3) as [c4|]; [|destruct Hrun as [? Hr]; congruence].
    rewrite Hrun in H. injection H as <- <-.
    apply (inserted_vector_of xs1 (mid ++ [l])). exact Hlen.
  - pose proof (insert_with_in_place_spec construct in_place init t0 ev0 x xs1 mid l
                  cap o d None lg Hinit Hin Hcap) as Hrun.
    cbv zeta in Hrun. rewrite !spend_None in Hrun. eexists _, _. exact Hrun.
Qed.

(** [Emplace] inserts at every position of [[begin, end]], growing or in
    place. *)
Theorem Emplace_inserts v o d lg pos x :
  invariant v ->
  pos <= size_ v ->
  (forall c p s', Emplace pos x (mkState v o d c lg) = Ret p s' -> inserted v pos x p s') /\
  (exists p s', Emplace pos x (mkState v o d None lg) = Ret p s').
Proof.
  intros Hv Hpos. canonical v Hv xs cap. rewrite Emplace_with.
  destruct (decide (length xs = cap)) as [<-|Hroom].
  - assert (Hxs : xs = take pos xs ++ drop pos xs) by (symmetry; apply take_drop).
    assert (Hlen : pos = length (take pos xs)) by (rewrite length_take; lia).
    revert Hxs Hlen. generalize (take pos xs) (drop pos xs). intros xs1 xs2 -> ->.
    apply (insert_with_growing_inserts _ _ x 1 EvConstruct). apply constructs_args.
  - destruct (decide (pos = length xs)) as [->|Hin].
    + rewrite <- Emplace_with. split.
      * intros c p s'. rewrite Emplace_at_end_in_place by lia.
        destruct (spend 1 c) as [c1|]; [|discriminate].
        intros [= <- <-].
        destruct (inserted_vector_of xs [] x cap o d c1
                    (lg ++ [EvConstruct (At (Here, length xs))])) as [_ H].
        { rewrite length_app. cbn [length]. lia. }
        specialize (H cap). rewrite app_nil_r in H. exact H.
      * rewrite Emplace_at_end_in_place by lia. rewrite spend_None.
        eexists _, _. reflexivity.
    + destruct (split_before_last xs pos ltac:(lia)) as (xs1 & mid & l & -> & <-).
      apply (insert_with_in_place_inserts _ _ (tick;; emit (EvConstruct Local)) 1
               (EvConstruct Local)).
      * apply initializes_tick.
      * rewrite (proj2 (Nat.eqb_neq _ _) Hin). reflexivity.
      * lia.
Qed.

(** [Insert] inserts at every position of [[begin, end]] when it grows the
    storage, and at every position of [[begin, end)] when it has room. *)
Theorem Insert_inserts v o d lg pos x :
  invariant v ->
  pos <= size_ v ->
  size_ v = capacity_ (data_ v) \/ pos < size_ v ->
  ((forall c p s', Insert pos x (mkState v o d c lg) = Ret p s' -> inserted v pos x p s') /\
   (exists p s', Insert pos x (mkState v o d None lg) = Ret p s')) /\
  ((forall c p s', Insert_move pos x (mkState v o d c lg) = Ret p s' ->
      inserted v pos x p s') /\
   (exists p s', Insert_move pos x (mkState v o d None lg) = Ret p s')).
Proof.
  intros Hv Hpos Hcase. canonical v Hv xs cap.
  rewrite Insert_with, Insert_move_with.
  destruct (decide (length xs = cap)) as [<-|Hroom].
  - assert (Hxs : xs = take pos xs ++ drop pos xs) by (symmetry; apply take_drop).
    assert (Hlen : pos = length (take pos xs)) by (rewrite length_take; lia).
    revert Hxs Hlen. generalize (take pos xs) (drop pos xs). intros xs1 xs2 -> ->.
    split.
    + apply (insert_with_growing_inserts _ _ x 1 (EvCopyConstruct Local)).
      apply constructs_copy.
    + apply (insert_with_growing_inserts _ _ x (move_ticks 1) (EvMoveConstruct Local)).
      apply constructs_move.
  - destruct Hcase as [Hfull|Hin]; [lia|].
    destruct (split_before_last xs pos Hin) as (xs1 & mid & l & -> & <-).
    split.
    + apply (insert_with_in_place_inserts _ _ (tick;; emit (EvCopyConstruct Local Local)) 1
               (EvCopyConstruct Local Local)).
      * apply initializes_tick.
      * reflexivity.
      * lia.
    + apply (insert_with_in_place_inserts _ _
               (tick_unless is_nothrow_move_constructible;;
                emit (EvMoveConstruct Local Local))
               (move_ticks 1) (EvMoveConstruct Local Local)).
      * apply initializes_tick_unless.
      * reflexivity.
      * lia.
Qed.

(** With room to spare, [Insert] at [end()] goes wrong, in either
    overload: in an empty vector by the subscript [size_ - 1], otherwise by
    the range handed to [std::move_backward]. *)
Theorem Insert_at_end_with_room v o d lg x :
  invariant v ->
  size_ v < capacity_ (data_ v) ->
  let f := if size_ v =? 0 then AssertionFailed else InvalidRange in
  Insert (size_ v) x (mkState v o d None lg) = Undefined f /\
  Insert_move (size_ v) x (mkState v o d None lg) = Undefined f.
Proof.
  intros Hv Hroom f. canonical v Hv xs cap. unfold f. clear f.
  rewrite ?size_vector_of.
  rewrite Insert_with, Insert_move_with.
  rewrite !insert_with_in_place by lia.
  destruct xs as [|l xs _] using rev_ind.
  - cbn [length Nat.eqb]. split; rewrite bind_unfold.
    + rewrite (insert_in_place_empty _ 1 (EvCopyConstruct Local Local))
        by (try apply initializes_tick; lia). reflexivity.
    + rewrite (insert_in_place_empty _ (move_ticks 1) (EvMoveConstruct Local Local))
        by (try apply initializes_tick_unless; lia). reflexivity.
  - rewrite (proj2 (Nat.eqb_neq (length (xs ++ [l])) 0))
      by (rewrite length_app; simpl; lia).
    split; rewrite bind_unfold.
    + rewrite (insert_in_place_at_end _ 1 (EvCopyConstruct Local Local))
        by (try apply initializes_tick; lia). reflexivity.
    + rewrite (insert_in_place_at_end _ (move_ticks 1) (EvMoveConstruct Local Local))
        by (try apply initializes_tick_unless; lia). reflexivity.
Qed.

End InsertTheorems.

(** C2 (a defect of the code).  The claim holds of [Emplace] everywhere, and
    of [Insert] when the storage grows or [pos] is before [end()]
    ([Emplace_inserts], [Insert_inserts]); it fails for [Insert] at [end()]
    with room to spare ([Insert_at_end_with_room]).  Here, on a vector of
    two elements in four slots: both overloads of [Insert] hand
    [std::move_backward] the range from [end()] to [end() - 1]; in an empty
    vector with room, [Insert] subscripts [data_] with [size_ - 1]; and
    [Emplace], which tests [pos == cend()], appends. *)
Theorem Insert_at_end_in_place_undefined :
  @Insert tracked string_like_element 2 (Val 7)
     (call (vector_of [Val 1; Val 2] 4) None) = Undefined InvalidRange /\
  @Insert_move tracked string_like_element 2 (Val 7)
     (call (vector_of [Val 1; Val 2] 4) None) = Undefined InvalidRange /\
  @Insert tracked string_like_element 0 (Val 7)
     (call (vector_of [] 4) None) = Undefined AssertionFailed /\
  @Emplace tracked string_like_element 2 (Val 7)
     (call (vector_of [Val 1; Val 2] 4) None) =
  Ret (Here, 2)
      (mkState (vector_of [Val 1; Val 2; Val 7] 4) empty_vector empty_raw None
         [EvConstruct (At (Here, 2))]).
Proof. repeat split. Qed.

(** ** Copy assignment *)

(** C5 (a defect of the code).  Copy assignment of a shorter vector to a
    vector with room to spare destroys the slots from [rhs.size_] up to the
    capacity, not up to [size_]: after the live element at index 1 it
    reaches the raw slots 2 and 3.  With [size == capacity] the same
    assignment is as the claim says. *)
Theorem copy_assign_destroys_raw_slots :
  @copy_assign tracked Other
     (call2 (vector_of [Val 1; Val 2] 4) (vector_of [Val 9] 1) None) =
  Undefined Uninitialized /\
  @copy_assign tracked Other
     (call2 (vector_of [Val 1; Val 2] 2) (vector_of [Val 9] 1) None) =
  Ret tt (mkState (vector_of [Val 9] 2) (vector_of [Val 9] 1) empty_raw None
            [EvCopyAssign (At (There, 0)) (At (Here, 0)); EvDestroy (At (Here, 1))]).
Proof. repeat split. Qed.

(** The destructor calls the claim describes, on the same vector after the
    prefix has been assigned: the range ends at [size_]. *)
Example destroy_excess_tail :
  @ranges_destroy tracked (Here, 1) (Here, 2)
     (call2 (vector_of [Val 9; Val 2] 4) (vector_of [Val 9] 1) None) =
  Ret tt (mkState (mkVector (mkRawMemory [Live (Val 9); Raw; Raw; Raw] 4) 2)
            (vector_of [Val 9] 1) empty_raw None [EvDestroy (At (Here, 1))]).
Proof. reflexivity. Qed.

(** ** The invariant *)

(** C9 (a defect of the code).  Three calls on vectors that satisfy the
    invariant.  Copy assignment of the empty vector to a vector of three
    elements in eight slots runs the destructor on raw slots.  [Insert] at
    [end()] with room to spare does not return.  And when the move
    assignment that shifts the elements throws during an [Insert] in place,
    the exception leaves a live object in the slot at [size_]. *)
Theorem invariant_not_preserved :
  invariantb (vector_of [Val 1; Val 2; Val 3] 8) = true /\
  invariantb (vector_of ([] : list tracked) 0) = true /\
  @copy_assign tracked Other
     (call2 (vector_of [Val 1; Val 2; Val 3] 8) (vector_of [] 0) None) =
  Undefined Uninitialized /\
  @Insert tracked throwing_element 3 (Val 7)
     (call (vector_of [Val 1; Val 2; Val 3] 8) None) = Undefined InvalidRange /\
  @Insert tracked throwing_element 0 (Val 7)
     (call (vector_of [Val 1; Val 2; Val 3] 8) (Some 2)) =
  Raise (mkState
           (mkVector (mkRawMemory [Live (Val 1); Live (Val 2); Live MovedFrom;
                                   Live (Val 3); Raw; Raw; Raw; Raw] 8) 3)
           empty_vector empty_raw None
           [EvCopyConstruct Local Local;
            EvMoveConstruct (At (Here, 2)) (At (Here, 3)); EvDestroy Local]) /\
  invariantb (mkVector (mkRawMemory [Live (Val 1); Live (Val 2); Live MovedFrom;
                                     Live (Val 3); Raw; Raw; Raw; Raw] 8) 3) = false.
Proof. repeat split. Qed.

(** * Further properties of the member functions *)

(** ** Copy assignment, in general *)

Section CopyAssignFacts.
Context {T : Type}.
Implicit Types (x : T) (xs ys zs : list T) (o : Vector T) (d : RawMemory T)
  (s : state T).

Lemma T_copy_assign_spec bs bd spre y spost dpre z dpost s :
  bs <> bd ->
  cells bs s = spre ++ Live y :: spost ->
  cells bd s = dpre ++ Live z :: dpost ->
  T_copy_assign (bs, length spre) (bd, length dpre) s =
  match spend 1 (countdown s) with
  | Some c' =>
      Ret tt (set_log (log s ++ [EvCopyAssign (At (bs, length spre)) (At (bd, length dpre))])
             (set_countdown c' (set_cells bd (dpre ++ Live y :: dpost) s)))
  | None => Raise (set_countdown None s)
  end.
Proof.
  intros Hne Hs Hd. unfold T_copy_assign.
  erewrite bind_Ret; [|eapply peek_middle; exact Hs].
  erewrite bind_Ret; [|eapply peek_middle; exact Hd].
  rewrite tick_bind.
  destruct (spend 1 (countdown s)) as [c'|]; [|reflexivity].
  erewrite bind_Ret; [|eapply poke_middle; norm_state; exact Hd].
  unfold emit, modify. f_equal. norm_state. reflexivity.
Qed.

(** [std::copy_n] between two blocks: the elements [zs] of the destination
    are overwritten by [ys]. *)
Lemma copy_n_spec bs bd spre ys spost dpre zs dpost s :
  bs <> bd ->
  length zs = length ys ->
  cells bs s = spre ++ map Live ys ++ spost ->
  cells bd s = dpre ++ map Live zs ++ dpost ->
  match spend (length ys) (countdown s) with
  | Some c' =>
      copy_n (bs, length spre) (length ys) (bd, length dpre) s =
      Ret tt (set_log (log s ++ copy_assign_events (bs, length spre) (bd, length dpre)
                                                   (length ys))
             (set_countdown c' (set_cells bd (dpre ++ map Live ys ++ dpost) s)))
  | None => raises (copy_n (bs, length spre) (length ys) (bd, length dpre) s)
  end.
Proof.
  intros Hne. revert spre dpre zs s.
  induction ys as [|y ys IH]; intros spre dpre zs s Hlen Hs Hd.
  - destruct zs; [|discriminate]. simpl in *.
    rewrite spend_0, app_nil_r, set_cells_id, set_countdown_id, set_log_id by assumption.
    reflexivity.
  - destruct zs as [|z zs]; [discriminate|]. simpl in Hlen, Hs, Hd.
    injection Hlen as Hlen.
    cbn [length copy_n]. rewrite (spend_S (length ys)).
    rewrite bind_unfold, (T_copy_assign_spec _ _ _ _ _ _ _ _ _ Hne Hs Hd).
    destruct (spend 1 (countdown s)) as [c1|] eqn:H1; cbv beta iota.
    2:{ eexists. reflexivity. }
    rewrite (padd_1_length bs spre (Live y)), (padd_1_length bd dpre (Live y)).
    match goal with |- context [copy_n _ _ _ ?s1] =>
      assert (Hs1 : cells bs s1 = (spre ++ [Live y]) ++ map Live ys ++ spost)
        by (norm_state; rewrite cells_set_cells_ne by congruence;
            rewrite Hs, <- app_assoc; reflexivity);
      assert (Hd1 : cells bd s1 = (dpre ++ [Live y]) ++ map Live zs ++ dpost)
        by (norm_state; rewrite <- app_assoc; reflexivity);
      pose proof (IH _ _ _ s1 Hlen Hs1 Hd1) as IH1; clear Hs1 Hd1;
      assert (Hcd : countdown s1 = c1) by (norm_state; reflexivity);
      rewrite Hcd in IH1; clear Hcd
    end.
    destruct (spend (length ys) c1) as [c'|]; [|exact IH1].
    rewrite IH1. f_equal. norm_state. rewrite <- !app_assoc.
    rewrite <- (padd_1_length bs spre (Live y)), <- (padd_1_length bd dpre (Live y)).
    reflexivity.
Qed.

(** [std::destroy_n] over live objects followed by a raw slot. *)
Lemma destroy_n_reaches_raw b pre ys post n s :
  cells b s = pre ++ map Live ys ++ Raw :: post ->
  length ys < n ->
  destroy_n (b, length pre) n s = Undefined Uninitialized.
Proof.
  revert pre n s. induction ys as [|y ys IH]; intros pre n s H Hn; simpl in *.
  - destruct n as [|n]; [lia|]. cbn [destroy_n].
    apply bind_Undefined. apply destroy_at_Raw. rewrite H.
    by apply list_lookup_middle.
  - destruct n as [|n]; [lia|]. cbn [destroy_n].
    erewrite bind_Ret; [|eapply destroy_at_middle; exact H].
    rewrite (padd_1_length b pre Raw).
    apply (IH (pre ++ [Raw])); [|lia].
    norm_state. rewrite <- app_assoc. reflexivity.
Qed.

End CopyAssignFacts.

Section CopyAssignCases.
Context {T : Type}.
Implicit Types (x : T) (xs ys zs : list T) (o : Vector T) (d : RawMemory T)
  (s : state T).

(** The first statements of the branch that reuses the storage, for a
    source no longer than the destination: the prefix is assigned. *)
Lemma copy_assign_prefix xs ys cap capo d c lg (k : unit -> M T unit) :
  length xs <= cap -> length ys <= capo -> length ys <= length xs ->
  match spend (length ys) c with
  | Some c' =>
      (copy_n (There, 0) (length ys) (Here, 0);; k tt)
        (mkState (vector_of xs cap) (vector_of ys capo) d c lg) =
      k tt (mkState
              (mkVector (mkRawMemory (map Live ys ++ map Live (drop (length ys) xs)
                                        ++ replicate (cap - length xs) Raw) cap)
                        (length xs))
              (vector_of ys capo) d c'
              (lg ++ copy_assign_events (There, 0) (Here, 0) (length ys)))
  | None =>
      raises ((copy_n (There, 0) (length ys) (Here, 0);; k tt)
                (mkState (vector_of xs cap) (vector_of ys capo) d c lg))
  end.
Proof.
  intros Hxs Hys Hle.
  pose proof (copy_n_spec There Here [] ys (replicate (capo - length ys) Raw)
                [] (take (length ys) xs)
                (map Live (drop (length ys) xs) ++ replicate (cap - length xs) Raw)
                (mkState (vector_of xs cap) (vector_of ys capo) d c lg)
                ltac:(discriminate)) as Hrun.
  cbn [length app countdown] in Hrun.
  assert (Hlen : length (take (length ys) xs) = length ys) by (rewrite length_take; lia).
  specialize (Hrun Hlen eq_refl).
  assert (Hcells : cells Here (mkState (vector_of xs cap) (vector_of ys capo) d c lg) =
                   map Live (take (length ys) xs)
                     ++ map Live (drop (length ys) xs) ++ replicate (cap - length xs) Raw).
  { unfold vector_of. proj. rewrite app_assoc, <- map_app, take_drop. reflexivity. }
  specialize (Hrun Hcells).
  destruct (spend (length ys) c) as [c'|].
  - rewrite bind_unfold, Hrun. unfold vector_of. proj. reflexivity.
  - apply bind_raises. exact Hrun.
Qed.

(** Case: the source is shorter and the destination has room to spare. *)
Lemma copy_assign_shrink_with_room xs ys cap capo d c lg :
  length xs < cap -> length ys <= capo -> length ys < length xs ->
  match spend (length ys) c with
  | Some _ =>
      copy_assign Other (mkState (vector_of xs cap) (vector_of ys capo) d c lg) =
      Undefined Uninitialized
  | None =>
      raises (copy_assign Other (mkState (vector_of xs cap) (vector_of ys capo) d c lg))
  end.
Proof.
  intros Hxs Hys Hlt.
  unfold copy_assign. cbn [operand_eqb data_of].
  unfold Size, get_size, RawMemory_Capacity.
  rewrite !gets_bind. cbn [vec raw_of this other]. rewrite !size_vector_of, capacity_vector_of.
  rewrite (proj2 (Nat.ltb_ge cap (length ys))) by lia.
  rewrite bind_assoc. rewrite !gets_bind. cbn [vec this]. rewrite size_vector_of.
  rewrite Nat.min_r by lia. rewrite bind_assoc.
  unfold RawMemory_GetAddress.
  pose proof (copy_assign_prefix xs ys cap capo d c lg
    (fun _ => (if length ys <? length xs
               then c0 ← Capacity; ranges_destroy (padd (Here, 0) (length ys))
                                                   (padd (Here, 0) c0)
               else if length xs <? length ys
                    then uninitialized_copy_n (padd (There, 0) (length xs))
                           (length ys - length xs) (padd (Here, 0) (length xs))
                    else ret tt);;
              set_size Self (length ys))
    ltac:(lia) Hys ltac:(lia)) as Hrun.
  cbv beta in Hrun.
  destruct (spend (length ys) c) as [c'|]; [|exact Hrun].
  rewrite Hrun. clear Hrun.
  rewrite (proj2 (Nat.ltb_lt (length ys) (length xs))) by lia.
  apply bind_Undefined.
  unfold Capacity, RawMemory_Capacity, ranges_destroy, distance. repeat step.
  rewrite (proj2 (Nat.leb_le (0 + length ys) (0 + cap))) by lia.
  cbn [andb]. repeat step.
  rewrite !Nat.add_0_l.
  rewrite (replicate_sub_S cap (length xs)) by lia.
  match goal with |- destroy_n _ _ ?s1 = _ =>
    pose proof (destroy_n_reaches_raw Here (map Live ys) (drop (length ys) xs)
                  (replicate (cap - length xs - 1) Raw) (cap - length ys) s1 eq_refl) as E
  end.
  rewrite length_map in E. apply E. rewrite length_drop. lia.
Qed.

(** Case: the source is shorter and the destination is full. *)
Lemma copy_assign_shrink_full xs ys capo d c lg :
  length ys <= capo -> length ys < length xs ->
  match spend (length ys) c with
  | Some c' =>
      copy_assign Other
        (mkState (vector_of xs (length xs)) (vector_of ys capo) d c lg) =
      Ret tt (mkState (vector_of ys (length xs)) (vector_of ys capo) d c'
                (lg ++ copy_assign_events (There, 0) (Here, 0) (length ys)
                    ++ destroy_events (Here, length ys) (length xs - length ys)))
  | None =>
      raises (copy_assign Other
                (mkState (vector_of xs (length xs)) (vector_of ys capo) d c lg))
  end.
Proof.
  intros Hys Hlt.
  unfold copy_assign. cbn [operand_eqb data_of].
  unfold Size, get_size, RawMemory_Capacity.
  rewrite !gets_bind. cbn [vec raw_of this other]. rewrite !size_vector_of, capacity_vector_of.
  rewrite (proj2 (Nat.ltb_ge (length xs) (length ys))) by lia.
  rewrite bind_assoc. rewrite !gets_bind. cbn [vec this]. rewrite size_vector_of.
  rewrite Nat.min_r by lia. rewrite bind_assoc.
  unfold RawMemory_GetAddress.
  pose proof (copy_assign_prefix xs ys (length xs) capo d c lg
    (fun _ => (if length ys <? length xs
               then c0 ← Capacity; ranges_destroy (padd (Here, 0) (length ys))
                                                   (padd (Here, 0) c0)
               else if length xs <? length ys
                    then uninitialized_copy_n (padd (There, 0) (length xs))
                           (length ys - length xs) (padd (Here, 0) (length xs))
                    else ret tt);;
              set_size Self (length ys))
    ltac:(lia) Hys ltac:(lia)) as Hrun.
  cbv beta in Hrun.
  destruct (spend (length ys) c) as [c'|]; [|exact Hrun].
  rewrite Hrun. clear Hrun.
  rewrite (proj2 (Nat.ltb_lt (length ys) (length xs))) by lia.
  unfold Capacity, RawMemory_Capacity, ranges_destroy, distance. repeat step.
  rewrite (proj2 (Nat.leb_le (0 + length ys) (0 + length xs))) by lia.
  cbn [andb]. repeat step.
  rewrite !Nat.add_0_l. rewrite Nat.sub_diag. cbn [replicate].
  rewrite bind_unfold.
  match goal with |- context [destroy_n _ _ ?s1] =>
    pose proof (destroy_n_spec Here (map Live ys) (drop (length ys) xs) [] s1 eq_refl) as E
  end.
  rewrite length_map, length_drop in E. rewrite E. clear E. proj.
  unfold set_size. repeat step. unfold vector_of.
  rewrite app_nil_r, <- app_assoc. reflexivity.
Qed.

End CopyAssignCases.

Section CopyAssignGrow.
Context {T : Type}.
Implicit Types (x : T) (xs ys zs : list T) (o : Vector T) (d : RawMemory T)
  (s : state T).

(** Case: the source is at least as long and fits the capacity. *)
Lemma copy_assign_extend xs ys1 ys2 cap capo d c lg :
  length ys1 = length xs ->
  length (ys1 ++ ys2) <= cap -> length (ys1 ++ ys2) <= capo ->
  let run := copy_assign Other
               (mkState (vector_of xs cap) (vector_of (ys1 ++ ys2) capo) d c lg) in
  match spend (length xs) c with
  | None => raises run
  | Some c1 =>
    match spend (length ys2) c1 with
    | None => raises run
    | Some c2 =>
        run =
        Ret tt (mkState (vector_of (ys1 ++ ys2) cap) (vector_of (ys1 ++ ys2) capo) d c2
                  (lg ++ copy_assign_events (There, 0) (Here, 0) (length xs)
                      ++ copy_events (There, length xs) (Here, length xs) (length ys2)))
    end
  end.
Proof.
  intros Hlen Hcap Hcapo run. unfold run. clear run.
  pose proof Hcap as Hcap'. rewrite length_app in Hcap'.
  set (n := length (ys1 ++ ys2)) in *.
  assert (Hn : n = length xs + length ys2) by (unfold n; rewrite length_app; lia).
  unfold copy_assign. cbn [operand_eqb data_of].
  unfold Size, get_size, RawMemory_Capacity.
  rewrite !gets_bind. cbn [vec raw_of this other]. rewrite !size_vector_of, capacity_vector_of.
  fold n.
  rewrite (proj2 (Nat.ltb_ge cap n)) by lia.
  rewrite bind_assoc. rewrite !gets_bind. cbn [vec this]. rewrite size_vector_of.
  rewrite Nat.min_l by lia. rewrite bind_assoc.
  unfold RawMemory_GetAddress.
  rewrite (proj2 (Nat.ltb_ge n (length xs))) by lia.
  pose proof (copy_n_spec There Here [] ys1 (map Live ys2 ++ replicate (capo - n) Raw)
                [] xs (replicate (cap - length xs) Raw)
                (mkState (vector_of xs cap) (vector_of (ys1 ++ ys2) capo) d c lg)
                ltac:(discriminate) (eq_sym Hlen)) as Hrun.
  cbn [length app countdown] in Hrun. rewrite Hlen in Hrun.
  assert (Hsrc : cells There
                   (mkState (vector_of xs cap) (vector_of (ys1 ++ ys2) capo) d c lg) =
                 map Live ys1 ++ map Live ys2 ++ replicate (capo - n) Raw).
  { unfold vector_of. proj. rewrite map_app, <- app_assoc. reflexivity. }
  specialize (Hrun Hsrc eq_refl). clear Hsrc.
  destruct (spend (length xs) c) as [c1|]; [|by apply bind_raises].
  rewrite bind_unfold, Hrun. clear Hrun. unfold vector_of. fold n. proj.
  destruct (decide (length ys2 = 0)) as [Hz|Hnz].
  - rewrite Hz, spend_0. rewrite (proj2 (Nat.ltb_ge (length xs) n)) by lia.
    unfold set_size. repeat step.
    destruct ys2; [|discriminate]. cbn [copy_events length] in *.
    unfold n. rewrite !app_nil_r. unfold vector_of. rewrite Hlen. reflexivity.
  - rewrite (proj2 (Nat.ltb_lt (length xs) n)) by lia.
    replace (n - length xs) with (length ys2) by lia.
    rewrite (replicate_split (cap - length xs) (length ys2)) by lia.
    rewrite bind_unfold.
    match goal with |- context [uninitialized_copy_n _ _ _ ?s1] =>
      pose proof (uninitialized_copy_n_spec There Here (map Live ys1) ys2
                    (replicate (capo - n) Raw) (map Live ys1)
                    (replicate (cap - length xs - length ys2) Raw) s1
                    ltac:(discriminate)) as Hrun
    end.
    rewrite length_map, Hlen in Hrun. cbn [countdown log] in Hrun.
    rewrite !Nat.add_0_l.
    rewrite Hrun; clear Hrun.
    2:{ proj. rewrite map_app, <- app_assoc. reflexivity. }
    2:{ proj. reflexivity. }
    destruct (spend (length ys2) c1) as [c2|]; [|apply raises_Raise].
    proj. unfold set_size. repeat step.
    unfold vector_of. fold n. rewrite map_app, <- !app_assoc.
    replace (cap - length xs - length ys2) with (cap - n) by lia.
    reflexivity.
Qed.

(** Case: the source exceeds the capacity; the assignment has the strong
    guarantee. *)
Lemma copy_assign_realloc xs ys cap capo d c lg :
  length xs <= cap -> length ys <= capo -> cap < length ys ->
  copy_assign Other (mkState (vector_of xs cap) (vector_of ys capo) d c lg) =
  match spend 1 c with
  | None => Raise (mkState (vector_of xs cap) (vector_of ys capo) d None lg)
  | Some c1 =>
    match spend (length ys) c1 with
    | None =>
        Raise (mkState (vector_of xs cap) (vector_of ys capo) empty_raw None
                 (lg ++ EvAllocate (length ys)
                     :: copy_events (There, 0) (New, 0) (passed c1)
                     ++ unwind_events (New, 0) (passed c1)
                     ++ [EvDeallocate (length ys)]))
    | Some c2 =>
        Ret tt (mkState (vector_of ys (length ys)) (vector_of ys capo) empty_raw c2
                  (lg ++ EvAllocate (length ys)
                      :: copy_events (There, 0) (New, 0) (length ys)
                      ++ destroy_events (Here, 0) (length xs)))
    end
  end.
Proof.
  intros Hxs Hys Hlt.
  unfold copy_assign. cbn [operand_eqb data_of].
  unfold Size, get_size, RawMemory_Capacity.
  rewrite !gets_bind. cbn [vec raw_of this other]. rewrite !size_vector_of, capacity_vector_of.
  rewrite (proj2 (Nat.ltb_lt cap (length ys))) by lia.
  rewrite bind_unfold.
  unfold with_new_data, RawMemory_ctor, Allocate.
  rewrite (proj2 (Nat.eqb_neq (length ys) 0)) by lia.
  unfold vector_of at 1 2. repeat step. rewrite tick_bind. proj.
  destruct (spend 1 c) as [c1|]; [|reflexivity].
  repeat step. rewrite scope_unfold. rewrite bind_unfold.
  match goal with |- context [uninitialized_copy_n _ _ _ ?s1] =>
    pose proof (uninitialized_copy_n_spec There New [] ys
                  (replicate (capo - length ys) Raw) [] [] s1
                  ltac:(discriminate) eq_refl) as Hrun
  end.
  cbn [length app countdown log] in Hrun.
  rewrite Hrun by (proj; rewrite app_nil_r; reflexivity). clear Hrun.
  destruct (spend (length ys) c1) as [c2|].
  - proj. unfold get_size. repeat step. rewrite bind_unfold.
    match goal with |- context [destroy_n _ _ ?s2] =>
      pose proof (destroy_n_spec Here [] xs (replicate (cap - length xs) Raw) s2 eq_refl)
        as Hrun
    end.
    cbn [length app] in Hrun. rewrite Hrun. clear Hrun. proj.
    unfold RawMemory_move_assign. proj. repeat step.
    unfold RawMemory_dtor, Deallocate. repeat step.
    unfold set_size. repeat step.
    unfold vector_of, empty_raw. rewrite Nat.sub_diag. cbn [replicate].
    rewrite <- !app_assoc. reflexivity.
  - proj. erewrite (RawMemory_dtor_spec New _ (length ys)); [|shelve|lia|proj; reflexivity].
    proj. unfold vector_of, empty_raw. rewrite <- !app_assoc. reflexivity.
    Unshelve. rewrite length_replicate. reflexivity.
Qed.

Lemma copy_assign_self (v o : Vector T) d c lg :
  copy_assign Self (mkState v o d c lg) = Ret tt (mkState v o d c lg).
Proof. reflexivity. Qed.

End CopyAssignGrow.

(** Copy assignment that reuses the storage, case by case: as C5 says when
    the source is not shorter or the destination is full; undefined when the
    source is shorter and the destination has room to spare. *)
Theorem copy_assign_in_place (T : Type) (v w : Vector T) (d : RawMemory T)
    (c : option nat) (lg : list event) :
  invariant v -> invariant w ->
  size_ w <= capacity_ (data_ v) ->
  (size_ v <= size_ w \/ size_ v = capacity_ (data_ v) ->
   (forall s', copy_assign Other (mkState v w d c lg) = Ret tt s' ->
      this s' = vector_of (elements w) (capacity_ (data_ v)) /\
      other s' = w /\
      log s' = lg ++ copy_assign_events (There, 0) (Here, 0) (size_ v `min` size_ w)
                  ++ (if size_ w <? size_ v
                      then destroy_events (Here, size_ w) (size_ v - size_ w)
                      else copy_events (There, size_ v) (Here, size_ v)
                                       (size_ w - size_ v))) /\
   (exists s', copy_assign Other (mkState v w d None lg) = Ret tt s')) /\
  (size_ w < size_ v < capacity_ (data_ v) ->
   copy_assign Other (mkState v w d None lg) = Undefined Uninitialized).
Proof.
  intros Hv Hw Hfit. canonical v Hv xs cap. rename Hle into Hxs.
  canonical w Hw ys capo. rename Hle into Hys. split.
  - intros Hcase.
    destruct (decide (length ys < length xs)) as [Hlt|Hge].
    + assert (cap = length xs) by lia. subst cap.
      rewrite Nat.min_r by lia. rewrite (proj2 (Nat.ltb_lt _ _) Hlt).
      pose proof (copy_assign_shrink_full xs ys capo d c lg Hys Hlt) as Hrun.
      pose proof (copy_assign_shrink_full xs ys capo d None lg Hys Hlt) as Hrun0.
      rewrite spend_None in Hrun0. split; [|eexists; exact Hrun0].
      intros s' H. destruct (spend (length ys) c) as [c'|].
      * rewrite Hrun in H. injection H as <-. split_and!; reflexivity.
      * destruct Hrun as [s'' Hrun]. congruence.
    + rewrite Nat.min_l by lia. rewrite (proj2 (Nat.ltb_ge _ _)) by lia.
      assert (Hsplit : ys = take (length xs) ys ++ drop (length xs) ys)
        by (symmetry; apply take_drop).
      assert (H1 : length (take (length xs) ys) = length xs) by (rewrite length_take; lia).
      assert (H2 : length (drop (length xs) ys) = length ys - length xs)
        by apply length_drop.
      revert Hsplit H1 H2.
      generalize (take (length xs) ys) (drop (length xs) ys). intros ys1 ys2 -> H1 H2.
      rewrite <- H2.
      pose proof (copy_assign_extend xs ys1 ys2 cap capo d c lg H1 Hfit Hys) as Hrun.
      pose proof (copy_assign_extend xs ys1 ys2 cap capo d None lg H1 Hfit Hys) as Hrun0.
      cbv zeta in Hrun, Hrun0. rewrite !spend_None in Hrun0.
      split; [|eexists; exact Hrun0].
      intros s' H.
      destruct (spend (length xs) c) as [c1|]; [|destruct Hrun as [s'' Hrun]; congruence].
      destruct (spend (length ys2) c1) as [c2|]; [|destruct Hrun as [s'' Hrun]; congruence].
      rewrite Hrun in H. injection H as <-. split_and!; reflexivity.
  - intros [Hlt Hroom].
    pose proof (copy_assign_shrink_with_room xs ys cap capo d None lg Hroom Hys Hlt) as Hrun.
    rewrite spend_None in Hrun. exact Hrun.
Qed.

(** ** [Resize] *)

Section ResizeFacts.
Context {T : Type} `{!Element T}.
Implicit Types (x : T) (xs : list T) (o : Vector T) (d : RawMemory T).

Lemma Resize_shrink xs cap n o d c lg :
  length xs <= cap -> n < length xs ->
  Resize n (mkState (vector_of xs cap) o d c lg) =
  Ret tt (mkState (vector_of (take n xs) cap) o d c
            (lg ++ destroy_events (Here, n) (length xs - n))).
Proof.
  intros Hcap Hn. unfold Resize, Size, get_size. repeat step.
  rewrite size_vector_of. rewrite (proj2 (Nat.ltb_lt n (length xs)) Hn).
  rewrite bind_unfold.
  pose proof (destroy_n_spec Here (map Live (take n xs)) (drop n xs)
                (replicate (cap - length xs) Raw)
                (mkState (vector_of xs cap) o d c lg)) as Hrun.
  rewrite length_map, length_take, length_drop in Hrun.
  replace (n `min` length xs) with n in Hrun by lia.
  unfold RawMemory_GetAddress, padd. cbn [fst snd]. rewrite Nat.add_0_l.
  rewrite Hrun; clear Hrun.
  2:{ unfold vector_of. proj. rewrite app_assoc, <- map_app, take_drop. reflexivity. }
  unfold set_size. repeat step. unfold vector_of. proj.
  rewrite length_take. replace (n `min` length xs) with n by lia.
  rewrite <- replicate_add. replace (length xs - n + (cap - length xs)) with (cap - n) by lia.
  reflexivity.
Qed.

(** The statements that value-construct the new elements in a block with
    room for them. *)
Lemma Resize_construct xs cap n o d c lg :
  length xs <= n -> n <= cap ->
  (uninitialized_value_construct_n (padd (RawMemory_GetAddress Here) (length xs))
                                   (n - length xs);;
   set_size Self n) (mkState (vector_of xs cap) o d c lg) =
  match spend (n - length xs) c with
  | Some c' =>
      Ret tt (mkState (vector_of (xs ++ replicate (n - length xs) value_init) cap) o d c'
                (lg ++ value_events (Here, length xs) (n - length xs)))
  | None =>
      Raise (mkState (vector_of xs cap) o d None
               (lg ++ value_events (Here, length xs) (passed c)
                   ++ unwind_events (Here, length xs) (passed c)))
  end.
Proof.
  intros Hn Hcap.
  pose proof (uninitialized_value_construct_n_spec Here (map Live xs) (n - length xs)
                (replicate (cap - n) Raw) (mkState (vector_of xs cap) o d c lg)) as Hrun.
  rewrite length_map in Hrun. cbn [countdown log] in Hrun.
  unfold RawMemory_GetAddress, padd. cbn [fst snd]. rewrite Nat.add_0_l.
  rewrite bind_unfold, Hrun; clear Hrun.
  2:{ unfold vector_of. proj. rewrite <- replicate_add. do 2 f_equal. lia. }
  destruct (spend (n - length xs) c) as [c'|].
  - unfold set_size. repeat step. unfold vector_of. proj.
    rewrite map_app, length_app, length_replicate, <- app_assoc.
    replace (length xs + (n - length xs)) with n by lia.
    assert (Hmap : forall k, map Live (replicate k (value_init : T)) =
                             replicate k (Live value_init)).
    { induction k as [|k IH]; [reflexivity|]. simpl. by rewrite IH. }
    rewrite Hmap. reflexivity.
  - unfold vector_of. proj. reflexivity.
Qed.

End ResizeFacts.

Section ResizeOutcome.
Context {T : Type} `{!Element T}.
Implicit Types (x : T) (xs : list T) (o : Vector T) (d : RawMemory T).

Lemma length_resized n xs : length (resized n xs) = n.
Proof. unfold resized. rewrite length_app, length_take, length_replicate. lia. Qed.

(** [Resize] never leaves the model's defined behaviour; when it returns the
    vector holds [resized n xs] in a block of [max cap n] slots, and when it
    raises the vector still satisfies the invariant with its old size. *)
Lemma Resize_outcome xs cap n o d c lg :
  length xs <= cap ->
  match Resize n (mkState (vector_of xs cap) o d c lg) with
  | Ret _ s' => this s' = vector_of (resized n xs) (cap `max` n) /\ other s' = o
  | Raise s' => invariant (this s') /\ size_ (this s') = length xs /\ other s' = o
  | Undefined _ => False
  end.
Proof.
  intros Hcap. destruct (decide (n < length xs)) as [Hlt|Hge].
  - rewrite Resize_shrink by assumption. cbn [this other]. split; [|reflexivity].
    unfold resized. replace (n - length xs) with 0 by lia.
    rewrite app_nil_r. f_equal. lia.
  - assert (Hres : resized n xs = xs ++ replicate (n - length xs) value_init).
    { unfold resized. rewrite take_ge by lia. reflexivity. }
    unfold Resize, Size, get_size. repeat step. rewrite size_vector_of.
    rewrite (proj2 (Nat.ltb_ge n (length xs))) by lia.
    unfold Capacity, RawMemory_Capacity. repeat step.
    rewrite capacity_vector_of.
    change (Here, 0 + length xs) with (padd (RawMemory_GetAddress Here) (length xs)).
    destruct (n <? cap) eqn:Hn; [apply Nat.ltb_lt in Hn|apply Nat.ltb_ge in Hn].
    + rewrite Resize_construct by lia.
      destruct (spend (n - length xs) c); cbn [this other].
      * rewrite Hres. split; [f_equal; lia|reflexivity].
      * split_and!; [by apply invariant_vector_of|reflexivity|reflexivity].
    + rewrite bind_assoc, bind_unfold.
      destruct (decide (n = cap)) as [->|Hne].
      * rewrite Reserve_noop by lia. rewrite Resize_construct by lia.
        destruct (spend (cap - length xs) c); cbn [this other].
        -- rewrite Hres. split; [f_equal; lia|reflexivity].
        -- split_and!; [by apply invariant_vector_of|reflexivity|reflexivity].
      * rewrite Reserve_spec by lia.
        destruct (spend 1 c) as [c1|]; cbn [this other].
        2:{ split_and!; [by apply invariant_vector_of|reflexivity|reflexivity]. }
        destruct (spend (relocation_ticks (length xs)) c1) as [c2|]; cbn [this other].
        2:{ split_and!; [|apply length_abandoned|reflexivity].
            apply invariant_vector_of. by rewrite length_abandoned. }
        rewrite Resize_construct by lia.
        destruct (spend (n - length xs) c2); cbn [this other].
        -- rewrite Hres. split; [f_equal; lia|reflexivity].
        -- split_and!; [apply invariant_vector_of; lia|reflexivity|reflexivity].
Qed.

End ResizeOutcome.

(** ** The constructors *)

Section ConstructorFacts.
Context {T : Type} `{!Element T}.
Implicit Types (x : T) (xs : list T) (v o : Vector T) (d : RawMemory T).

Lemma map_Live_replicate k x : map Live (replicate k x) = replicate k (Live x).
Proof. induction k as [|k IH]; [reflexivity|]. simpl. by rewrite IH. Qed.

Lemma Vector_default_spec v o d c lg :
  Vector_default (mkState v o d c lg) = Ret tt (mkState (vector_of [] 0) o d c lg).
Proof.
  unfold Vector_default, RawMemory_ctor, Allocate, set_size. cbn [Nat.eqb].
  repeat step. reflexivity.
Qed.

Lemma Vector_sized_0 v o d c lg :
  Vector_sized 0 (mkState v o d c lg) = Ret tt (mkState (vector_of [] 0) o d c lg).
Proof.
  reflexivity.
Qed.

Lemma Vector_sized_spec n v o d c lg :
  0 < n ->
  Vector_sized n (mkState v o d c lg) =
  match spend 1 c with
  | None => Raise (mkState v o d None lg)
  | Some c1 =>
      match spend n c1 with
      | Some c2 =>
          Ret tt (mkState (vector_of (replicate n value_init) n) o d c2
                    (lg ++ EvAllocate n :: value_events (Here, 0) n))
      | None =>
          Raise (mkState (mkVector empty_raw n) o d None
                   (lg ++ EvAllocate n
                       :: value_events (Here, 0) (passed c1)
                       ++ unwind_events (Here, 0) (passed c1)
                       ++ [EvDeallocate n]))
      end
  end.
Proof.
  intros Hn. unfold Vector_sized, RawMemory_ctor, Allocate, set_size.
  rewrite (proj2 (Nat.eqb_neq n 0)) by lia.
  repeat step. rewrite tick_bind. proj.
  destruct (spend 1 c) as [c1|]; [|reflexivity].
  repeat step. unfold on_raise.
  match goal with |- context [uninitialized_value_construct_n _ _ ?s1] =>
    pose proof (uninitialized_value_construct_n_spec Here [] n [] s1) as Hrun
  end.
  cbn [length app] in Hrun. rewrite app_nil_r in Hrun.
  rewrite Hrun by reflexivity; clear Hrun. proj.
  destruct (spend n c1) as [c2|].
  - unfold vector_of. rewrite length_replicate, Nat.sub_diag, map_Live_replicate.
    rewrite app_nil_r. cbn [replicate]. rewrite app_nil_r, <- app_assoc. reflexivity.
  - unfold RawMemory_dtor, Deallocate. repeat step.
    destruct n as [|n']; [lia|]. cbn [replicate]. repeat step.
    cbn [length]. rewrite length_replicate.
    unfold empty_raw. rewrite <- !app_assoc. reflexivity.
Qed.

End ConstructorFacts.

(** * The remaining member functions *)

(** ** [Resize], outcome by outcome *)

Section ResizeSpec.
Context {T : Type} `{!Element T}.
Implicit Types (x : T) (xs : list T) (v o : Vector T) (d : RawMemory T).

Lemma resized_ge n xs :
  length xs <= n -> resized n xs = xs ++ replicate (n - length xs) value_init.
Proof. intros H. unfold resized. rewrite take_ge by lia. reflexivity. Qed.

Lemma resized_le n xs : n <= length xs -> resized n xs = take n xs.
Proof.
  intros H. unfold resized. replace (n - length xs) with 0 by lia. apply app_nil_r.
Qed.

(** [Resize(n)] with [n] at least the size, by the schedule. *)
Lemma Resize_grow_spec xs cap n o d c lg :
  length xs <= cap -> length xs <= n ->
  Resize n (mkState (vector_of xs cap) o d c lg) =
  if n <=? cap then
    match spend (n - length xs) c with
    | Some c' =>
        Ret tt (mkState (vector_of (resized n xs) cap) o d c'
                  (lg ++ value_events (Here, length xs) (n - length xs)))
    | None =>
        Raise (mkState (vector_of xs cap) o d None
                 (lg ++ value_events (Here, length xs) (passed c)
                     ++ unwind_events (Here, length xs) (passed c)))
    end
  else
    match spend 1 c with
    | None => Raise (mkState (vector_of xs cap) o d None lg)
    | Some c1 =>
      match spend (relocation_ticks (length xs)) c1 with
      | None =>
          Raise (mkState (vector_of (abandoned (passed c1) xs) cap) o empty_raw None
                   (lg ++ EvAllocate n
                       :: relocation_events (Here, 0) (New, 0) (passed c1)
                       ++ unwind_events (New, 0) (passed c1)
                       ++ [EvDeallocate n]))
      | Some c2 =>
        match spend (n - length xs) c2 with
        | Some c3 =>
            Ret tt (mkState (vector_of (resized n xs) n) o empty_raw c3
                      ((lg ++ EvAllocate n
                           :: relocation_events (Here, 0) (New, 0) (length xs)
                           ++ destroy_events (Here, 0) (length xs))
                          ++ value_events (Here, length xs) (n - length xs)))
        | None =>
            Raise (mkState (vector_of xs n) o empty_raw None
                     ((lg ++ EvAllocate n
                          :: relocation_events (Here, 0) (New, 0) (length xs)
                          ++ destroy_events (Here, 0) (length xs))
                         ++ value_events (Here, length xs) (passed c2)
                         ++ unwind_events (Here, length xs) (passed c2)))
        end
      end
    end.
Proof.
  intros Hcap Hn. rewrite resized_ge by assumption.
  unfold Resize, Size, get_size. repeat step. rewrite size_vector_of.
  rewrite (proj2 (Nat.ltb_ge n (length xs))) by lia.
  unfold Capacity, RawMemory_Capacity. repeat step.
  rewrite capacity_vector_of.
  change (Here, 0 + length xs) with (padd (RawMemory_GetAddress Here) (length xs)).
  destruct (n <? cap) eqn:Hlt; [apply Nat.ltb_lt in Hlt|apply Nat.ltb_ge in Hlt].
  - rewrite (proj2 (Nat.leb_le n cap)) by lia.
    rewrite Resize_construct by lia. reflexivity.
  - rewrite bind_assoc, bind_unfold.
    destruct (decide (n = cap)) as [->|Hne].
    + rewrite Nat.leb_refl. rewrite Reserve_noop by lia.
      rewrite Resize_construct by lia. reflexivity.
    + rewrite (proj2 (Nat.leb_gt n cap)) by lia.
      rewrite Reserve_spec by lia.
      destruct (spend 1 c) as [c1|]; [|reflexivity].
      destruct (spend (relocation_ticks (length xs)) c1) as [c2|]; [|reflexivity].
      rewrite Resize_construct by lia. reflexivity.
Qed.

End ResizeSpec.

Section ResizeTheorems.
Context {T : Type} `{!Element T}.
Implicit Types (x : T) (xs : list T) (v o : Vector T) (d : RawMemory T).

(** A relocation that fails leaves the old elements as they were, unless
    [T] is a move-only type whose move constructor may throw. *)
Lemma relocation_failure_keeps xs c1 :
  is_nothrow_move_constructible || is_copy_constructible = true ->
  spend (relocation_ticks (length xs)) c1 = None ->
  abandoned (passed c1) xs = xs.
Proof.
  unfold relocation_ticks, abandoned, relocates_by_move, move_ticks.
  destruct is_nothrow_move_constructible, is_copy_constructible; cbn [orb negb];
    try discriminate; try reflexivity.
  all: rewrite spend_0; discriminate.
Qed.

Lemma Resize_returns xs cap n o d c lg s' :
  length xs <= cap ->
  Resize n (mkState (vector_of xs cap) o d c lg) = Ret tt s' ->
  this s' = vector_of (resized n xs) (cap `max` n) /\ other s' = o.
Proof.
  intros Hcap H. pose proof (Resize_outcome xs cap n o d c lg Hcap) as Hout.
  rewrite H in Hout. exact Hout.
Qed.

Lemma Resize_never_stuck xs cap n o d lg :
  length xs <= cap ->
  exists s', Resize n (mkState (vector_of xs cap) o d None lg) = Ret tt s'.
Proof.
  intros Hcap. destruct (decide (n < length xs)) as [Hlt|Hge].
  - rewrite Resize_shrink by assumption. eexists. reflexivity.
  - rewrite Resize_grow_spec by lia. rewrite !spend_None.
    destruct (n <=? cap); eexists; reflexivity.
Qed.

Lemma lookup_resized_old n xs i :
  i < n -> i < length xs -> resized n xs !! i = xs !! i.
Proof.
  intros Hn Hi. unfold resized.
  rewrite lookup_app_l by (rewrite length_take; lia).
  apply lookup_take_lt. exact Hn.
Qed.

Lemma lookup_resized_new n xs i :
  length xs <= i < n -> resized n xs !! i = Some value_init.
Proof.
  intros [Hi Hn]. unfold resized. rewrite take_ge by lia.
  rewrite lookup_app_r by lia. apply lookup_replicate_2. lia.
Qed.

End ResizeTheorems.

(** X1.  Let [n * sizeof(T)] fit [size_t].  Whenever [Resize(n)] returns,
    the size is [n], the capacity is the larger of the old capacity and
    [n], the elements below both [n] and the old size are as they were,
    those from the old size on are value-initialised, and the invariant
    holds; the other vector is not touched.  [Resize(n)] returns when no
    exception is scheduled. *)
Theorem Resize_result (T : Type) (E : Element T) (sizeof : positive)
    (v o : Vector T) (d : RawMemory T) (c : option nat) (lg : list event) (n : nat) :
  invariant v ->
  fits sizeof n ->
  (forall s', Resize_wrapping sizeof n (mkState v o d c lg) = Ret tt s' ->
     size_ (this s') = n /\
     capacity_ (data_ (this s')) = capacity_ (data_ v) `max` n /\
     elements (this s') = take n (elements v) ++ replicate (n - size_ v) value_init /\
     (forall i, i < n -> i < size_ v -> elements (this s') !! i = elements v !! i) /\
     (forall i, size_ v <= i < n -> elements (this s') !! i = Some value_init) /\
     invariant (this s') /\
     other s' = o) /\
  (exists s', Resize_wrapping sizeof n (mkState v o d None lg) = Ret tt s').
Proof.
  intros Hv Hfit. rewrite Resize_wrapping_fits by exact Hfit.
  canonical v Hv xs cap. split.
  - intros s' H. destruct (Resize_returns xs cap n o d c lg s' Hle H) as [Hthis Ho].
    rewrite Hthis, size_vector_of, capacity_vector_of, elements_vector_of.
    split_and!.
    + apply length_resized.
    + reflexivity.
    + reflexivity.
    + intros i Hn Hi. apply lookup_resized_old; assumption.
    + intros i Hi. apply lookup_resized_new; assumption.
    + apply invariant_vector_of. rewrite length_resized. lia.
    + exact Ho.
  - apply Resize_never_stuck. exact Hle.
Qed.

(** The theorem at the vector [[1; 2]] of capacity 2, resized to 5, for a
    [T] of 8 bytes. *)
Lemma Resize_result_witness :
  invariant (vector_of [1; 2] 2) /\
  fits 8 5 /\
  exists s', @Resize_wrapping nat int_element 8 5 (call (vector_of [1; 2] 2) None)
             = Ret tt s'.
Proof.
  assert (H : invariant (vector_of [1; 2] 2))
    by (apply invariantb_sound; reflexivity).
  assert (Hfit : fits 8 5) by (vm_compute; discriminate).
  split; [exact H|]. split; [exact Hfit|].
  exact (proj2 (Resize_result nat int_element 8 (vector_of [1; 2] 2) empty_vector
                  empty_raw None [] 5 H Hfit)).
Defined.

(** X2.  [Resize(n)] with [n] at most the size returns under every
    schedule: it allocates nothing, keeps the capacity and the first [n]
    elements, and destroys the elements of [[n, size)] in ascending order
    and nothing else. *)
Theorem Resize_down_never_throws (T : Type) (E : Element T) (v o : Vector T)
    (d : RawMemory T) (c : option nat) (lg : list event) (n : nat) :
  invariant v ->
  n <= size_ v ->
  Resize n (mkState v o d c lg) =
  Ret tt (mkState (vector_of (take n (elements v)) (capacity_ (data_ v))) o d c
            (lg ++ destroy_events (Here, n) (size_ v - n))).
Proof.
  intros Hv Hn. canonical v Hv xs cap.
  destruct (decide (n < length xs)) as [Hlt|Hge].
  - apply Resize_shrink; assumption.
  - assert (n = length xs) by lia. subst n.
    rewrite Resize_grow_spec by lia.
    rewrite (proj2 (Nat.leb_le (length xs) cap)) by lia.
    rewrite Nat.sub_diag, spend_0. cbn [value_events destroy_events].
    rewrite resized_le, app_nil_r by lia. reflexivity.
Qed.

(** The theorem at [[1; 2; 3]] of capacity 4, cut down to one element, with
    an exception scheduled for the first operation that may throw. *)
Lemma Resize_down_never_throws_witness :
  invariant (vector_of [1; 2; 3] 4) /\
  1 <= size_ (vector_of [1; 2; 3] 4) /\
  @Resize nat int_element 1 (call (vector_of [1; 2; 3] 4) (Some 0)) =
  Ret tt (mkState (vector_of [1] 4) empty_vector empty_raw (Some 0)
            [EvDestroy (At (Here, 1)); EvDestroy (At (Here, 2))]).
Proof.
  assert (H : invariant (vector_of [1; 2; 3] 4))
    by (apply invariantb_sound; reflexivity).
  assert (Hn : 1 <= size_ (vector_of [1; 2; 3] 4)) by (simpl; lia).
  split; [exact H|]. split; [exact Hn|].
  exact (Resize_down_never_throws nat int_element (vector_of [1; 2; 3] 4) empty_vector
           empty_raw (Some 0) [] 1 H Hn).
Defined.

(** X3.  Let [n * sizeof(T)] fit [size_t].  When [Resize(n)] leaves by an
    exception, the invariant holds, the size is the old one and the other
    vector is not touched; the capacity is the old one or [n]; and the
    elements have their old values unless [T] is a move-only type whose
    move constructor may throw. *)
Theorem Resize_basic_guarantee (T : Type) (E : Element T) (sizeof : positive)
    (v o : Vector T) (d : RawMemory T) (c : option nat) (lg : list event) (n : nat)
    (s' : state T) :
  invariant v ->
  fits sizeof n ->
  Resize_wrapping sizeof n (mkState v o d c lg) = Raise s' ->
  invariant (this s') /\
  size_ (this s') = size_ v /\
  other s' = o /\
  (capacity_ (data_ (this s')) = capacity_ (data_ v) \/
   capacity_ (data_ (this s')) = n) /\
  (is_nothrow_move_constructible || is_copy_constructible = true ->
   elements (this s') = elements v).
Proof.
  intros Hv Hfit. rewrite Resize_wrapping_fits by exact Hfit. clear Hfit.
  canonical v Hv xs cap.
  destruct (decide (n < length xs)) as [Hlt|Hge].
  { rewrite Resize_shrink by assumption. discriminate. }
  assert (Hkeep : forall ys cap',
    length ys = length xs -> length xs <= cap' -> cap' = cap \/ cap' = n ->
    (is_nothrow_move_constructible || is_copy_constructible = true -> ys = xs) ->
    invariant (vector_of ys cap') /\
    size_ (vector_of ys cap') = length xs /\
    o = o /\
    (capacity_ (data_ (vector_of ys cap')) = cap \/
     capacity_ (data_ (vector_of ys cap')) = n) /\
    (is_nothrow_move_constructible || is_copy_constructible = true ->
     elements (vector_of ys cap') = xs)).
  { intros ys cap' Hlen Hfit Hcap' Hsame.
    rewrite elements_vector_of, size_vector_of, capacity_vector_of.
    split_and!; try assumption; try reflexivity.
    apply invariant_vector_of. lia. }
  rewrite Resize_grow_spec by lia.
  destruct (n <=? cap) eqn:Hn; [apply Nat.leb_le in Hn|apply Nat.leb_gt in Hn].
  - destruct (spend (n - length xs) c); [discriminate|]. intros [= <-]. cbn [this other].
    apply Hkeep; auto.
  - destruct (spend 1 c) as [c1|].
    2:{ intros [= <-]. cbn [this other]. apply Hkeep; auto. }
    destruct (spend (relocation_ticks (length xs)) c1) as [c2|] eqn:Hrel.
    2:{ intros [= <-]. cbn [this other]. apply Hkeep; auto.
        - apply length_abandoned.
        - intros Hkind. by apply relocation_failure_keeps. }
    destruct (spend (n - length xs) c2); [discriminate|]. intros [= <-]. cbn [this other].
    apply Hkeep; auto. lia.
Qed.

(** The theorem at [[Val 1]] of capacity 1, resized to 3, when the first
    value-initialisation throws: the elements are relocated already, and
    the capacity is 3. *)
Lemma Resize_basic_guarantee_witness :
  invariant (vector_of [Val 1] 1) /\
  fits 8 3 /\
  @Resize_wrapping tracked throwing_element 8 3 (call (vector_of [Val 1] 1) (Some 2)) =
  Raise (mkState (vector_of [Val 1] 3) empty_vector empty_raw None
           [EvAllocate 3; EvCopyConstruct (At (Here, 0)) (At (New, 0));
            EvDestroy (At (Here, 0))]) /\
  invariant (vector_of [Val 1] 3).
Proof.
  assert (H : invariant (vector_of [Val 1] 1))
    by (apply invariantb_sound; reflexivity).
  assert (Hfit : fits 8 3) by (vm_compute; discriminate).
  split; [exact H|]. split; [exact Hfit|]. split; [reflexivity|].
  exact (proj1 (Resize_basic_guarantee tracked throwing_element 8 (vector_of [Val 1] 1)
                  empty_vector empty_raw (Some 2) [] 3
                  (mkState (vector_of [Val 1] 3) empty_vector empty_raw None
                     [EvAllocate 3; EvCopyConstruct (At (Here, 0)) (At (New, 0));
                      EvDestroy (At (Here, 0))]) H Hfit eq_refl)).
Defined.

(** ** The copy constructor and the destructor *)

Section LifetimeFacts.
Context {T : Type}.
Implicit Types (x : T) (xs ys : list T) (v o : Vector T) (d : RawMemory T).

Lemma spend_fails n c : spend n c = None -> passed c < n.
Proof.
  destruct c as [k|]; cbn [spend passed default]; [|discriminate].
  destruct (n <=? k) eqn:H; [discriminate|]. apply Nat.leb_gt in H. intros _. exact H.
Qed.

Lemma Vector_copy_empty v capo d c lg :
  Vector_copy (mkState v (vector_of [] capo) d c lg) =
  Ret tt (mkState (vector_of [] 0) (vector_of ([] : list T) capo) d c lg).
Proof. reflexivity. Qed.

Lemma Vector_copy_spec v ys capo d c lg :
  0 < length ys -> length ys <= capo ->
  Vector_copy (mkState v (vector_of ys capo) d c lg) =
  match spend 1 c with
  | None => Raise (mkState v (vector_of ys capo) d None lg)
  | Some c1 =>
      match spend (length ys) c1 with
      | Some c2 =>
          Ret tt (mkState (vector_of ys (length ys)) (vector_of ys capo) d c2
                    (lg ++ EvAllocate (length ys)
                        :: copy_events (There, 0) (Here, 0) (length ys)))
      | None =>
          Raise (mkState (mkVector empty_raw (length ys)) (vector_of ys capo) d None
                   (lg ++ EvAllocate (length ys)
                       :: copy_events (There, 0) (Here, 0) (passed c1)
                       ++ unwind_events (Here, 0) (passed c1)
                       ++ [EvDeallocate (length ys)]))
      end
  end.
Proof.
  intros Hn Hcapo.
  unfold Vector_copy, get_size, RawMemory_ctor, Allocate, set_size, Size, get_size.
  repeat step. rewrite size_vector_of.
  rewrite (proj2 (Nat.eqb_neq (length ys) 0)) by lia.
  repeat step. rewrite tick_bind. proj.
  destruct (spend 1 c) as [c1|]; [|reflexivity].
  repeat step. unfold on_raise.
  match goal with |- context [uninitialized_copy_n _ _ _ ?s1] =>
    pose proof (uninitialized_copy_n_spec There Here [] ys
                  (replicate (capo - length ys) Raw) [] [] s1
                  ltac:(discriminate) eq_refl) as Hrun
  end.
  cbn [length app] in Hrun. rewrite app_nil_r in Hrun.
  rewrite Hrun by reflexivity; clear Hrun. proj.
  destruct (spend (length ys) c1) as [c2|].
  - unfold vector_of. rewrite Nat.sub_diag. cbn [replicate].
    rewrite <- app_assoc. reflexivity.
  - unfold RawMemory_dtor, Deallocate. repeat step.
    destruct ys as [|y ys']; [cbn [length] in Hn; lia|].
    cbn [length replicate]. repeat step.
    cbn [length]. rewrite length_replicate.
    unfold empty_raw. rewrite <- !app_assoc. reflexivity.
Qed.

(** The events of [operator delete] on a block of [cap] slots: none for the
    null pointer. *)
Lemma Vector_dtor_spec xs cap o d c lg :
  length xs <= cap ->
  Vector_dtor (mkState (vector_of xs cap) o d c lg) =
  Ret tt (mkState (mkVector empty_raw (length xs)) o d c
            (lg ++ destroy_events (Here, 0) (length xs)
                ++ (if cap =? 0 then [] else [EvDeallocate cap]))).
Proof.
  intros Hcap. unfold Vector_dtor, Size, get_size. repeat step.
  rewrite size_vector_of, bind_unfold.
  pose proof (destroy_n_spec Here [] xs (replicate (cap - length xs) Raw)
                (mkState (vector_of xs cap) o d c lg) eq_refl) as Hrun.
  cbn [length app] in Hrun. rewrite Hrun; clear Hrun. proj.
  unfold RawMemory_dtor, Deallocate. repeat step.
  rewrite <- replicate_add. replace (length xs + (cap - length xs)) with cap by lia.
  destruct cap as [|cap'].
  - cbn [replicate Nat.eqb]. repeat step. rewrite app_nil_r. reflexivity.
  - cbn [replicate Nat.eqb]. repeat step. cbn [length]. rewrite length_replicate.
    rewrite <- app_assoc. reflexivity.
Qed.

End LifetimeFacts.

(** X4.  Let [n * sizeof(T)] fit [size_t].  Whenever [Vector(n)] returns,
    the vector holds [n] value-initialised elements in a block of exactly
    [n] slots and satisfies the invariant; it returns when no exception is
    scheduled; and [Vector(0)] returns under every schedule, with no
    allocation and nothing logged. *)
Theorem Vector_sized_result (T : Type) (E : Element T) (sizeof : positive)
    (v o : Vector T) (d : RawMemory T) (c : option nat) (lg : list event) (n : nat) :
  fits sizeof n ->
  (forall s', Vector_sized_wrapping sizeof n (mkState v o d c lg) = Ret tt s' ->
     size_ (this s') = n /\
     capacity_ (data_ (this s')) = n /\
     elements (this s') = replicate n value_init /\
     (forall i, i < n -> elements (this s') !! i = Some value_init) /\
     invariant (this s') /\
     other s' = o) /\
  (exists s', Vector_sized_wrapping sizeof n (mkState v o d None lg) = Ret tt s') /\
  Vector_sized_wrapping sizeof 0 (mkState v o d c lg) =
    Ret tt (mkState (vector_of [] 0) o d c lg).
Proof.
  intros Hfit.
  rewrite (Vector_sized_wrapping_fits sizeof n) by exact Hfit.
  rewrite (Vector_sized_wrapping_fits sizeof 0) by apply fits_0.
  assert (Hshape : forall o' d' c' lg',
    let s' := mkState (vector_of (replicate n (value_init : T)) n) o' d' c' lg' in
    size_ (this s') = n /\
    capacity_ (data_ (this s')) = n /\
    elements (this s') = replicate n value_init /\
    (forall i, i < n -> elements (this s') !! i = Some value_init) /\
    invariant (this s') /\
    other s' = o').
  { intros o' d' c' lg' s'. unfold s'. cbn [this other].
    rewrite size_vector_of, capacity_vector_of, elements_vector_of.
    split_and!; try reflexivity.
    - apply length_replicate.
    - intros i Hi. by apply lookup_replicate_2.
    - apply invariant_vector_of. by rewrite length_replicate. }
  split_and!.
  - intros s'. destruct n as [|n'].
    + rewrite Vector_sized_0. intros [= <-]. apply (Hshape o d c lg).
    + rewrite Vector_sized_spec by lia.
      destruct (spend 1 c) as [c1|]; [|discriminate].
      destruct (spend (S n') c1) as [c2|]; [|discriminate].
      intros [= <-]. apply Hshape.
  - destruct n as [|n'].
    + rewrite Vector_sized_0. eexists. reflexivity.
    + rewrite Vector_sized_spec by lia. rewrite !spend_None. eexists. reflexivity.
  - apply Vector_sized_0.
Qed.

(** The theorem at [Vector(3)], for a [T] of 8 bytes. *)
Lemma Vector_sized_result_witness :
  fits 8 3 /\
  exists s', @Vector_sized_wrapping nat int_element 8 3 (call empty_vector None) = Ret tt s'.
Proof.
  assert (Hfit : fits 8 3) by (vm_compute; discriminate).
  split; [exact Hfit|].
  exact (proj1 (proj2 (Vector_sized_result nat int_element 8 empty_vector empty_vector
                         empty_raw None [] 3 Hfit))).
Defined.

(** X5.  Let [n * sizeof(T)] fit [size_t].  When [Vector(n)] leaves by an
    exception, either the allocation failed and nothing has happened, or
    some [k < n] elements had been constructed: each of them has been
    destroyed, once, and then the block has been released.  The order in
    which the library destroys them is not part of the statement. *)
Theorem Vector_sized_cleans_up (T : Type) (E : Element T) (sizeof : positive)
    (v o : Vector T) (d : RawMemory T) (c : option nat) (lg : list event) (n : nat)
    (s' : state T) :
  fits sizeof n ->
  Vector_sized_wrapping sizeof n (mkState v o d c lg) = Raise s' ->
  other s' = o /\
  (log s' = lg \/
   exists k destroyed, k < n /\
     destroyed ≡ₚ destroy_events (Here, 0) k /\
     log s' = lg ++ EvAllocate n
                 :: value_events (Here, 0) k
                 ++ destroyed
                 ++ [EvDeallocate n]).
Proof.
  intros Hfit. rewrite Vector_sized_wrapping_fits by exact Hfit. clear Hfit.
  destruct n as [|n'].
  { rewrite Vector_sized_0. discriminate. }
  rewrite Vector_sized_spec by lia.
  destruct (spend 1 c) as [c1|].
  2:{ intros [= <-]. split; [reflexivity|]. left. reflexivity. }
  destruct (spend (S n') c1) as [c2|] eqn:Hc1; [discriminate|].
  intros [= <-]. split; [reflexivity|]. right.
  exists (passed c1), (unwind_events (Here, 0) (passed c1)).
  split; [by apply spend_fails|]. split; reflexivity.
Qed.

(** The theorem at [Vector(3)] when the third element constructor throws. *)
Lemma Vector_sized_cleans_up_witness :
  fits 8 3 /\
  @Vector_sized_wrapping tracked throwing_element 8 3 (call empty_vector (Some 3)) =
  Raise (mkState (mkVector empty_raw 3) empty_vector empty_raw None
           [EvAllocate 3; EvConstruct (At (Here, 0)); EvConstruct (At (Here, 1));
            EvDestroy (At (Here, 0)); EvDestroy (At (Here, 1)); EvDeallocate 3]) /\
  @other tracked
    (mkState (mkVector empty_raw 3) empty_vector empty_raw None
       [EvAllocate 3; EvConstruct (At (Here, 0)); EvConstruct (At (Here, 1));
        EvDestroy (At (Here, 0)); EvDestroy (At (Here, 1)); EvDeallocate 3]) =
  empty_vector.
Proof.
  assert (Hfit : fits 8 3) by (vm_compute; discriminate).
  split; [exact Hfit|]. split; [reflexivity|].
  exact (proj1 (Vector_sized_cleans_up tracked throwing_element 8 empty_vector empty_vector
                  empty_raw (Some 3) [] 3
                  (mkState (mkVector empty_raw 3) empty_vector empty_raw None
                     [EvAllocate 3; EvConstruct (At (Here, 0)); EvConstruct (At (Here, 1));
                      EvDestroy (At (Here, 0)); EvDestroy (At (Here, 1)); EvDeallocate 3])
                  Hfit eq_refl)).
Defined.

(** X6.  Whenever the copy constructor returns, the new vector has the
    elements of the source in a block of exactly [other.size_] slots, not
    of the source's capacity, and the source is as it was; it returns when
    no exception is scheduled.  When it leaves by an exception, the source
    is as it was, and either the allocation failed or each of the [k]
    copies made has been destroyed, once, and then the block released.  The
    order in which the library destroys the copies is not part of the
    statement. *)
Theorem Vector_copy_result (T : Type) (v w : Vector T) (d : RawMemory T)
    (c : option nat) (lg : list event) :
  invariant w ->
  (forall s', Vector_copy (mkState v w d c lg) = Ret tt s' ->
     elements (this s') = elements w /\
     size_ (this s') = size_ w /\
     capacity_ (data_ (this s')) = size_ w /\
     invariant (this s') /\
     other s' = w) /\
  (exists s', Vector_copy (mkState v w d None lg) = Ret tt s') /\
  (forall s', Vector_copy (mkState v w d c lg) = Raise s' ->
     other s' = w /\
     (log s' = lg \/
      exists k destroyed, k < size_ w /\
        destroyed ≡ₚ destroy_events (Here, 0) k /\
        log s' = lg ++ EvAllocate (size_ w)
                    :: copy_events (There, 0) (Here, 0) k
                    ++ destroyed
                    ++ [EvDeallocate (size_ w)])).
Proof.
  intros Hw. canonical w Hw ys capo.
  destruct (decide (length ys = 0)) as [Hz|Hnz].
  - destruct ys; [|discriminate]. rewrite !Vector_copy_empty. split_and!.
    + intros s' [= <-]. cbn [this other].
      rewrite elements_vector_of, size_vector_of, capacity_vector_of.
      split_and!; try reflexivity. by apply invariant_vector_of.
    + eexists. reflexivity.
    + intros s'. discriminate.
  - rewrite !Vector_copy_spec by lia. split_and!.
    + intros s'.
      destruct (spend 1 c) as [c1|]; [|discriminate].
      destruct (spend (length ys) c1) as [c2|]; [|discriminate].
      intros [= <-]. cbn [this other].
      rewrite elements_vector_of, size_vector_of, capacity_vector_of.
      split_and!; try reflexivity. by apply invariant_vector_of.
    + rewrite !spend_None. eexists. reflexivity.
    + intros s'.
      destruct (spend 1 c) as [c1|].
      2:{ intros [= <-]. split; [reflexivity|]. left. reflexivity. }
      destruct (spend (length ys) c1) as [c2|] eqn:Hc1; [discriminate|].
      intros [= <-]. split; [reflexivity|]. right.
      exists (passed c1), (unwind_events (Here, 0) (passed c1)).
      split; [by apply spend_fails|]. split; reflexivity.
Qed.

(** The theorem at the source [[1; 2]] of capacity 8. *)
Lemma Vector_copy_result_witness :
  invariant (vector_of [1; 2] 8) /\
  exists s', @Vector_copy nat (call2 empty_vector (vector_of [1; 2] 8) None) = Ret tt s'.
Proof.
  assert (H : invariant (vector_of [1; 2] 8))
    by (apply invariantb_sound; reflexivity).
  split; [exact H|].
  exact (proj1 (proj2 (Vector_copy_result nat empty_vector (vector_of [1; 2] 8)
                         empty_raw None [] H))).
Defined.

(** X7.  The destructor of a vector that satisfies the invariant returns
    under every schedule: it destroys the [size_] elements in ascending
    order, touches no raw slot, and releases the block once, or not at all
    when the capacity is 0. *)
Theorem Vector_dtor_releases (T : Type) (v o : Vector T) (d : RawMemory T)
    (c : option nat) (lg : list event) :
  invariant v ->
  exists s',
    Vector_dtor (mkState v o d c lg) = Ret tt s' /\
    log s' = lg ++ destroy_events (Here, 0) (size_ v)
                ++ (if capacity_ (data_ v) =? 0 then []
                    else [EvDeallocate (capacity_ (data_ v))]) /\
    countdown s' = c /\
    other s' = o.
Proof.
  intros Hv. canonical v Hv xs cap.
  rewrite Vector_dtor_spec by assumption. eexists. split_and!; reflexivity.
Qed.

(** The theorem at [[1; 2]] of capacity 4, with an exception scheduled. *)
Lemma Vector_dtor_releases_witness :
  invariant (vector_of [1; 2] 4) /\
  exists s',
    @Vector_dtor nat (call (vector_of [1; 2] 4) (Some 0)) = Ret tt s' /\
    log s' = [EvDestroy (At (Here, 0)); EvDestroy (At (Here, 1)); EvDeallocate 4] /\
    countdown s' = Some 0 /\
    other s' = empty_vector.
Proof.
  assert (H : invariant (vector_of [1; 2] 4))
    by (apply invariantb_sound; reflexivity).
  split; [exact H|].
  exact (Vector_dtor_releases nat (vector_of [1; 2] 4) empty_vector empty_raw (Some 0) [] H).
Defined.

(** ** [Swap], [operator[]], [PopBack] and the push functions with room *)

(** X8.  [Swap] exchanges the storage and the size of the two vectors and
    does nothing else: no element is constructed, assigned or destroyed,
    nothing is allocated, and it returns under every schedule.  Swapping
    twice restores both vectors, and a vector swapped with itself is as it
    was. *)
Theorem Swap_exchanges (T : Type) (v w : Vector T) (d : RawMemory T)
    (c : option nat) (lg : list event) :
  Swap Other (mkState v w d c lg) = Ret tt (mkState w v d c lg) /\
  (Swap Other;; Swap Other) (mkState v w d c lg) = Ret tt (mkState v w d c lg) /\
  Swap Self (mkState v w d c lg) = Ret tt (mkState v w d c lg).
Proof.
  destruct v as [dv nv], w as [dw nw]. split_and!; reflexivity.
Qed.

(** X9.  On a vector that satisfies the invariant, [operator[]] with an
    index below the size returns the address of slot [index], which holds
    the live element of that index, and changes nothing: the assertion of
    [RawMemory::operator[]] cannot fail after the one of the vector.  With
    an index at or above the size the assertion [index < size_] fails. *)
Theorem Vector_at_bounds (T : Type) (v o : Vector T) (d : RawMemory T)
    (c : option nat) (lg : list event) (i : nat) :
  invariant v ->
  (i < size_ v ->
   Vector_at i (mkState v o d c lg) = Ret (Here, i) (mkState v o d c lg) /\
   exists x, elements v !! i = Some x /\
             peek (Here, i) (mkState v o d c lg) = Ret x (mkState v o d c lg)) /\
  (size_ v <= i -> Vector_at i (mkState v o d c lg) = Undefined AssertionFailed).
Proof.
  intros Hv. canonical v Hv xs cap. split.
  - intros Hi. split.
    + unfold Vector_at, Size, get_size, RawMemory_at, RawMemory_Capacity.
      repeat step. rewrite size_vector_of.
      rewrite (proj2 (Nat.ltb_lt i (length xs)) Hi). repeat step.
      rewrite capacity_vector_of.
      rewrite (proj2 (Nat.ltb_lt i cap)) by lia. repeat step. reflexivity.
    + destruct (lookup_lt_is_Some_2 xs i Hi) as [x Hx]. exists x. split; [exact Hx|].
      apply peek_spec. unfold vector_of. proj.
      rewrite lookup_app_l by (rewrite length_map; lia).
      rewrite list_lookup_fmap, Hx. reflexivity.
  - intros Hi. unfold Vector_at, Size, get_size. repeat step. rewrite size_vector_of.
    rewrite (proj2 (Nat.ltb_ge i (length xs)) Hi). reflexivity.
Qed.

(** The theorem at [[1; 2; 3]] of capacity 4 and index 1. *)
Lemma Vector_at_bounds_witness :
  invariant (vector_of [1; 2; 3] 4) /\
  1 < size_ (vector_of [1; 2; 3] 4) /\
  @Vector_at nat 1 (call (vector_of [1; 2; 3] 4) None) =
  Ret (Here, 1) (call (vector_of [1; 2; 3] 4) None).
Proof.
  assert (H : invariant (vector_of [1; 2; 3] 4))
    by (apply invariantb_sound; reflexivity).
  assert (Hi : 1 < size_ (vector_of [1; 2; 3] 4)) by (simpl; lia).
  split; [exact H|]. split; [exact Hi|].
  exact (proj1 (proj1 (Vector_at_bounds nat (vector_of [1; 2; 3] 4) empty_vector
                         empty_raw None [] 1 H) Hi)).
Defined.

Section PopBackFacts.
Context {T : Type}.
Implicit Types (x : T) (xs : list T) (v o : Vector T) (d : RawMemory T).

Lemma PopBack_nonempty xs cap o d c lg :
  0 < length xs -> length xs <= cap ->
  PopBack (mkState (vector_of xs cap) o d c lg) =
  Ret tt (mkState (vector_of (take (length xs - 1) xs) cap) o d c
            (lg ++ [EvDestroy (At (Here, length xs - 1))])).
Proof.
  intros Hpos Hcap. destruct xs as [|x xs _] using rev_ind; [cbn [length] in Hpos; lia|].
  rewrite length_app in *. cbn [length] in *.
  replace (length xs + 1 - 1) with (length xs) by lia.
  rewrite take_app_length. apply PopBack_spec. lia.
Qed.

End PopBackFacts.

(** X10.  [PopBack] on an empty vector does nothing.  On a non-empty vector
    that satisfies the invariant it returns under every schedule, destroys
    the last element and no other, and leaves the other elements and the
    capacity as they were. *)
Theorem PopBack_removes_last (T : Type) (v o : Vector T) (d : RawMemory T)
    (c : option nat) (lg : list event) :
  invariant v ->
  (size_ v = 0 -> PopBack (mkState v o d c lg) = Ret tt (mkState v o d c lg)) /\
  (0 < size_ v ->
   PopBack (mkState v o d c lg) =
   Ret tt (mkState (vector_of (take (size_ v - 1) (elements v)) (capacity_ (data_ v)))
             o d c (lg ++ [EvDestroy (At (Here, size_ v - 1))]))).
Proof.
  intros Hv. canonical v Hv xs cap. split.
  - intros Hz. destruct xs; [|discriminate]. apply PopBack_empty.
  - intros Hpos. apply PopBack_nonempty; assumption.
Qed.

(** The theorem at [[1; 2; 3]] of capacity 4. *)
Lemma PopBack_removes_last_witness :
  invariant (vector_of [1; 2; 3] 4) /\
  @PopBack nat (call (vector_of [1; 2; 3] 4) (Some 0)) =
  Ret tt (mkState (vector_of [1; 2] 4) empty_vector empty_raw (Some 0)
            [EvDestroy (At (Here, 2))]).
Proof.
  assert (H : invariant (vector_of [1; 2; 3] 4))
    by (apply invariantb_sound; reflexivity).
  assert (Hpos : 0 < size_ (vector_of [1; 2; 3] 4)) by (simpl; lia).
  split; [exact H|].
  exact (proj2 (PopBack_removes_last nat (vector_of [1; 2; 3] 4) empty_vector
                  empty_raw (Some 0) [] H) Hpos).
Defined.

Section PushRoomTheorems.
Context {T : Type} `{!Element T}.
Implicit Types (x : T) (xs : list T) (v o : Vector T) (d : RawMemory T).

Lemma EmplaceBack_room xs x cap o d c lg :
  length xs < cap ->
  EmplaceBack x (mkState (vector_of xs cap) o d c lg) =
  match spend 1 c with
  | Some c1 =>
      Ret (Here, length xs)
          (mkState (vector_of (xs ++ [x]) cap) o d c1
             (lg ++ [EvConstruct (At (Here, length xs))]))
  | None => Raise (mkState (vector_of xs cap) o d None lg)
  end.
Proof.
  intros Hlt. rewrite EmplaceBack_shared, bind_unfold.
  rewrite (push_back_with_room _ x 1 EvConstruct) by (try apply constructs_args; lia).
  destruct (spend 1 c) as [c1|]; [|reflexivity].
  apply EmplaceBack_return. exact Hlt.
Qed.

Lemma EmplaceBack_grow xs x o d c lg :
  EmplaceBack x (mkState (vector_of xs (length xs)) o d c lg) =
  match spend 1 c with
  | None => Raise (mkState (vector_of xs (length xs)) o d None lg)
  | Some c1 =>
      match spend 1 c1 with
      | None =>
          Raise (mkState (vector_of xs (length xs)) o empty_raw None
                   (lg ++ [EvAllocate (grown (length xs));
                           EvDeallocate (grown (length xs))]))
      | Some c2 =>
          match spend (relocation_ticks (length xs)) c2 with
          | Some c3 =>
              Ret (Here, length xs)
                  (mkState (vector_of (xs ++ [x]) (grown (length xs))) o empty_raw c3
                        (lg ++ EvAllocate (grown (length xs))
                            :: EvConstruct (At (New, length xs))
                            :: relocation_events (Here, 0) (New, 0) (length xs)
                            ++ destroy_events (Here, 0) (length xs)))
          | None =>
              Raise (mkState (vector_of (abandoned (passed c2) xs) (length xs))
                       o empty_raw None
                       (lg ++ EvAllocate (grown (length xs))
                           :: EvConstruct (At (New, length xs))
                           :: relocation_events (Here, 0) (New, 0) (passed c2)
                           ++ unwind_events (New, 0) (passed c2)
                           ++ [EvDeallocate (grown (length xs))]))
          end
      end
  end.
Proof.
  rewrite EmplaceBack_shared, bind_unfold.
  rewrite (push_back_with_grow _ x 1 EvConstruct) by apply constructs_args.
  destruct (spend 1 c) as [c1|]; [|reflexivity].
  destruct (spend 1 c1) as [c2|]; [|reflexivity].
  destruct (spend _ c2) as [c3|]; [|reflexivity].
  apply EmplaceBack_return. apply grown_gt.
Qed.

End PushRoomTheorems.

(** X11.  With room to spare ([size < capacity]) the three push functions
    construct the new element in slot [size_] and do nothing else: no
    allocation, no existing element copied, moved or destroyed, the
    capacity unchanged; [EmplaceBack] returns a reference to the new last
    element.  They meet the strong guarantee for every [T]: when the
    constructor of the new element throws, the vector and the log are as
    before the call.  They return when no exception is scheduled. *)
Theorem push_back_in_place (T : Type) (E : Element T) (v o : Vector T)
    (d : RawMemory T) (c : option nat) (lg : list event) (x : T) :
  invariant v ->
  size_ v < capacity_ (data_ v) ->
  let appended := vector_of (elements v ++ [x]) (capacity_ (data_ v)) in
  (forall s', PushBack x (mkState v o d c lg) = Ret tt s' ->
     this s' = appended /\
     log s' = lg ++ [EvCopyConstruct Local (At (Here, size_ v))]) /\
  (forall s', PushBack_move x (mkState v o d c lg) = Ret tt s' ->
     this s' = appended /\
     log s' = lg ++ [EvMoveConstruct Local (At (Here, size_ v))]) /\
  (forall p s', EmplaceBack x (mkState v o d c lg) = Ret p s' ->
     this s' = appended /\ p = (Here, size_ v) /\
     log s' = lg ++ [EvConstruct (At (Here, size_ v))]) /\
  (forall s', PushBack x (mkState v o d c lg) = Raise s' -> this s' = v /\ log s' = lg) /\
  (forall s', PushBack_move x (mkState v o d c lg) = Raise s' ->
     this s' = v /\ log s' = lg) /\
  (forall s', EmplaceBack x (mkState v o d c lg) = Raise s' ->
     this s' = v /\ log s' = lg) /\
  (exists s', PushBack x (mkState v o d None lg) = Ret tt s') /\
  (exists s', PushBack_move x (mkState v o d None lg) = Ret tt s') /\
  (exists p s', EmplaceBack x (mkState v o d None lg) = Ret p s').
Proof.
  intros Hv Hroom appended. unfold appended. clear appended.
  canonical v Hv xs cap.
  rewrite PushBack_shared, PushBack_move_shared.
  rewrite !(push_back_with_room (T_copy_construct_from x) x 1 (EvCopyConstruct Local))
    by (try apply constructs_copy; lia).
  rewrite !(push_back_with_room (T_move_construct_from x) x (move_ticks 1)
              (EvMoveConstruct Local))
    by (try apply constructs_move; lia).
  rewrite !EmplaceBack_room by lia. rewrite !spend_None.
  split_and!.
  - intros s'. destruct (spend 1 c); [|discriminate]. intros [= <-]. split; reflexivity.
  - intros s'. destruct (spend (move_ticks 1) c); [|discriminate].
    intros [= <-]. split; reflexivity.
  - intros p s'. destruct (spend 1 c); [|discriminate].
    intros [= <- <-]. split_and!; reflexivity.
  - intros s'. destruct (spend 1 c); [discriminate|]. intros [= <-]. split; reflexivity.
  - intros s'. destruct (spend (move_ticks 1) c); [discriminate|].
    intros [= <-]. split; reflexivity.
  - intros s'. destruct (spend 1 c); [discriminate|]. intros [= <-]. split; reflexivity.
  - eexists. reflexivity.
  - eexists. reflexivity.
  - eexists _, _. reflexivity.
Qed.

(** The theorem at [[Val 1]] of capacity 2, when the constructor of the new
    element throws. *)
Lemma push_back_in_place_witness :
  invariant (vector_of [Val 1] 2) /\
  size_ (vector_of [Val 1] 2) < capacity_ (data_ (vector_of [Val 1] 2)) /\
  @PushBack tracked throwing_element (Val 2) (call (vector_of [Val 1] 2) (Some 0)) =
  Raise (mkState (vector_of [Val 1] 2) empty_vector empty_raw None []) /\
  this (mkState (vector_of [Val 1] 2) empty_vector empty_raw None []) =
  vector_of [Val 1] 2.
Proof.
  assert (H : invariant (vector_of [Val 1] 2))
    by (apply invariantb_sound; reflexivity).
  assert (Hroom : size_ (vector_of [Val 1] 2) < capacity_ (data_ (vector_of [Val 1] 2)))
    by (simpl; lia).
  split; [exact H|]. split; [exact Hroom|]. split; [reflexivity|].
  exact (proj1 (proj1 (proj2 (proj2 (proj2
           (push_back_in_place tracked throwing_element (vector_of [Val 1] 2)
              empty_vector empty_raw (Some 0) [] (Val 2) H Hroom))))
           (mkState (vector_of [Val 1] 2) empty_vector empty_raw None []) eq_refl)).
Defined.

(** X12.  With no exception scheduled, [PushBack(x)] followed by [PopBack]
    returns and gives back the elements and the size the vector had; the
    capacity is the old one when there was room and [max(1, 2 * capacity)]
    when the vector was full. *)
Theorem PushBack_PopBack_round_trip (T : Type) (E : Element T) (v o : Vector T)
    (d : RawMemory T) (lg : list event) (x : T) :
  invariant v ->
  exists s',
    (PushBack x;; PopBack) (mkState v o d None lg) = Ret tt s' /\
    elements (this s') = elements v /\
    size_ (this s') = size_ v /\
    capacity_ (data_ (this s')) =
      (if size_ v =? capacity_ (data_ v) then Nat.max 1 (2 * capacity_ (data_ v))
       else capacity_ (data_ v)) /\
    invariant (this s').
Proof.
  intros Hv. canonical v Hv xs cap.
  rewrite bind_unfold, PushBack_shared.
  destruct (decide (length xs = cap)) as [<-|Hne].
  - rewrite (push_back_with_grow _ x 1 (EvCopyConstruct Local)) by apply constructs_copy.
    rewrite !spend_None. rewrite PopBack_spec by apply grown_gt.
    eexists. split; [reflexivity|]. cbn [this].
    rewrite elements_vector_of, size_vector_of, capacity_vector_of, Nat.eqb_refl.
    split_and!; try reflexivity.
    + apply grown_max.
    + apply invariant_vector_of. pose proof (grown_gt (length xs)). lia.
  - rewrite (push_back_with_room _ x 1 (EvCopyConstruct Local))
      by (try apply constructs_copy; lia).
    rewrite spend_None. rewrite PopBack_spec by lia.
    eexists. split; [reflexivity|]. cbn [this].
    rewrite elements_vector_of, size_vector_of, capacity_vector_of.
    rewrite (proj2 (Nat.eqb_neq (length xs) cap) Hne).
    split_and!; try reflexivity. by apply invariant_vector_of.
Qed.

(** The theorem at the full vector [[1; 2]]. *)
Lemma PushBack_PopBack_round_trip_witness :
  invariant (vector_of [1; 2] 2) /\
  exists s',
    (@PushBack nat int_element 3;; PopBack) (call (vector_of [1; 2] 2) None) = Ret tt s' /\
    elements (this s') = [1; 2].
Proof.
  assert (H : invariant (vector_of [1; 2] 2))
    by (apply invariantb_sound; reflexivity).
  split; [exact H|].
  destruct (PushBack_PopBack_round_trip nat int_element (vector_of [1; 2] 2) empty_vector
              empty_raw [] 3 H) as (s' & Hrun & Hel & _).
  exists s'. split; [exact Hrun|exact Hel].
Defined.

(** ** Insertion and removal together *)

Section InsertEraseFacts.
Context {T : Type} `{!Element T}.
Implicit Types (x : T) (xs : list T) (v o : Vector T) (d : RawMemory T).

Lemma relocation_ticks_0 : relocation_ticks 0 = 0.
Proof.
  unfold relocation_ticks, move_ticks.
  destruct relocates_by_move, is_nothrow_move_constructible; reflexivity.
Qed.

Lemma relocation_events_0 src dst : relocation_events src dst 0 = [].
Proof. unfold relocation_events. destruct relocates_by_move; reflexivity. Qed.

Lemma abandoned_nil k : abandoned k ([] : list T) = [].
Proof.
  unfold abandoned, moved_prefix. destruct relocates_by_move; [|reflexivity].
  rewrite take_nil, drop_nil. reflexivity.
Qed.

(** [Emplace] with no exception scheduled: the state it returns in. *)
Lemma Emplace_runs xs1 xs2 x cap o d lg :
  length (xs1 ++ xs2) <= cap ->
  exists cap' d' lg',
    Emplace (length xs1) x (mkState (vector_of (xs1 ++ xs2) cap) o d None lg) =
    Ret (Here, length xs1) (mkState (vector_of (xs1 ++ x :: xs2) cap') o d' None lg') /\
    length (xs1 ++ x :: xs2) <= cap' /\
    cap' = if length (xs1 ++ xs2) =? cap then grown cap else cap.
Proof.
  intros Hcap.
  assert (Hlen : length (xs1 ++ x :: xs2) = length (xs1 ++ xs2) + 1)
    by (rewrite !length_app; cbn [length]; lia).
  destruct (decide (length (xs1 ++ xs2) = cap)) as [<-|Hroom].
  - rewrite Nat.eqb_refl. rewrite Emplace_with.
    rewrite (insert_with_grow _ _ x 1 EvConstruct) by apply constructs_args.
    rewrite !spend_None. eexists _, _, _. split; [reflexivity|]. split; [|reflexivity].
    pose proof (grown_gt (length (xs1 ++ xs2))). lia.
  - rewrite (proj2 (Nat.eqb_neq _ _) Hroom).
    destruct xs2 as [|l mid _] using rev_ind.
    + rewrite app_nil_r in *. rewrite Emplace_at_end_in_place by lia.
      rewrite spend_None. eexists _, _, _. split; [reflexivity|].
      split; [|reflexivity]. rewrite length_app. cbn [length]. lia.
    + pose proof (insert_with_in_place_spec (T_construct_from_args x)
                    (fun sz => if length xs1 =? sz then
                                 p ← RawMemory_plus Here sz;
                                 T_construct_from_args x p
                               else insert_in_place sz (length xs1)
                                      (tick;; emit (EvConstruct Local)) x)
                    (tick;; emit (EvConstruct Local)) 1 (EvConstruct Local)
                    x xs1 mid l cap o d None lg (initializes_tick _)) as Hrun.
      cbv zeta in Hrun. rewrite !spend_None in Hrun.
      rewrite Emplace_with, Hrun.
      * eexists _, _, _. split; [reflexivity|]. split; [lia|reflexivity].
      * rewrite (proj2 (Nat.eqb_neq _ _)); [reflexivity|].
        rewrite !length_app. cbn [length]. lia.
      * lia.
Qed.

End InsertEraseFacts.

(** X13.  With no exception scheduled, [Emplace(pos, x)] at any position of
    [[begin, end]] followed by [Erase(pos)] returns, with the position, and
    gives back the elements and the size the vector had; the capacity is
    the old one when there was room and [max(1, 2 * capacity)] when the
    vector was full. *)
Theorem Emplace_Erase_round_trip (T : Type) (E : Element T) (v o : Vector T)
    (d : RawMemory T) (lg : list event) (pos : nat) (x : T) :
  invariant v ->
  pos <= size_ v ->
  exists s',
    (Emplace pos x;; Erase pos) (mkState v o d None lg) = Ret (Here, pos) s' /\
    elements (this s') = elements v /\
    size_ (this s') = size_ v /\
    capacity_ (data_ (this s')) =
      (if size_ v =? capacity_ (data_ v) then Nat.max 1 (2 * capacity_ (data_ v))
       else capacity_ (data_ v)) /\
    invariant (this s').
Proof.
  intros Hv Hpos. canonical v Hv xs cap.
  assert (Hxs : xs = take pos xs ++ drop pos xs) by (symmetry; apply take_drop).
  assert (Hlen : pos = length (take pos xs)) by (rewrite length_take; lia).
  revert Hxs Hlen Hle. generalize (take pos xs) (drop pos xs). intros xs1 xs2 -> -> Hle.
  destruct (Emplace_runs xs1 xs2 x cap o d lg Hle) as (cap' & d' & lg' & Hrun & Hfit & Hcap').
  rewrite bind_unfold, Hrun.
  pose proof (Erase_spec xs1 x xs2 cap' o d' None lg' Hfit) as Herase.
  rewrite spend_None in Herase. rewrite Herase.
  eexists. split; [reflexivity|]. cbn [this].
  rewrite elements_vector_of, size_vector_of, capacity_vector_of.
  split_and!; try reflexivity.
  - rewrite Hcap'. destruct (length (xs1 ++ xs2) =? cap) eqn:Hfull; [|reflexivity].
    apply Nat.eqb_eq in Hfull. subst cap. apply grown_max.
  - apply invariant_vector_of. rewrite !length_app in *. cbn [length] in Hfit. lia.
Qed.

(** The theorem at [[1; 2; 3]] of capacity 4, inserting 9 at index 1. *)
Lemma Emplace_Erase_round_trip_witness :
  invariant (vector_of [1; 2; 3] 4) /\
  1 <= size_ (vector_of [1; 2; 3] 4) /\
  exists s',
    (@Emplace nat int_element 1 9;; @Erase nat int_element 1) (call (vector_of [1; 2; 3] 4) None) =
    Ret (Here, 1) s' /\
    elements (this s') = [1; 2; 3].
Proof.
  assert (H : invariant (vector_of [1; 2; 3] 4))
    by (apply invariantb_sound; reflexivity).
  assert (Hpos : 1 <= size_ (vector_of [1; 2; 3] 4)) by (simpl; lia).
  split; [exact H|]. split; [exact Hpos|].
  destruct (Emplace_Erase_round_trip nat int_element (vector_of [1; 2; 3] 4) empty_vector
              empty_raw [] 1 9 H Hpos) as (s' & Hrun & Hel & _).
  exists s'. split; [exact Hrun|exact Hel].
Defined.

(** X14.  [Emplace(end(), args...)] is [EmplaceBack(args...)]: on a vector
    that satisfies the invariant the two calls have the same outcome under
    every schedule -- the same returned address, the same final state and
    log, the same state when an exception leaves -- whether the storage
    grows or not. *)
Theorem Emplace_at_end_is_EmplaceBack (T : Type) (E : Element T) (v o : Vector T)
    (d : RawMemory T) (c : option nat) (lg : list event) (x : T) :
  invariant v ->
  Emplace (size_ v) x (mkState v o d c lg) = EmplaceBack x (mkState v o d c lg).
Proof.
  intros Hv. canonical v Hv xs cap.
  destruct (decide (length xs = cap)) as [<-|Hroom].
  - rewrite EmplaceBack_grow, Emplace_with.
    pose proof (insert_with_grow (T_construct_from_args x)
                  (fun sz => if length xs =? sz then
                               p ← RawMemory_plus Here sz;
                               T_construct_from_args x p
                             else insert_in_place sz (length xs)
                                    (tick;; emit (EvConstruct Local)) x)
                  x 1 EvConstruct xs [] o d c lg (constructs_args x)) as Hrun.
    cbv zeta in Hrun. rewrite !app_nil_r in Hrun. rewrite Hrun. clear Hrun.
    rewrite Nat.sub_diag, relocation_ticks_0, relocation_events_0.
    destruct (spend 1 c) as [c1|]; [|reflexivity].
    destruct (spend 1 c1) as [c2|]; [|reflexivity].
    destruct (spend _ c2) as [c3|]; [|rewrite app_nil_r; reflexivity].
    rewrite spend_0. reflexivity.
  - rewrite Emplace_at_end_in_place, EmplaceBack_room by lia. reflexivity.
Qed.

(** The theorem at the full vector [[Val 1; Val 2]], when the second copy
    of the relocation throws. *)
Lemma Emplace_at_end_is_EmplaceBack_witness :
  invariant (vector_of [Val 1; Val 2] 2) /\
  @Emplace tracked throwing_element 2 (Val 3) (call (vector_of [Val 1; Val 2] 2) (Some 3)) =
  @EmplaceBack tracked throwing_element (Val 3) (call (vector_of [Val 1; Val 2] 2) (Some 3)).
Proof.
  assert (H : invariant (vector_of [Val 1; Val 2] 2))
    by (apply invariantb_sound; reflexivity).
  split; [exact H|].
  exact (Emplace_at_end_is_EmplaceBack tracked throwing_element (vector_of [Val 1; Val 2] 2)
           empty_vector empty_raw (Some 3) [] (Val 3) H).
Defined.

(** ** The blocks of a growing vector *)

Section BlockFacts.
Context {T : Type} `{!Element T}.
Implicit Types (x : T) (xs : list T) (v o : Vector T) (d : RawMemory T).

Lemma allocations_app l1 l2 : allocations (l1 ++ l2) = allocations l1 ++ allocations l2.
Proof. apply omap_app. Qed.

Lemma deallocations_app l1 l2 :
  deallocations (l1 ++ l2) = deallocations l1 ++ deallocations l2.
Proof. apply omap_app. Qed.

Lemma blocks_copy_events src dst n :
  allocations (copy_events src dst n) = [] /\ deallocations (copy_events src dst n) = [].
Proof.
  revert src dst. induction n as [|n IH]; intros src dst; [split; reflexivity|].
  cbn [copy_events]. apply IH.
Qed.

Lemma blocks_move_events src dst n :
  allocations (move_events src dst n) = [] /\ deallocations (move_events src dst n) = [].
Proof.
  revert src dst. induction n as [|n IH]; intros src dst; [split; reflexivity|].
  cbn [move_events]. apply IH.
Qed.

Lemma blocks_relocation_events src dst n :
  allocations (relocation_events src dst n) = [] /\
  deallocations (relocation_events src dst n) = [].
Proof.
  unfold relocation_events.
  destruct relocates_by_move; [apply blocks_move_events|apply blocks_copy_events].
Qed.

Lemma blocks_destroy_events p n :
  allocations (destroy_events p n) = [] /\ deallocations (destroy_events p n) = [].
Proof.
  revert p. induction n as [|n IH]; intros p; [split; reflexivity|].
  cbn [destroy_events]. apply IH.
Qed.

(** The log of a relocation into a block of [g] slots that succeeds, after
    the events [evs] of the construction of a new element: one block
    obtained, none released. *)
Lemma blocks_of_growth lg g (evs : list event) rel n :
  allocations evs = [] -> deallocations evs = [] ->
  allocations rel = [] -> deallocations rel = [] ->
  allocations (lg ++ EvAllocate g :: evs ++ rel ++ destroy_events (Here, 0) n) =
    allocations lg ++ [g] /\
  deallocations (lg ++ EvAllocate g :: evs ++ rel ++ destroy_events (Here, 0) n) =
    deallocations lg.
Proof.
  intros Ha Hd Hra Hrd.
  destruct (blocks_destroy_events (Here, 0) n) as [Hda Hdd].
  rewrite allocations_app, deallocations_app.
  change (EvAllocate g :: evs ++ rel ++ destroy_events (Here, 0) n)
    with ([EvAllocate g] ++ evs ++ rel ++ destroy_events (Here, 0) n).
  rewrite !allocations_app, !deallocations_app, Ha, Hd, Hra, Hrd, Hda, Hdd.
  cbn. rewrite app_nil_r. split; reflexivity.
Qed.

Lemma Reserve_blocks xs cap n o d c lg s' :
  length xs <= cap -> cap < n ->
  Reserve n (mkState (vector_of xs cap) o d c lg) = Ret tt s' ->
  allocations (log s') = allocations lg ++ [n] /\
  deallocations (log s') = deallocations lg.
Proof.
  intros Hxs Hn. rewrite Reserve_spec by assumption.
  destruct (spend 1 c) as [c1|]; [|discriminate].
  destruct (spend _ c1) as [c2|]; [|discriminate].
  intros [= <-]. cbn [log].
  apply (blocks_of_growth lg n [] _ (length xs)); try reflexivity;
    apply blocks_relocation_events.
Qed.

Lemma push_back_with_blocks construct x t ev xs o d c lg s' :
  constructs construct x t ev ->
  allocations [ev (At (New, length xs))] = [] ->
  deallocations [ev (At (New, length xs))] = [] ->
  push_back_with construct (mkState (vector_of xs (length xs)) o d c lg) = Ret tt s' ->
  allocations (log s') = allocations lg ++ [grown (length xs)] /\
  deallocations (log s') = deallocations lg.
Proof.
  intros Hc Ha Hd. rewrite (push_back_with_grow construct x t ev) by assumption.
  destruct (spend 1 c) as [c1|]; [|discriminate].
  destruct (spend t c1) as [c2|]; [|discriminate].
  destruct (spend _ c2) as [c3|]; [|discriminate].
  intros [= <-]. cbn [log].
  apply (blocks_of_growth lg _ [ev (At (New, length xs))] _ (length xs));
    try assumption; apply blocks_relocation_events.
Qed.

End BlockFacts.

(** X15.  A call that grows the storage obtains the new block and never
    hands the block it replaces to [operator delete]: whenever [Reserve(n)]
    above the capacity, or [PushBack] (either overload) on a full vector,
    returns, the log has one more allocation, of [n] and of
    [max(1, 2 * capacity)] slots, and no more deallocation than before the
    call, whatever the capacity of the old block.  [RawMemory]'s move
    assignment overwrites [buffer_], and the destructor of [new_data] then
    deletes a null pointer. *)
Theorem growth_keeps_old_block (T : Type) (E : Element T) (v o : Vector T)
    (d : RawMemory T) (c : option nat) (lg : list event) :
  invariant v ->
  (forall n s', capacity_ (data_ v) < n ->
     Reserve n (mkState v o d c lg) = Ret tt s' ->
     allocations (log s') = allocations lg ++ [n] /\
     deallocations (log s') = deallocations lg) /\
  (size_ v = capacity_ (data_ v) ->
   forall x s',
     PushBack x (mkState v o d c lg) = Ret tt s' \/
     PushBack_move x (mkState v o d c lg) = Ret tt s' ->
     allocations (log s') = allocations lg ++ [Nat.max 1 (2 * capacity_ (data_ v))] /\
     deallocations (log s') = deallocations lg).
Proof.
  intros Hv. canonical v Hv xs cap. split.
  - intros n s' Hn. apply Reserve_blocks; assumption.
  - intros Hfull x s'. subst cap. rewrite <- grown_max.
    rewrite PushBack_shared, PushBack_move_shared. intros [H|H].
    + by apply (push_back_with_blocks _ x 1 (EvCopyConstruct Local) xs o d c lg s'
                  (constructs_copy x)).
    + by apply (push_back_with_blocks _ x (move_ticks 1) (EvMoveConstruct Local)
                  xs o d c lg s' (constructs_move x)).
Qed.

(** The theorem at [[1; 2]] of capacity 2, reserved to 8: the block of two
    slots is not released. *)
Lemma growth_keeps_old_block_witness :
  invariant (vector_of [1; 2] 2) /\
  @Reserve nat int_element 8 (call (vector_of [1; 2] 2) None) =
  Ret tt (mkState (vector_of [1; 2] 8) empty_vector empty_raw None
            [EvAllocate 8;
             EvMoveConstruct (At (Here, 0)) (At (New, 0));
             EvMoveConstruct (At (Here, 1)) (At (New, 1));
             EvDestroy (At (Here, 0)); EvDestroy (At (Here, 1))]) /\
  deallocations
    [EvAllocate 8;
     EvMoveConstruct (At (Here, 0)) (At (New, 0));
     EvMoveConstruct (At (Here, 1)) (At (New, 1));
     EvDestroy (At (Here, 0)); EvDestroy (At (Here, 1))] = deallocations [].
Proof.
  assert (H : invariant (vector_of [1; 2] 2))
    by (apply invariantb_sound; reflexivity).
  assert (Hn : capacity_ (data_ (vector_of [1; 2] 2)) < 8) by (simpl; lia).
  split; [exact H|]. split; [reflexivity|].
  exact (proj2 (proj1 (growth_keeps_old_block nat int_element (vector_of [1; 2] 2)
                         empty_vector empty_raw None [] H) 8
                  (mkState (vector_of [1; 2] 8) empty_vector empty_raw None
                     [EvAllocate 8;
                      EvMoveConstruct (At (Here, 0)) (At (New, 0));
                      EvMoveConstruct (At (Here, 1)) (At (New, 1));
                      EvDestroy (At (Here, 0)); EvDestroy (At (Here, 1))])
                  Hn eq_refl)).
Defined.

(** A vector built by two pushes and then destroyed: two blocks obtained,
    of one and of two slots, and only the second released. *)
Example two_pushes_release_one_block :
  match (Vector_default;; @PushBack nat int_element 1;; @PushBack nat int_element 2;;
         Vector_dtor) (call empty_vector None) with
  | Ret _ s' => allocations (log s') = [1; 2] /\ deallocations (log s') = [2]
  | _ => False
  end.
Proof. vm_compute. split; reflexivity. Qed.

(** X16.  Copy assignment from a vector longer than the capacity: whenever
    it returns, the vector has the elements of [rhs] in a new block of
    exactly [rhs.size_] slots, [rhs] is as it was, and the log shows the
    allocation, the copies into the new block and then the destruction of
    the old elements; when it leaves by an exception (the allocation or a
    copy), both vectors are as before the call; it returns when no
    exception is scheduled.  Assigning a vector to itself does nothing. *)
Theorem copy_assign_reallocates (T : Type) (v w : Vector T) (d : RawMemory T)
    (c : option nat) (lg : list event) :
  invariant v -> invariant w ->
  capacity_ (data_ v) < size_ w ->
  (forall s', copy_assign Other (mkState v w d c lg) = Ret tt s' ->
     this s' = vector_of (elements w) (size_ w) /\
     other s' = w /\
     log s' = lg ++ EvAllocate (size_ w)
                 :: copy_events (There, 0) (New, 0) (size_ w)
                 ++ destroy_events (Here, 0) (size_ v)) /\
  (forall s', copy_assign Other (mkState v w d c lg) = Raise s' ->
     this s' = v /\ other s' = w) /\
  (exists s', copy_assign Other (mkState v w d None lg) = Ret tt s') /\
  copy_assign Self (mkState v w d c lg) = Ret tt (mkState v w d c lg).
Proof.
  intros Hv Hw Hlt. canonical v Hv xs cap. rename Hle into Hxs.
  canonical w Hw ys capo. rename Hle into Hys.
  rewrite !copy_assign_realloc by assumption. split_and!.
  - intros s'.
    destruct (spend 1 c) as [c1|]; [|discriminate].
    destruct (spend (length ys) c1) as [c2|]; [|discriminate].
    intros [= <-]. split_and!; reflexivity.
  - intros s'.
    destruct (spend 1 c) as [c1|]; [|intros [= <-]; split; reflexivity].
    destruct (spend (length ys) c1) as [c2|]; [discriminate|].
    intros [= <-]. split; reflexivity.
  - rewrite !spend_None. eexists. reflexivity.
  - reflexivity.
Qed.

(** The theorem at [[Val 1]] of capacity 1 and the source
    [[Val 7; Val 8; Val 9]], when the second copy throws. *)
Lemma copy_assign_reallocates_witness :
  invariant (vector_of [Val 1] 1) /\
  invariant (vector_of [Val 7; Val 8; Val 9] 4) /\
  capacity_ (data_ (vector_of [Val 1] 1)) < size_ (vector_of [Val 7; Val 8; Val 9] 4) /\
  @copy_assign tracked Other
    (call2 (vector_of [Val 1] 1) (vector_of [Val 7; Val 8; Val 9] 4) (Some 2)) =
  Raise (mkState (vector_of [Val 1] 1) (vector_of [Val 7; Val 8; Val 9] 4) empty_raw None
           [EvAllocate 3; EvCopyConstruct (At (There, 0)) (At (New, 0));
            EvDestroy (At (New, 0)); EvDeallocate 3]) /\
  exists s',
    @copy_assign tracked Other
      (call2 (vector_of [Val 1] 1) (vector_of [Val 7; Val 8; Val 9] 4) None) = Ret tt s'.
Proof.
  assert (Hv : invariant (vector_of [Val 1] 1))
    by (apply invariantb_sound; reflexivity).
  assert (Hw : invariant (vector_of [Val 7; Val 8; Val 9] 4))
    by (apply invariantb_sound; reflexivity).
  assert (Hlt : capacity_ (data_ (vector_of [Val 1] 1)) <
                size_ (vector_of [Val 7; Val 8; Val 9] 4)) by (simpl; lia).
  split; [exact Hv|]. split; [exact Hw|]. split; [exact Hlt|]. split; [reflexivity|].
  exact (proj1 (proj2 (proj2 (copy_assign_reallocates tracked (vector_of [Val 1] 1)
                                (vector_of [Val 7; Val 8; Val 9] 4) empty_raw None []
                                Hv Hw Hlt)))).
Defined.

(** ** Geometric growth *)

Section RunAll.
Context {T : Type} `{!Element T}.
Implicit Types (x : T) (xs : list T) (v o : Vector T) (d : RawMemory T).

Lemma run_all_snoc (ops : list (M T unit)) op v :
  run_all (ops ++ [op]) v =
  match run_all ops v with
  | Some v' => match op (call v' None) with
               | Ret _ s => Some (this s)
               | _ => None
               end
  | None => None
  end.
Proof.
  revert v. induction ops as [|op0 ops IH]; intros v; cbn [run_all app].
  - destruct (op (call v None)); reflexivity.
  - destruct (op0 (call v None)); try reflexivity. apply IH.
Qed.

Lemma PushBack_call xs cap x :
  length xs <= cap ->
  exists s,
    PushBack x (call (vector_of xs cap) None) = Ret tt s /\
    this s = vector_of (xs ++ [x]) (if length xs =? cap then grown cap else cap).
Proof.
  intros Hcap. unfold call. rewrite PushBack_shared.
  destruct (decide (length xs = cap)) as [<-|Hne].
  - rewrite Nat.eqb_refl.
    rewrite (push_back_with_grow _ x 1 (EvCopyConstruct Local)) by apply constructs_copy.
    rewrite !spend_None. eexists. split; reflexivity.
  - rewrite (proj2 (Nat.eqb_neq _ _) Hne).
    rewrite (push_back_with_room _ x 1 (EvCopyConstruct Local))
      by (try apply constructs_copy; lia).
    rewrite spend_None. eexists. split; reflexivity.
Qed.

End RunAll.

(** X17.  Pushing the elements of [xs] one at a time into an empty vector,
    with no exception scheduled, yields the vector of [xs]; its capacity is
    0 when [xs] is empty and otherwise a power of two that is at least the
    size and less than twice the size. *)
Theorem pushes_capacity (T : Type) (E : Element T) (xs : list T) :
  exists cap,
    run_all (map PushBack xs) empty_vector = Some (vector_of xs cap) /\
    (xs = [] -> cap = 0) /\
    (xs <> [] -> (exists k, cap = 2 ^ k) /\ length xs <= cap < 2 * length xs).
Proof.
  induction xs as [|x xs IH] using rev_ind.
  - exists 0. split_and!; [reflexivity|reflexivity|congruence].
  - destruct IH as (cap & Hrun & Hnil & Hpow).
    rewrite map_app. cbn [map]. rewrite run_all_snoc, Hrun.
    assert (Hcap : length xs <= cap).
    { destruct xs as [|y ys]; [cbn [length]; lia|].
      destruct Hpow as [_ [H _]]; [discriminate|exact H]. }
    destruct (PushBack_call xs cap x Hcap) as (s & Hs & Hthis).
    rewrite Hs, Hthis. eexists. split; [reflexivity|].
    split; [intros Habs; destruct xs; discriminate|]. intros _.
    rewrite length_app. cbn [length].
    destruct xs as [|y ys].
    + rewrite (Hnil eq_refl). cbn. split; [exists 0; reflexivity|lia].
    + destruct Hpow as [[k Hk] [H1 H2]]; [discriminate|].
      destruct (length (y :: ys) =? cap) eqn:Hfull.
      * apply Nat.eqb_eq in Hfull. unfold grown.
        rewrite (proj2 (Nat.eqb_neq cap 0)) by (cbn [length] in Hfull; lia).
        split; [exists (S k); rewrite Nat.pow_succ_r'; lia|lia].
      * apply Nat.eqb_neq in Hfull. split; [exists k; exact Hk|lia].
Qed.

(** ** Exceptions on the growth paths, for every element type *)

Section GrowthGuarantees.
Context {T : Type} `{!Element T}.
Implicit Types (x : T) (xs : list T) (v o : Vector T) (d : RawMemory T).











End GrowthGuarantees.



Section NothrowMove.
Context {T : Type} `{!Element T}.
Implicit Types (x : T) (xs : list T) (v o : Vector T) (d : RawMemory T).

Hypothesis nothrow_move : is_nothrow_move_constructible = true.





End NothrowMove.



(** ** Insertion in place *)

Section InPlaceInsertion.
Context {T : Type} `{!Element T}.
Implicit Types (x : T) (xs : list T) (v o : Vector T) (d : RawMemory T).

Lemma insert_with_in_place_returns construct in_place init t0 ev0 x xs1 mid l cap
    o d c lg p s' :
  initializes init t0 ev0 ->
  in_place (length (xs1 ++ mid ++ [l])) =
    insert_in_place (length (xs1 ++ mid ++ [l])) (length xs1) init x ->
  length (xs1 ++ mid ++ [l]) < cap ->
  insert_with (length xs1) construct in_place
    (mkState (vector_of (xs1 ++ mid ++ [l]) cap) o d c lg) = Ret p s' ->
  this s' = vector_of (xs1 ++ x :: mid ++ [l]) cap /\
  other s' = o /\
  local s' = d /\
  log s' = lg ++ ev0
              :: EvMoveConstruct (At (Here, length (xs1 ++ mid ++ [l]) - 1))
                                 (At (Here, length (xs1 ++ mid ++ [l])))
              :: move_backward_events (Here, length (xs1 ++ mid ++ [l]) - 1)
                                      (Here, length (xs1 ++ mid ++ [l])) (length mid)
              ++ [EvMoveAssign Local (At (Here, length xs1)); EvDestroy Local].
Proof.
  intros Hinit Hin Hcap H.
  pose proof (insert_with_in_place_spec construct in_place init t0 ev0 x xs1 mid l
                cap o d c lg Hinit Hin Hcap) as Hrun.
  cbv zeta in Hrun.
  destruct (spend t0 c) as [c1|]; [|destruct Hrun as [? Hr]; congruence].
  destruct (spend _ c1) as [c2|]; [|destruct Hrun as [? Hr]; congruence].
  destruct (spend _ c2) as [c3|]; [|destruct Hrun as [? Hr]; congruence].
  destruct (spend _ c3) as [c4|]; [|destruct Hrun as [? Hr]; congruence].
  rewrite Hrun in H. injection H as <- <-. split_and!; reflexivity.
Qed.

End InPlaceInsertion.

(** X20.  Insertion before [end()] with room to spare
    ([pos < size < capacity]) works in the block the vector has: whenever
    [Insert] (either overload) or [Emplace] returns, the capacity is
    unchanged and nothing has been allocated, and the log is: the
    construction of the temporary [new_item]; the move construction of the
    last element into the slot at [size_]; the move assignment of each
    element of [[pos, size - 1)] one slot to the right, the last one first;
    the move assignment of the temporary to the slot at [pos]; the
    destruction of the temporary. *)
Theorem insertion_in_place_shifts (T : Type) (E : Element T) (v o : Vector T)
    (d : RawMemory T) (c : option nat) (lg : list event) (pos : nat) (x : T) :
  invariant v ->
  pos < size_ v ->
  size_ v < capacity_ (data_ v) ->
  let shift first :=
    lg ++ first
       :: EvMoveConstruct (At (Here, size_ v - 1)) (At (Here, size_ v))
       :: move_backward_events (Here, size_ v - 1) (Here, size_ v) (size_ v - pos - 1)
       ++ [EvMoveAssign Local (At (Here, pos)); EvDestroy Local] in
  (forall p s', Insert pos x (mkState v o d c lg) = Ret p s' ->
     capacity_ (data_ (this s')) = capacity_ (data_ v) /\
     local s' = d /\ allocations (log s') = allocations lg /\
     log s' = shift (EvCopyConstruct Local Local)) /\
  (forall p s', Insert_move pos x (mkState v o d c lg) = Ret p s' ->
     capacity_ (data_ (this s')) = capacity_ (data_ v) /\
     local s' = d /\ allocations (log s') = allocations lg /\
     log s' = shift (EvMoveConstruct Local Local)) /\
  (forall p s', Emplace pos x (mkState v o d c lg) = Ret p s' ->
     capacity_ (data_ (this s')) = capacity_ (data_ v) /\
     local s' = d /\ allocations (log s') = allocations lg /\
     log s' = shift (EvConstruct Local)).
Proof.
  intros Hv Hpos Hroom shift. unfold shift. clear shift.
  canonical v Hv xs cap.
  destruct (split_before_last xs pos Hpos) as (xs1 & mid & l & -> & <-).
  assert (Hmid : length (xs1 ++ mid ++ [l]) - length xs1 - 1 = length mid).
  { rewrite !length_app. cbn [length]. lia. }
  rewrite Hmid.
  assert (Halloc : forall first,
    allocations [first] = [] ->
    allocations
      (lg ++ first
          :: EvMoveConstruct (At (Here, length (xs1 ++ mid ++ [l]) - 1))
                             (At (Here, length (xs1 ++ mid ++ [l])))
          :: move_backward_events (Here, length (xs1 ++ mid ++ [l]) - 1)
                                  (Here, length (xs1 ++ mid ++ [l])) (length mid)
          ++ [EvMoveAssign Local (At (Here, length xs1)); EvDestroy Local]) =
    allocations lg).
  { intros first Hfirst. generalize (length (xs1 ++ mid ++ [l])). intros n.
    rewrite allocations_app.
    change (first :: ?a :: ?b) with ([first] ++ [a] ++ b).
    rewrite !allocations_app, Hfirst.
    assert (Hback : forall k p q, allocations (move_backward_events p q k) = []).
    { induction k as [|k IH]; intros p q; [reflexivity|].
      cbn [move_backward_events]. apply IH. }
    rewrite Hback. cbn. apply app_nil_r. }
  rewrite Insert_with, Insert_move_with, Emplace_with. split_and!.
  - intros p s' H.
    destruct (insert_with_in_place_returns _ _ (tick;; emit (EvCopyConstruct Local Local)) 1
                (EvCopyConstruct Local Local) x xs1 mid l cap o d c lg p s'
                (initializes_tick _) eq_refl Hroom H) as (Hthis & _ & Hd & Hlog).
    rewrite Hthis, Hlog, capacity_vector_of. split_and!; try reflexivity; try assumption.
    by apply Halloc.
  - intros p s' H.
    destruct (insert_with_in_place_returns _ _
                (tick_unless is_nothrow_move_constructible;;
                 emit (EvMoveConstruct Local Local))
                (move_ticks 1) (EvMoveConstruct Local Local) x xs1 mid l cap o d c lg p s'
                (initializes_tick_unless _) eq_refl Hroom H) as (Hthis & _ & Hd & Hlog).
    rewrite Hthis, Hlog, capacity_vector_of. split_and!; try reflexivity; try assumption.
    by apply Halloc.
  - intros p s' H.
    assert (Hin : (if length xs1 =? length (xs1 ++ mid ++ [l]) then
                     p ← RawMemory_plus Here (length (xs1 ++ mid ++ [l]));
                     T_construct_from_args x p
                   else insert_in_place (length (xs1 ++ mid ++ [l])) (length xs1)
                          (tick;; emit (EvConstruct Local)) x) =
                  insert_in_place (length (xs1 ++ mid ++ [l])) (length xs1)
                    (tick;; emit (EvConstruct Local)) x).
    { rewrite (proj2 (Nat.eqb_neq _ _)); [reflexivity|]. lia. }
    destruct (insert_with_in_place_returns _ _ (tick;; emit (EvConstruct Local)) 1
                (EvConstruct Local) x xs1 mid l cap o d c lg p s'
                (initializes_tick _) Hin Hroom H) as (Hthis & _ & Hd & Hlog).
    rewrite Hthis, Hlog, capacity_vector_of. split_and!; try reflexivity; try assumption.
    by apply Halloc.
Qed.

(** The theorem at [[Val 1; Val 2; Val 3]] of capacity 5, inserting at
    index 1. *)
Lemma insertion_in_place_shifts_witness :
  invariant (vector_of [Val 1; Val 2; Val 3] 5) /\
  @Insert tracked string_like_element 1 (Val 9)
    (call (vector_of [Val 1; Val 2; Val 3] 5) None) =
  Ret (Here, 1)
      (mkState (vector_of [Val 1; Val 9; Val 2; Val 3] 5) empty_vector empty_raw None
         [EvCopyConstruct Local Local;
          EvMoveConstruct (At (Here, 2)) (At (Here, 3));
          EvMoveAssign (At (Here, 1)) (At (Here, 2));
          EvMoveAssign Local (At (Here, 1));
          EvDestroy Local]) /\
  capacity_ (data_ (vector_of [Val 1; Val 9; Val 2; Val 3] 5)) =
  capacity_ (data_ (vector_of [Val 1; Val 2; Val 3] 5)).
Proof.
  assert (H : invariant (vector_of [Val 1; Val 2; Val 3] 5))
    by (apply invariantb_sound; reflexivity).
  assert (Hpos : 1 < size_ (vector_of [Val 1; Val 2; Val 3] 5)) by (simpl; lia).
  assert (Hroom : size_ (vector_of [Val 1; Val 2; Val 3] 5) <
                  capacity_ (data_ (vector_of [Val 1; Val 2; Val 3] 5))) by (simpl; lia).
  split; [exact H|]. split; [reflexivity|].
  exact (proj1 (proj1 (insertion_in_place_shifts tracked string_like_element
                         (vector_of [Val 1; Val 2; Val 3] 5) empty_vector empty_raw None []
                         1 (Val 9) H Hpos Hroom)
                  (Here, 1)
                  (mkState (vector_of [Val 1; Val 9; Val 2; Val 3] 5) empty_vector
                     empty_raw None
                     [EvCopyConstruct Local Local;
                      EvMoveConstruct (At (Here, 2)) (At (Here, 3));
                      EvMoveAssign (At (Here, 1)) (At (Here, 2));
                      EvMoveAssign Local (At (Here, 1));
                      EvDestroy Local])
                  eq_refl)).
Defined.

(** ** The invariant, on return *)

Section InvariantFacts.
Context {T : Type} `{!Element T}.
Implicit Types (x : T) (xs ys : list T) (v o : Vector T) (d : RawMemory T).

(** With room to spare, the branch that inserts in place does not return
    when [pos] is [end()], whatever the schedule. *)
Lemma insert_in_place_at_end_stuck init t0 ev0 x xs l cap o d c lg :
  initializes init t0 ev0 ->
  length (xs ++ [l]) < cap ->
  match insert_in_place (length (xs ++ [l])) (length (xs ++ [l])) init x
          (mkState (vector_of (xs ++ [l]) cap) o d c lg) with
  | Ret _ _ => False
  | _ => True
  end.
Proof.
  intros Hinit Hcap. set (n := length (xs ++ [l])) in *.
  assert (Hn : n = length xs + 1) by (unfold n; rewrite length_app; reflexivity).
  unfold insert_in_place, with_new_item.
  rewrite bind_unfold, Hinit. cbn [countdown].
  destruct (spend t0 c) as [c1|]; [|exact I].
  unfold vector_of. fold n. proj.
  rewrite (replicate_sub_S cap n) by lia.
  rewrite map_app, <- !app_assoc. cbn [map app].
  rewrite scope_unfold.
  unfold RawMemory_plus, RawMemory_Capacity, RawMemory_at, size_t_minus.
  repeat step.
  rewrite (proj2 (Nat.leb_le n cap)) by lia. repeat step.
  rewrite (proj2 (Nat.leb_le 1 n)) by lia. repeat step.
  unfold RawMemory_Capacity. repeat step.
  rewrite (proj2 (Nat.ltb_lt (n - 1) cap)) by lia. repeat step.
  rewrite !Nat.add_0_l.
  rewrite bind_unfold.
  match goal with |- context [T_move_construct _ _ ?s1] =>
    pose proof (T_move_construct_right Here (map Live xs) l
                  (replicate (cap - n - 1) Raw) s1 eq_refl) as E
  end.
  rewrite length_map in E.
  replace (length xs) with (n - 1) in E by lia.
  replace (S (n - 1)) with n in E by lia.
  rewrite E. clear E. proj.
  destruct (spend (move_ticks 1) c1) as [c2|]; [|exact I].
  unfold end_, Size, get_size, pminus, move_backward, distance. repeat step.
  rewrite (proj2 (Nat.leb_le 1 (0 + n))) by lia. repeat step.
  rewrite (proj2 (Nat.leb_gt n (0 + n - 1))) by lia.
  exact I.
Qed.

Lemma insert_in_place_empty_stuck init t0 ev0 x cap o d c lg :
  initializes init t0 ev0 ->
  0 < cap ->
  match insert_in_place 0 0 init x (mkState (vector_of [] cap) o d c lg) with
  | Ret _ _ => False
  | _ => True
  end.
Proof.
  intros Hinit Hcap.
  unfold insert_in_place, with_new_item.
  rewrite bind_unfold, Hinit. cbn [countdown].
  destruct (spend t0 c) as [c1|]; [|exact I].
  unfold vector_of. proj.
  rewrite scope_unfold.
  unfold RawMemory_plus, RawMemory_Capacity, RawMemory_at, size_t_minus.
  repeat step. exact I.
Qed.

Lemma insert_with_out_of_range construct in_place pos xs cap o d c lg :
  length xs < pos ->
  insert_with pos construct in_place (mkState (vector_of xs cap) o d c lg) =
  Undefined AssertionFailed.
Proof.
  intros Hpos. unfold insert_with, Size, get_size. rewrite gets_bind.
  cbn [vec this]. rewrite size_vector_of.
  rewrite (proj2 (Nat.leb_gt pos (length xs)) Hpos). reflexivity.
Qed.

End InvariantFacts.

Section ShapeOnReturn.
Context {T : Type} `{!Element T}.
Implicit Types (x : T) (xs ys : list T) (v o : Vector T) (d : RawMemory T).

Lemma kept {R} (r : R) cap0 xs cap o d c lg :
  length xs <= cap -> cap0 <= cap ->
  returns_in_shape cap0 o (Ret r (mkState (vector_of xs cap) o d c lg)).
Proof.
  intros Hxs Hcap. cbn [returns_in_shape this other]. rewrite capacity_vector_of.
  split_and!; [by apply invariant_vector_of|exact Hcap|reflexivity].
Qed.

Lemma raises_kept {R} cap0 o (out : outcome (state T) R) :
  raises out -> returns_in_shape cap0 o out.
Proof. intros [s' ->]. exact I. Qed.

Lemma stuck_kept {R} cap0 o (out : outcome (state T) R) :
  match out with Ret _ _ => False | _ => True end -> returns_in_shape cap0 o out.
Proof. destruct out; [intros []|intros _; exact I|intros _; exact I]. Qed.

Lemma shape_invariant {R} cap0 o (out : outcome (state T) R) :
  invariant o -> returns_in_shape cap0 o out -> returns_with_invariant out.
Proof.
  intros Ho. destruct out as [r s'|s'|f]; [|intros _; exact I|intros _; exact I].
  intros (Hthis & _ & Hother). split; [exact Hthis|]. rewrite Hother. exact Ho.
Qed.

Lemma Vector_sized_kept n v o d c lg :
  returns_in_shape 0 o (Vector_sized n (mkState v o d c lg)).
Proof.
  destruct n as [|n'].
  - rewrite Vector_sized_0. by apply kept.
  - rewrite Vector_sized_spec by lia.
    destruct (spend 1 c) as [c1|]; [|exact I].
    destruct (spend (S n') c1) as [c2|]; [|exact I].
    apply kept; [by rewrite length_replicate|lia].
Qed.

Lemma Vector_copy_kept v ys capo d c lg :
  length ys <= capo ->
  returns_in_shape 0 (vector_of ys capo)
    (Vector_copy (mkState v (vector_of ys capo) d c lg)).
Proof.
  intros Hys. destruct (decide (length ys = 0)) as [Hz|Hnz].
  - destruct ys; [|discriminate]. rewrite Vector_copy_empty. by apply kept.
  - rewrite Vector_copy_spec by lia.
    destruct (spend 1 c) as [c1|]; [|exact I].
    destruct (spend (length ys) c1) as [c2|]; [|exact I].
    apply kept; lia.
Qed.

Lemma copy_assign_kept xs cap ys capo d c lg :
  length xs <= cap -> length ys <= capo ->
  returns_in_shape cap (vector_of ys capo)
    (copy_assign Other (mkState (vector_of xs cap) (vector_of ys capo) d c lg)).
Proof.
  intros Hxs Hys. destruct (decide (cap < length ys)) as [Hbig|Hfit].
  { rewrite copy_assign_realloc by assumption.
    destruct (spend 1 c) as [c1|]; [|exact I].
    destruct (spend (length ys) c1) as [c2|]; [|exact I].
    apply kept; lia. }
  destruct (decide (length ys < length xs)) as [Hlt|Hge].
  - destruct (decide (length xs = cap)) as [<-|Hroom].
    + pose proof (copy_assign_shrink_full xs ys capo d c lg Hys Hlt) as Hrun.
      destruct (spend (length ys) c) as [c'|]; [|by apply raises_kept].
      rewrite Hrun. apply kept; lia.
    + pose proof (copy_assign_shrink_with_room xs ys cap capo d c lg
                    ltac:(lia) Hys Hlt) as Hrun.
      destruct (spend (length ys) c) as [c'|]; [|by apply raises_kept].
      rewrite Hrun. exact I.
  - assert (Hsplit : ys = take (length xs) ys ++ drop (length xs) ys)
      by (symmetry; apply take_drop).
    assert (H1 : length (take (length xs) ys) = length xs) by (rewrite length_take; lia).
    revert Hsplit H1 Hys Hfit Hge.
    generalize (take (length xs) ys) (drop (length xs) ys).
    intros ys1 ys2 -> H1 Hys Hfit Hge.
    pose proof (copy_assign_extend xs ys1 ys2 cap capo d c lg H1 ltac:(lia) Hys) as Hrun.
    cbv zeta in Hrun.
    destruct (spend (length xs) c) as [c1|]; [|by apply raises_kept].
    destruct (spend (length ys2) c1) as [c2|]; [|by apply raises_kept].
    rewrite Hrun. apply kept; lia.
Qed.

Lemma Reserve_kept n xs cap o d c lg :
  length xs <= cap ->
  returns_in_shape cap o (Reserve n (mkState (vector_of xs cap) o d c lg)).
Proof.
  intros Hxs. destruct (decide (n <= cap)) as [Hn|Hn].
  - rewrite Reserve_noop by assumption. by apply kept.
  - rewrite Reserve_spec by lia.
    destruct (spend 1 c) as [c1|]; [|exact I].
    destruct (spend _ c1) as [c2|]; [|exact I].
    apply kept; lia.
Qed.

Lemma Resize_kept n xs cap o d c lg :
  length xs <= cap ->
  returns_in_shape cap o (Resize n (mkState (vector_of xs cap) o d c lg)).
Proof.
  intros Hxs.
  pose proof (Resize_outcome xs cap n o d c lg Hxs) as Hout.
  destruct (Resize n _) as [[] s'|s'|f]; [|exact I|exact I].
  destruct Hout as [Hthis Ho]. cbn [returns_in_shape].
  rewrite Hthis, Ho, capacity_vector_of.
  split_and!; [|lia|reflexivity].
  apply invariant_vector_of. rewrite length_resized. lia.
Qed.

Lemma push_back_with_kept construct x t ev xs cap o d c lg :
  constructs construct x t ev ->
  length xs <= cap ->
  returns_in_shape cap o
    (push_back_with construct (mkState (vector_of xs cap) o d c lg)).
Proof.
  intros Hc Hxs. destruct (decide (length xs = cap)) as [<-|Hroom].
  - rewrite (push_back_with_grow construct x t ev) by assumption.
    destruct (spend 1 c) as [c1|]; [|exact I].
    destruct (spend t c1) as [c2|]; [|exact I].
    destruct (spend _ c2) as [c3|]; [|exact I].
    pose proof (grown_gt (length xs)).
    apply kept; [rewrite length_app; cbn [length]; lia|lia].
  - rewrite (push_back_with_room construct x t ev) by (assumption || lia).
    destruct (spend t c) as [c1|]; [|exact I].
    apply kept; [rewrite length_app; cbn [length]; lia|lia].
Qed.

Lemma EmplaceBack_kept x xs cap o d c lg :
  length xs <= cap ->
  returns_in_shape cap o (EmplaceBack x (mkState (vector_of xs cap) o d c lg)).
Proof.
  intros Hxs. destruct (decide (length xs = cap)) as [<-|Hroom].
  - rewrite EmplaceBack_grow.
    destruct (spend 1 c) as [c1|]; [|exact I].
    destruct (spend 1 c1) as [c2|]; [|exact I].
    destruct (spend _ c2) as [c3|]; [|exact I].
    pose proof (grown_gt (length xs)).
    apply kept; [rewrite length_app; cbn [length]; lia|lia].
  - rewrite EmplaceBack_room by lia.
    destruct (spend 1 c) as [c1|]; [|exact I].
    apply kept; [rewrite length_app; cbn [length]; lia|lia].
Qed.

Lemma PopBack_kept xs cap o d c lg :
  length xs <= cap ->
  returns_in_shape cap o (PopBack (mkState (vector_of xs cap) o d c lg)).
Proof.
  intros Hxs. destruct (decide (length xs = 0)) as [Hz|Hnz].
  - destruct xs; [|discriminate]. rewrite PopBack_empty. by apply kept.
  - rewrite PopBack_nonempty by lia. apply kept; [rewrite length_take; lia|lia].
Qed.

Lemma Erase_kept pos xs cap o d c lg :
  length xs <= cap ->
  returns_in_shape cap o (Erase pos (mkState (vector_of xs cap) o d c lg)).
Proof.
  intros Hxs. destruct (decide (pos < length xs)) as [Hpos|Hpos].
  - destruct (lookup_lt_is_Some_2 xs pos Hpos) as [a Ha].
    pose proof (take_drop_middle xs pos a Ha) as Hsplit.
    assert (Hlen : length (take pos xs) = pos) by (rewrite length_take; lia).
    revert Hsplit Hlen. generalize (take pos xs) (drop (S pos) xs).
    intros xs1 xs2 Hsplit Hlen. subst xs pos.
    pose proof (Erase_spec xs1 a xs2 cap o d c lg Hxs) as Hrun.
    destruct (spend _ c) as [c'|]; [|by apply raises_kept].
    rewrite Hrun. apply kept; [|lia].
    rewrite !length_app in *. cbn [length] in Hxs. lia.
  - rewrite Erase_past_end by lia. exact I.
Qed.

(** The three insertions, through their shared frame. *)
Lemma insert_with_kept construct in_place init t0 ev0 x t ev pos xs cap o d c lg :
  constructs construct x t ev ->
  initializes init t0 ev0 ->
  (forall sz, pos < sz -> in_place sz = insert_in_place sz pos init x) ->
  (forall sz, in_place sz = insert_in_place sz pos init x \/
              pos = sz /\ in_place sz = (p ← RawMemory_plus Here sz; construct p)) ->
  length xs <= cap ->
  returns_in_shape cap o
    (insert_with pos construct in_place (mkState (vector_of xs cap) o d c lg)).
Proof.
  intros Hc Hinit Hbefore Hend Hxs.
  destruct (decide (length xs < pos)) as [Hout|Hin].
  { rewrite insert_with_out_of_range by assumption. exact I. }
  destruct (decide (length xs = cap)) as [<-|Hroom].
  - assert (Hsplit : xs = take pos xs ++ drop pos xs) by (symmetry; apply take_drop).
    assert (Hlen : pos = length (take pos xs)) by (rewrite length_take; lia).
    revert Hsplit Hlen. generalize (take pos xs) (drop pos xs). intros xs1 xs2 -> ->.
    rewrite (insert_with_grow construct in_place x t ev) by assumption.
    destruct (spend 1 c) as [c1|]; [|exact I].
    destruct (spend t c1) as [c2|]; [|exact I].
    destruct (spend _ c2) as [c3|]; [|exact I].
    destruct (spend _ c3) as [c4|]; [|exact I].
    pose proof (grown_gt (length (xs1 ++ xs2))).
    apply kept; [|lia]. rewrite !length_app in *. cbn [length]. lia.
  - destruct (decide (pos = length xs)) as [->|Hmid].
    + rewrite insert_with_in_place by lia.
      destruct (Hend (length xs)) as [Hip|[_ Hip]]; rewrite Hip.
      * apply stuck_kept. rewrite bind_unfold.
        destruct xs as [|l xs' _] using rev_ind.
        -- pose proof (insert_in_place_empty_stuck init t0 ev0 x cap o
                         d c lg Hinit ltac:(cbn [length] in *; lia)) as Hstuck.
           cbn [length].
           destruct (insert_in_place 0 0 init x _); [destruct Hstuck|exact I|exact I].
        -- pose proof (insert_in_place_at_end_stuck init t0 ev0 x xs' l cap
                         o d c lg Hinit ltac:(lia)) as Hstuck.
           destruct (insert_in_place _ _ init x _); [destruct Hstuck|exact I|exact I].
      * pose proof (push_back_with_room construct x t ev xs cap o
                      d c lg ltac:(lia) Hc) as Hrun.
        unfold push_back_with, Capacity, RawMemory_Capacity, Size, get_size in Hrun.
        rewrite !gets_bind in Hrun. cbn [raw_of vec this] in Hrun.
        rewrite capacity_vector_of, size_vector_of in Hrun.
        rewrite (proj2 (Nat.eqb_neq cap (length xs))) in Hrun by lia.
        rewrite <- bind_assoc. rewrite bind_unfold, Hrun.
        destruct (spend t c) as [c1|]; [|exact I].
        rewrite ret_run. apply kept; [|lia].
        rewrite length_app. cbn [length]. lia.
    + destruct (split_before_last xs pos ltac:(lia)) as (xs1 & mid & l & -> & <-).
      pose proof (insert_with_in_place_spec construct in_place init t0 ev0 x xs1 mid l
                    cap o d c lg Hinit
                    (Hbefore (length (xs1 ++ mid ++ [l]))
                       ltac:(rewrite !length_app; cbn [length]; lia))
                    ltac:(lia)) as Hrun.
      cbv zeta in Hrun.
      destruct (spend t0 c) as [c1|]; [|by apply raises_kept].
      destruct (spend _ c1) as [c2|]; [|by apply raises_kept].
      destruct (spend _ c2) as [c3|]; [|by apply raises_kept].
      destruct (spend _ c3) as [c4|]; [|by apply raises_kept].
      rewrite Hrun. apply kept; [|lia].
      rewrite !length_app in *. cbn [length] in *. rewrite !length_app in *.
      cbn [length] in *. lia.
Qed.

(** Every member function that does not exchange or take storage, on a
    vector of capacity [cap] with another vector [w]. *)
Lemma members_keep_shape xs cap ys capo d c lg :
  length xs <= cap -> length ys <= capo ->
  let s := mkState (vector_of xs cap) (vector_of ys capo) d c lg in
  let w := vector_of ys capo in
  returns_in_shape cap w (copy_assign Other s) /\
  (forall n, returns_in_shape cap w (Reserve n s)) /\
  (forall n, returns_in_shape cap w (Resize n s)) /\
  (forall x, returns_in_shape cap w (PushBack x s) /\
             returns_in_shape cap w (PushBack_move x s) /\
             returns_in_shape cap w (EmplaceBack x s)) /\
  returns_in_shape cap w (PopBack s) /\
  (forall pos x, returns_in_shape cap w (Emplace pos x s) /\
                 returns_in_shape cap w (Insert pos x s) /\
                 returns_in_shape cap w (Insert_move pos x s)) /\
  (forall pos, returns_in_shape cap w (Erase pos s)).
Proof.
  intros Hxs Hys s w. unfold s, w. clear s w. split_and!.
  - by apply copy_assign_kept.
  - intros n. by apply Reserve_kept.
  - intros n. by apply Resize_kept.
  - intros x. rewrite PushBack_shared, PushBack_move_shared. split_and!.
    + by apply (push_back_with_kept _ x 1 (EvCopyConstruct Local));
        [apply constructs_copy|].
    + by apply (push_back_with_kept _ x (move_ticks 1) (EvMoveConstruct Local));
        [apply constructs_move|].
    + by apply EmplaceBack_kept.
  - by apply PopBack_kept.
  - intros pos x. rewrite Emplace_with, Insert_with, Insert_move_with. split_and!.
    + apply (insert_with_kept _ _ (tick;; emit (EvConstruct Local)) 1 (EvConstruct Local)
               x 1 EvConstruct); try assumption.
      * apply constructs_args.
      * apply initializes_tick.
      * intros sz Hsz. rewrite (proj2 (Nat.eqb_neq pos sz)) by lia. reflexivity.
      * intros sz. destruct (pos =? sz) eqn:Hsz; [right|left; reflexivity].
        apply Nat.eqb_eq in Hsz. split; [exact Hsz|reflexivity].
    + apply (insert_with_kept _ _ (tick;; emit (EvCopyConstruct Local Local)) 1
               (EvCopyConstruct Local Local) x 1 (EvCopyConstruct Local));
        try assumption.
      * apply constructs_copy.
      * apply initializes_tick.
      * intros sz _. reflexivity.
      * intros sz. left. reflexivity.
    + apply (insert_with_kept _ _
               (tick_unless is_nothrow_move_constructible;;
                emit (EvMoveConstruct Local Local))
               (move_ticks 1) (EvMoveConstruct Local Local) x (move_ticks 1)
               (EvMoveConstruct Local)); try assumption.
      * apply constructs_move.
      * apply initializes_tick_unless.
      * intros sz _. reflexivity.
      * intros sz. left. reflexivity.
  - intros pos. by apply Erase_kept.
Qed.

End ShapeOnReturn.

(** X21.  Whenever a constructor, an assignment, [Swap], [operator[]],
    [Reserve], [Resize], a push function, [PopBack], an insertion or
    [Erase] returns, called on vectors that satisfy the invariant, under
    any schedule and with any arguments but a count [n] for which
    [n * sizeof(T)] does not fit [size_t], both [*this] and the other
    vector satisfy the invariant: [size_ <= capacity_], the slots of
    [[0, size_)] live and those of [[size_, capacity_)] raw. *)
Theorem invariant_on_return (T : Type) (E : Element T) (sizeof : positive)
    (v w : Vector T) (d : RawMemory T) (c : option nat) (lg : list event) :
  invariant v -> invariant w ->
  let s := mkState v w d c lg in
  returns_with_invariant (Vector_default s) /\
  (forall n, fits sizeof n -> returns_with_invariant (Vector_sized_wrapping sizeof n s)) /\
  returns_with_invariant (Vector_copy s) /\
  returns_with_invariant (Vector_move s) /\
  (forall rhs, returns_with_invariant (copy_assign rhs s)) /\
  (forall rhs, returns_with_invariant (move_assign rhs s)) /\
  (forall rhs, returns_with_invariant (Swap rhs s)) /\
  (forall i, returns_with_invariant (Vector_at i s)) /\
  (forall n, fits sizeof n -> returns_with_invariant (Reserve_wrapping sizeof n s)) /\
  (forall n, fits sizeof n -> returns_with_invariant (Resize_wrapping sizeof n s)) /\
  (forall x, returns_with_invariant (PushBack x s) /\
             returns_with_invariant (PushBack_move x s) /\
             returns_with_invariant (EmplaceBack x s)) /\
  returns_with_invariant (PopBack s) /\
  (forall pos x, returns_with_invariant (Emplace pos x s) /\
                 returns_with_invariant (Insert pos x s) /\
                 returns_with_invariant (Insert_move pos x s)) /\
  (forall pos, returns_with_invariant (Erase pos s)).
Proof.
  intros Hv Hw s. unfold s. clear s.
  assert (Hempty : invariant (empty_vector : Vector T))
    by (apply (invariant_vector_of [] 0); reflexivity).
  assert (Hswap : returns_with_invariant (Swap Other (mkState v w d c lg))).
  { destruct v as [dv nv], w as [dw nw]. split; assumption. }
  assert (Hself : returns_with_invariant (Swap Self (mkState v w d c lg))).
  { destruct v as [dv nv], w as [dw nw]. split; assumption. }
  assert (Hmove : returns_with_invariant (Vector_move (mkState v w d c lg))).
  { destruct v as [dv nv], w as [dw nw]. split; assumption. }
  assert (Hsized : forall n, returns_with_invariant (Vector_sized n (mkState v w d c lg))).
  { intros n. apply (shape_invariant 0 w); [exact Hw|apply Vector_sized_kept]. }
  assert (Hsame : forall {R} (r : R),
            returns_with_invariant (Ret r (mkState v w d c lg))).
  { intros R r. split; assumption. }
  canonical v Hv xs cap. rename Hle into Hxs.
  canonical w Hw ys capo. rename Hle into Hys.
  destruct (members_keep_shape xs cap ys capo d c lg Hxs Hys)
    as (Hassign & Hreserve & Hresize & Hpush & Hpop & Hinsert & Herase).
  split_and!.
  - rewrite Vector_default_spec. split; by apply invariant_vector_of.
  - intros n Hfit. rewrite Vector_sized_wrapping_fits by exact Hfit. apply Hsized.
  - apply (shape_invariant 0 (vector_of ys capo)); [exact Hw|by apply Vector_copy_kept].
  - exact Hmove.
  - intros [|]; [apply Hsame|]. by apply (shape_invariant cap (vector_of ys capo)).
  - intros [|]; [apply Hsame|exact Hswap].
  - intros [|]; [exact Hself|exact Hswap].
  - intros i. unfold Vector_at, Size, get_size. rewrite gets_bind.
    cbn [vec this]. rewrite size_vector_of.
    destruct (i <? length xs) eqn:Hi; [|exact I].
    apply Nat.ltb_lt in Hi. rewrite assert_true_bind.
    unfold RawMemory_at, RawMemory_Capacity. rewrite gets_bind.
    cbn [raw_of this]. rewrite capacity_vector_of.
    rewrite (proj2 (Nat.ltb_lt i cap)) by lia. rewrite assert_true_bind.
    apply Hsame.
  - intros n Hfit. rewrite Reserve_wrapping_fits by exact Hfit.
    by apply (shape_invariant cap (vector_of ys capo)).
  - intros n Hfit. rewrite Resize_wrapping_fits by exact Hfit.
    by apply (shape_invariant cap (vector_of ys capo)).
  - intros x. destruct (Hpush x) as (H1 & H2 & H3).
    split_and!; by apply (shape_invariant cap (vector_of ys capo)).
  - by apply (shape_invariant cap (vector_of ys capo)).
  - intros pos x. destruct (Hinsert pos x) as (H1 & H2 & H3).
    split_and!; by apply (shape_invariant cap (vector_of ys capo)).
  - intros pos. by apply (shape_invariant cap (vector_of ys capo)).
Qed.

(** The theorem at [[1; 2; 3]] of capacity 4 and [[7]] of capacity 1, for
    an insertion in place. *)
Lemma invariant_on_return_witness :
  invariant (vector_of [1; 2; 3] 4) /\
  invariant (vector_of [7] 1) /\
  @Emplace nat int_element 1 9
    (mkState (vector_of [1; 2; 3] 4) (vector_of [7] 1) empty_raw None []) =
  Ret (Here, 1)
      (mkState (vector_of [1; 9; 2; 3] 4) (vector_of [7] 1) empty_raw None
         [EvConstruct Local; EvMoveConstruct (At (Here, 2)) (At (Here, 3));
          EvMoveAssign (At (Here, 1)) (At (Here, 2));
          EvMoveAssign Local (At (Here, 1)); EvDestroy Local]) /\
  returns_with_invariant
    (@Emplace nat int_element 1 9
       (mkState (vector_of [1; 2; 3] 4) (vector_of [7] 1) empty_raw None [])).
Proof.
  assert (Hv : invariant (vector_of [1; 2; 3] 4))
    by (apply invariantb_sound; reflexivity).
  assert (Hw : invariant (vector_of [7] 1))
    by (apply invariantb_sound; reflexivity).
  split; [exact Hv|]. split; [exact Hw|]. split; [reflexivity|].
  pose proof (invariant_on_return nat int_element 8 (vector_of [1; 2; 3] 4)
                (vector_of [7] 1) empty_raw None [] Hv Hw) as H.
  cbv zeta in H.
  exact (proj1 (proj1 (proj2 (proj2 (proj2 (proj2 (proj2 (proj2 (proj2 (proj2 (proj2
           (proj2 (proj2 (proj2 H)))))))))))) 1 9)).
Defined.

(** ** [Erase] without exceptions, and [Reserve] before pushes *)

Section NoGrowthFacts.
Context {T : Type} `{!Element T}.

Lemma assign_ticks_nothrow n :
  is_nothrow_move_assignable = true -> assign_ticks n = 0.
Proof. intros H. unfold assign_ticks. rewrite H. reflexivity. Qed.

Lemma pushes_with_room (ys xs : list T) n :
  length xs + length ys <= n ->
  run_all (map PushBack ys) (vector_of xs n) = Some (vector_of (xs ++ ys) n).
Proof.
  revert xs. induction ys as [|y ys IH]; intros xs Hlen.
  - rewrite app_nil_r. reflexivity.
  - cbn [length] in Hlen. cbn [map run_all].
    destruct (PushBack_call xs n y ltac:(lia)) as (s & Hs & Hthis).
    rewrite (proj2 (Nat.eqb_neq (length xs) n)) in Hthis by lia.
    rewrite Hs, Hthis, IH by (rewrite length_app; cbn [length]; lia).
    rewrite <- app_assoc. reflexivity.
Qed.

End NoGrowthFacts.

(** X22.  [Erase] is declared [noexcept] when [T] is nothrow
    move-assignable, and then it cannot throw: for a position of
    [[begin, end)] it returns under every schedule, with the position, the
    element removed, the capacity unchanged, and the schedule untouched. *)
Theorem Erase_noexcept (T : Type) (E : Element T) (v o : Vector T) (d : RawMemory T)
    (c : option nat) (lg : list event) (pos : nat) :
  is_nothrow_move_assignable = true ->
  invariant v ->
  pos < size_ v ->
  Erase pos (mkState v o d c lg) =
  Ret (Here, pos)
      (mkState (vector_of (take pos (elements v) ++ drop (S pos) (elements v))
                          (capacity_ (data_ v)))
               o d c
               (lg ++ move_assign_events (Here, S pos) (Here, pos) (size_ v - pos - 1)
                   ++ [EvDestroy (At (Here, size_ v - 1))])).
Proof.
  intros Hassign Hv Hpos. canonical v Hv xs cap.
  destruct (lookup_lt_is_Some_2 xs pos Hpos) as [a Ha].
  pose proof (take_drop_middle xs pos a Ha) as Hsplit.
  assert (Hlen : length (take pos xs) = pos) by (rewrite length_take; lia).
  assert (Hrest : length (drop (S pos) xs) = length xs - pos - 1)
    by (rewrite length_drop; lia).
  assert (Hcap : length (take pos xs ++ a :: drop (S pos) xs) <= cap)
    by (rewrite Hsplit; exact Hle).
  assert (Hshort : length (take pos xs ++ drop (S pos) xs) = length xs - 1)
    by (rewrite length_app; lia).
  pose proof (Erase_spec (take pos xs) a (drop (S pos) xs) cap o d c lg Hcap) as Hrun.
  rewrite assign_ticks_nothrow, spend_0 in Hrun by assumption.
  rewrite Hsplit, Hlen, Hrest, Hshort in Hrun. exact Hrun.
Qed.

(** The theorem at [[1; 2; 3]] of capacity 4 and index 0, with an exception
    scheduled for the first operation that may throw. *)
Lemma Erase_noexcept_witness :
  @is_nothrow_move_assignable nat int_element = true /\
  invariant (vector_of [1; 2; 3] 4) /\
  0 < size_ (vector_of [1; 2; 3] 4) /\
  @Erase nat int_element 0 (call (vector_of [1; 2; 3] 4) (Some 0)) =
  Ret (Here, 0)
      (mkState (vector_of [2; 3] 4) empty_vector empty_raw (Some 0)
         [EvMoveAssign (At (Here, 1)) (At (Here, 0));
          EvMoveAssign (At (Here, 2)) (At (Here, 1));
          EvDestroy (At (Here, 2))]).
Proof.
  assert (H : invariant (vector_of [1; 2; 3] 4))
    by (apply invariantb_sound; reflexivity).
  assert (Hpos : 0 < size_ (vector_of [1; 2; 3] 4)) by (simpl; lia).
  split; [reflexivity|]. split; [exact H|]. split; [exact Hpos|].
  exact (Erase_noexcept nat int_element (vector_of [1; 2; 3] 4) empty_vector empty_raw
           (Some 0) [] 0 eq_refl H Hpos).
Defined.

(** X23.  After [Reserve(n)] above the capacity, for [n * sizeof(T)] that
    fits [size_t], pushing elements while the size stays within [n] never
    grows the storage: with no exception scheduled, [Reserve(n)] followed
    by one [PushBack] for each element of [ys] yields the old elements
    followed by [ys], in a block of exactly [n] slots. *)
Theorem Reserve_then_pushes (T : Type) (E : Element T) (sizeof : positive)
    (v : Vector T) (n : nat) (ys : list T) :
  invariant v ->
  capacity_ (data_ v) < n ->
  fits sizeof n ->
  size_ v + length ys <= n ->
  run_all (Reserve_wrapping sizeof n :: map PushBack ys) v
  = Some (vector_of (elements v ++ ys) n).
Proof.
  intros Hv Hn Hfit Hlen. rewrite Reserve_wrapping_fits by exact Hfit.
  canonical v Hv xs cap.
  cbn [run_all]. unfold call. rewrite Reserve_spec by assumption.
  rewrite !spend_None. cbn [this]. apply pushes_with_room. exact Hlen.
Qed.

(** The theorem at [[1]] of capacity 1, reserved to 4, and three pushes. *)
Lemma Reserve_then_pushes_witness :
  invariant (vector_of [1] 1) /\
  fits 8 4 /\
  run_all [@Reserve_wrapping nat int_element 8 4; @PushBack nat int_element 2;
           @PushBack nat int_element 3; @PushBack nat int_element 4]
          (vector_of [1] 1) = Some (vector_of [1; 2; 3; 4] 4).
Proof.
  assert (H : invariant (vector_of [1] 1))
    by (apply invariantb_sound; reflexivity).
  assert (Hn : capacity_ (data_ (vector_of [1] 1)) < 4) by (simpl; lia).
  assert (Hfit : fits 8 4) by (vm_compute; discriminate).
  assert (Hlen : size_ (vector_of [1] 1) + length [2; 3; 4] <= 4) by (simpl; lia).
  split; [exact H|]. split; [exact Hfit|].
  exact (Reserve_then_pushes nat int_element 8 (vector_of [1] 1) 4 [2; 3; 4] H Hn Hfit Hlen).
Defined.

(** X24.  Copy assignment, [Reserve], [Resize], the push functions,
    [PopBack], the insertions and [Erase] never shrink the storage and never
    touch the other vector: whenever one of them returns, called on vectors
    that satisfy the invariant, under any schedule and with any arguments
    but a count [n] for which [n * sizeof(T)] does not fit [size_t], the
    capacity is at least what it was, the other vector is exactly as it
    was, and [*this] satisfies the invariant. *)
Theorem capacity_never_shrinks (T : Type) (E : Element T) (sizeof : positive)
    (v w : Vector T) (d : RawMemory T) (c : option nat) (lg : list event) :
  invariant v -> invariant w ->
  let s := mkState v w d c lg in
  let cap := capacity_ (data_ v) in
  returns_in_shape cap w (copy_assign Other s) /\
  (forall n, fits sizeof n -> returns_in_shape cap w (Reserve_wrapping sizeof n s)) /\
  (forall n, fits sizeof n -> returns_in_shape cap w (Resize_wrapping sizeof n s)) /\
  (forall x, returns_in_shape cap w (PushBack x s) /\
             returns_in_shape cap w (PushBack_move x s) /\
             returns_in_shape cap w (EmplaceBack x s)) /\
  returns_in_shape cap w (PopBack s) /\
  (forall pos x, returns_in_shape cap w (Emplace pos x s) /\
                 returns_in_shape cap w (Insert pos x s) /\
                 returns_in_shape cap w (Insert_move pos x s)) /\
  (forall pos, returns_in_shape cap w (Erase pos s)).
Proof.
  intros Hv Hw s cap0. unfold s, cap0. clear s cap0.
  canonical v Hv xs cap. rename Hle into Hxs.
  canonical w Hw ys capo. rename Hle into Hys.
  destruct (members_keep_shape xs cap ys capo d c lg Hxs Hys)
    as (Hassign & Hreserve & Hresize & Hrest).
  split; [exact Hassign|]. split; [|split; [|exact Hrest]].
  - intros n Hfit. rewrite Reserve_wrapping_fits by exact Hfit. apply Hreserve.
  - intros n Hfit. rewrite Resize_wrapping_fits by exact Hfit. apply Hresize.
Qed.

(** The theorem at [[1; 2; 3]] of capacity 4 and [[7]] of capacity 1, for
    [Resize(0)]: the block of four slots is kept. *)
Lemma capacity_never_shrinks_witness :
  invariant (vector_of [1; 2; 3] 4) /\
  invariant (vector_of [7] 1) /\
  fits 8 0 /\
  @Resize_wrapping nat int_element 8 0
    (mkState (vector_of [1; 2; 3] 4) (vector_of [7] 1) empty_raw None []) =
  Ret tt (mkState (vector_of [] 4) (vector_of [7] 1) empty_raw None
            [EvDestroy (At (Here, 0)); EvDestroy (At (Here, 1));
             EvDestroy (At (Here, 2))]) /\
  returns_in_shape 4 (vector_of [7] 1)
    (@Resize_wrapping nat int_element 8 0
       (mkState (vector_of [1; 2; 3] 4) (vector_of [7] 1) empty_raw None [])).
Proof.
  assert (Hv : invariant (vector_of [1; 2; 3] 4))
    by (apply invariantb_sound; reflexivity).
  assert (Hw : invariant (vector_of [7] 1))
    by (apply invariantb_sound; reflexivity).
  assert (Hfit : fits 8 0) by (vm_compute; discriminate).
  split; [exact Hv|]. split; [exact Hw|]. split; [exact Hfit|]. split; [reflexivity|].
  pose proof (capacity_never_shrinks nat int_element 8 (vector_of [1; 2; 3] 4)
                (vector_of [7] 1) empty_raw None [] Hv Hw) as H.
  cbv zeta in H.
  exact (proj1 (proj2 (proj2 H)) 0 Hfit).
Defined.

(** X25.  A vector constructed and then destroyed, with no exception
    scheduled, gives back what it took: after [Vector(n)], for
    [n * sizeof(T)] that fits [size_t], and after the copy constructor, the
    destructor destroys the elements constructed, in the order of their
    construction, and releases the one block allocated; with no element
    there is no allocation and no release. *)
Theorem constructed_then_destroyed (T : Type) (E : Element T) (sizeof : positive)
    (v w : Vector T) (d : RawMemory T) (lg : list event) (n : nat) :
  invariant w ->
  fits sizeof n ->
  (exists s',
     (Vector_sized_wrapping sizeof n;; Vector_dtor) (mkState v w d None lg) = Ret tt s' /\
     log s' = lg ++ (if n =? 0 then [] else [EvAllocate n])
                 ++ value_events (Here, 0) n
                 ++ destroy_events (Here, 0) n
                 ++ (if n =? 0 then [] else [EvDeallocate n])) /\
  (exists s',
     (Vector_copy;; Vector_dtor) (mkState v w d None lg) = Ret tt s' /\
     other s' = w /\
     log s' = lg ++ (if size_ w =? 0 then [] else [EvAllocate (size_ w)])
                 ++ copy_events (There, 0) (Here, 0) (size_ w)
                 ++ destroy_events (Here, 0) (size_ w)
                 ++ (if size_ w =? 0 then [] else [EvDeallocate (size_ w)])).
Proof.
  intros Hw Hfit. rewrite Vector_sized_wrapping_fits by exact Hfit. clear Hfit.
  canonical w Hw ys capo. split.
  - rewrite bind_unfold. destruct n as [|n'].
    + rewrite Vector_sized_0, Vector_dtor_spec by reflexivity.
      eexists. split; [reflexivity|]. cbn. rewrite !app_nil_r. reflexivity.
    + rewrite Vector_sized_spec by lia. rewrite !spend_None.
      rewrite Vector_dtor_spec by (rewrite length_replicate; lia).
      rewrite length_replicate.
      eexists. split; [reflexivity|]. cbn [log Nat.eqb].
      rewrite <- !app_assoc. reflexivity.
  - rewrite bind_unfold. destruct (decide (length ys = 0)) as [Hz|Hnz].
    + destruct ys; [|discriminate].
      rewrite Vector_copy_empty, Vector_dtor_spec by reflexivity.
      eexists. split; [reflexivity|]. split; [reflexivity|].
      cbn. rewrite !app_nil_r. reflexivity.
    + rewrite Vector_copy_spec by lia. rewrite !spend_None.
      rewrite Vector_dtor_spec by lia.
      rewrite (proj2 (Nat.eqb_neq (length ys) 0) Hnz).
      eexists. split; [reflexivity|]. split; [reflexivity|]. cbn [log].
      rewrite <- !app_assoc. reflexivity.
Qed.

(** The theorem at [Vector(2)] and at a copy of [[7; 8]]. *)
Lemma constructed_then_destroyed_witness :
  invariant (vector_of [7; 8] 4) /\
  fits 8 2 /\
  exists s',
    (@Vector_sized_wrapping nat int_element 8 2;; Vector_dtor)
      (call2 empty_vector (vector_of [7; 8] 4) None) = Ret tt s' /\
    log s' = [EvAllocate 2; EvConstruct (At (Here, 0)); EvConstruct (At (Here, 1));
              EvDestroy (At (Here, 0)); EvDestroy (At (Here, 1)); EvDeallocate 2].
Proof.
  assert (H : invariant (vector_of [7; 8] 4))
    by (apply invariantb_sound; reflexivity).
  assert (Hfit : fits 8 2) by (vm_compute; discriminate).
  split; [exact H|]. split; [exact Hfit|].
  exact (proj1 (constructed_then_destroyed nat int_element 8 empty_vector
                  (vector_of [7; 8] 4) empty_raw [] 2 H Hfit)).
Defined.
